(** * Admin pages of bnsn: categories browser and users management

    A shallow embedding of the two page controllers
    ([CategoriesPage] and [UsersPage]) and of the properties their
    specification states about them: the expansion set of the category
    tree, the pagination controller, the data loaders, the mutation
    handlers and the search debouncer. *)

From Stdlib Require Import ZArith NArith QArith Lia List Floats.
From stdpp Require Import base decidable option list strings gmap sets.
Import ListNotations.

Local Open Scope string_scope.
Local Open Scope list_scope.

Set Warnings "-register-all,-clear-no-such-hyp".

(** ** Categories page: records and expansion set *)

Module CategoryTree.

(** [type: "blueprint" | "project"] *)
Inductive CategoryType : Type := blueprint | project.

(** [settings: { focus; tone; quantity; contentLength }] *)
Record Settings : Type := mkSettings {
  focus : string;
  tone : string;
  quantity : string;
  contentLength : Z
}.

(** [interface Category]; [parentId] and [children] are optional fields. *)
Inductive Category : Type := mkCategory {
  _id : string;
  title : string;
  alias : string;
  description : string;
  type : CategoryType;
  level : Z;
  parentId : option string;
  fields : list (string * string);
  settings : Settings;
  createdAt : string;
  updatedAt : string;
  children : option (list Category)
}.

(** [cat.children && cat.children.length > 0] *)
Definition has_children (cat : Category) : bool :=
  match children cat with
  | Some (_ :: _) => true
  | _ => false
  end.

(** The child list that is walked when [has_children] holds. *)
Definition child_list (cat : Category) : list Category :=
  match children cat with
  | Some cs => cs
  | None => []
  end.

(** [Set<string>]: membership is all the page ever asks of it. *)
Abbreviation ExpansionSet := (gset string).

(** [collectIds] of [expandAllCategories]: a [forEach] over [cats] that
    adds to the shared set [allIds] and recurses into the children of
    every node that has some.  The shared mutable set is threaded
    through as an accumulator. *)
Fixpoint collectIds_cat (cat : Category) (allIds : ExpansionSet) : ExpansionSet :=
  match children cat with
  | Some cs =>
      match cs with
      | _ :: _ =>
          (fix forEach (l : list Category) (acc : ExpansionSet) : ExpansionSet :=
             match l with
             | [] => acc
             | c :: l' => forEach l' (collectIds_cat c acc)
             end) cs ({[ _id cat ]} ∪ allIds)
      | [] => allIds
      end
  | None => allIds
  end.

Fixpoint collectIds (cats : list Category) (allIds : ExpansionSet) : ExpansionSet :=
  match cats with
  | [] => allIds
  | c :: l' => collectIds l' (collectIds_cat c allIds)
  end.

(** The same walk, keeping the order of the [allIds.add] calls. *)
Fixpoint addOrder_cat (cat : Category) : list string :=
  match children cat with
  | Some cs =>
      match cs with
      | _ :: _ =>
          _id cat ::
          (fix forEach (l : list Category) : list string :=
             match l with
             | [] => []
             | c :: l' => addOrder_cat c ++ forEach l'
             end) cs
      | [] => []
      end
  | None => []
  end.

Fixpoint addOrder (cats : list Category) : list string :=
  match cats with
  | [] => []
  | c :: l' => addOrder_cat c ++ addOrder l'
  end.

(** [expandAllCategories(categories)]: the state setter receives the
    freshly collected set, whatever the previous state was. *)
Definition expandAllCategories (categories : list Category)
    (expandedCategories : ExpansionSet) : ExpansionSet :=
  collectIds categories ∅.

(** [collapseAllCategories = () => setExpandedCategories(new Set())] *)
Definition collapseAllCategories (expandedCategories : ExpansionSet) : ExpansionSet :=
  ∅.

(** [toggleExpanded(categoryId)]: copy, then delete when present and
    add when absent. *)
Definition toggleExpanded (categoryId : string)
    (expandedCategories : ExpansionSet) : ExpansionSet :=
  let newExpanded := expandedCategories in
  if bool_decide (categoryId ∈ newExpanded)
  then newExpanded ∖ {[ categoryId ]}
  else {[ categoryId ]} ∪ newExpanded.

(** *** Pre-order listing of a forest (the specification's words) *)

Fixpoint preorder_cat (cat : Category) : list Category :=
  cat ::
  match children cat with
  | Some cs =>
      (fix go (l : list Category) : list Category :=
         match l with
         | [] => []
         | c :: l' => preorder_cat c ++ go l'
         end) cs
  | None => []
  end.

Fixpoint preorder (cats : list Category) : list Category :=
  match cats with
  | [] => []
  | c :: l' => preorder_cat c ++ preorder l'
  end.

(** Every id with children, in pre-order. *)
Definition parent_ids (cats : list Category) : list string :=
  map _id (filter (λ c, has_children c = true) (preorder cats)).

(** *** The rendered tree *)

Inductive Chevron : Type := ChevronDown | ChevronRight.

(** What [renderCategoryTree] produces for one category: the row, the
    expand/collapse button when there is one (with the id its [onClick]
    passes to [toggleExpanded] and the icon shown), and the nested
    children block when it is rendered. *)
Inductive Element : Type := mkElement {
  el_key : string * Z * nat;
  el_indent : bool;
  el_button : option (string * Chevron);
  el_title : string;
  el_alias : string;
  el_type : CategoryType;
  el_level : Z;
  el_count : option nat;
  el_children : option (list Element)
}.

Fixpoint renderCategory (expandedCategories : ExpansionSet) (lvl : Z)
    (index : nat) (category : Category) : Element :=
  mkElement
    (_id category, lvl, index)
    (bool_decide (lvl > 0)%Z)
    (if has_children category
     then Some (_id category,
                if bool_decide (_id category ∈ expandedCategories)
                then ChevronDown else ChevronRight)
     else None)
    (title category)
    (alias category)
    (type category)
    (level category)
    (if has_children category then Some (length (child_list category)) else None)
    (match children category with
     | Some cs =>
         match cs with
         | _ :: _ =>
             if bool_decide (_id category ∈ expandedCategories)
             then Some ((fix mapi (l : list Category) (i : nat) : list Element :=
                           match l with
                           | [] => []
                           | c :: l' =>
                               renderCategory expandedCategories (lvl + 1) i c
                               :: mapi l' (S i)
                           end) cs 0%nat)
             else None
         | [] => None
         end
     | None => None
     end).

Fixpoint renderList (expandedCategories : ExpansionSet) (lvl : Z)
    (cats : list Category) (i : nat) : list Element :=
  match cats with
  | [] => []
  | c :: l' =>
      renderCategory expandedCategories lvl i c
      :: renderList expandedCategories lvl l' (S i)
  end.

(** [renderCategoryTree(categories, level = 0)] *)
Definition renderCategoryTree (expandedCategories : ExpansionSet)
    (categories : list Category) (lvl : Z) : list Element :=
  renderList expandedCategories lvl categories 0%nat.

(** The rows on screen, top to bottom, with their depth. *)
Fixpoint visible (e : Element) : list (string * Z) :=
  (fst (fst (el_key e)), snd (fst (el_key e))) ::
  match el_children e with
  | Some es =>
      (fix go (l : list Element) : list (string * Z) :=
         match l with
         | [] => []
         | x :: l' => visible x ++ go l'
         end) es
  | None => []
  end.

Definition visible_rows (es : list Element) : list (string * Z) :=
  flat_map visible es.

(** A click on the expand/collapse control of an element: the button's
    [onClick] runs [toggleExpanded]; an element without a button has
    nothing to click. *)
Definition click_control (e : Element) (expandedCategories : ExpansionSet) : ExpansionSet :=
  match el_button e with
  | Some (categoryId, _) => toggleExpanded categoryId expandedCategories
  | None => expandedCategories
  end.

End CategoryTree.

(** ** Asynchronous handlers

    The handlers of both pages are [async] functions that set React
    state, call the API client and the browser, and may throw.  They are
    written as programs over a signature of commands [Cmd]: a command is
    answered by the world it runs in, a [throw] unwinds to the nearest
    [catch], and a [finally] block runs on both ways out. *)

Module Async.

(** A JavaScript [Error]: all the pages read of it is [message]. *)
Record Error : Type := mkError { message : string }.

(** How a promise settles. *)
Inductive outcome (A : Type) : Type :=
| Resolved (a : A)
| Rejected (e : Error).
Arguments Resolved {A} a.
Arguments Rejected {A} e.

Section Programs.

Context {Cmd : Type → Type}.

Inductive prog (A : Type) : Type :=
| Ret (a : A)
| Throw (e : Error)
| Do {X : Type} (c : Cmd X) (k : X → prog A).
Arguments Ret {A} a.
Arguments Throw {A} e.
Arguments Do {A X} c k.

Fixpoint bind {A B : Type} (p : prog A) (f : A → prog B) : prog B :=
  match p with
  | Ret a => f a
  | Throw e => Throw e
  | Do c k => Do c (λ x, bind (k x) f)
  end.

(** A command on its own. *)
Definition call {X : Type} (c : Cmd X) : prog X := Do c Ret.

(** [await c]: a rejected promise is thrown at the [await]. *)
Definition await {X : Type} (c : Cmd (outcome X)) : prog X :=
  Do c (λ o, match o with Resolved x => Ret x | Rejected e => Throw e end).

(** [try { p } catch (e) { h e }] *)
Fixpoint try_catch {A : Type} (p : prog A) (h : Error → prog A) : prog A :=
  match p with
  | Ret a => Ret a
  | Throw e => h e
  | Do c k => Do c (λ x, try_catch (k x) h)
  end.

(** [try { p } finally { fin }] *)
Fixpoint try_finally {A : Type} (p : prog A) (fin : prog unit) : prog A :=
  match p with
  | Ret a => bind fin (λ _, Ret a)
  | Throw e => bind fin (λ _, Throw e)
  | Do c k => Do c (λ x, try_finally (k x) fin)
  end.

(** One entry of the log of a run: a command that was issued. *)
Inductive event : Type :=
| Ev {X : Type} (c : Cmd X).

(** The world answers the [n]-th command of a run. *)
Definition world : Type := ∀ X : Type, nat → Cmd X → X.

(** How an [async] function ends. *)
Inductive completion (A : Type) : Type :=
| Returned (a : A)
| Thrown (e : Error).
Arguments Returned {A} a.
Arguments Thrown {A} e.

Record run (S A : Type) : Type := mkRun {
  result : completion A;
  final : S;
  log : list event
}.
Arguments mkRun {S A} _ _ _.
Arguments result {S A} _.
Arguments final {S A} _.
Arguments log {S A} _.

(** Run a program from state [st], after the commands logged in [tr]:
    each command is logged, answered by the world and applied to the
    state by [effect]. *)
Fixpoint exec {S A : Type} (effect : ∀ X : Type, Cmd X → S → S) (w : world)
    (p : prog A) (st : S) (tr : list event) : run S A :=
  match p with
  | Ret a => mkRun (Returned a) st tr
  | Throw e => mkRun (Thrown e) st tr
  | Do c k =>
      exec effect w (k (w _ (length tr) c)) (effect _ c st) (tr ++ [Ev c])
  end.

End Programs.

Arguments prog Cmd A : clear implicits.
Arguments event Cmd : clear implicits.
Arguments world Cmd : clear implicits.
Arguments Ret {Cmd A} a.
Arguments Throw {Cmd A} e.
Arguments Do {Cmd A X} c k.
Arguments Returned {A} a.
Arguments Thrown {A} e.
Arguments run Cmd S A : clear implicits.
Arguments mkRun {Cmd S A} _ _ _.
Arguments result {Cmd S A} _.
Arguments final {Cmd S A} _.
Arguments log {Cmd S A} _.

#[export] Instance prog_ret {Cmd} : MRet (prog Cmd) := λ A a, Ret a.
#[export] Instance prog_bind {Cmd} : MBind (prog Cmd) := λ A B f p, bind p f.

End Async.

(** ** Users page *)

Module UsersPage.

Import Async.

(** [role: "admin" | "user"] *)
Inductive Role : Type := admin | user.

(** Modelled from the spec: the [AdminUser] type is declared in
    [services/adminApi], which is not among the sources.  The fields are
    those of the specification's User record that the page reads; the
    usage counters are JavaScript numbers. *)
Record AdminUser : Type := mkAdminUser {
  _id : string;
  firstName : string;
  lastName : string;
  email : string;
  role : Role;
  wordsUsed : float;
  totalWords : float;
  createdAt : string
}.

(** [interface CreateUserInput] *)
Record CreateUserInput : Type := mkCreateUserInput {
  new_firstName : string;
  new_lastName : string;
  new_email : string;
  new_role : Role;
  new_password : string
}.

(** The pagination snapshot held in [useState]. *)
Record Pagination : Type := mkPagination {
  currentPage : Z;
  totalPages : Z;
  totalItems : Z;
  itemsPerPage : Z
}.

(** What [adminApi.getUsers] resolves to. *)
Record UsersResponse : Type := mkUsersResponse {
  data : list AdminUser;
  response_pagination : Pagination
}.

(** The [fetch] call of [handleCreateUser]. *)
Record RequestInit : Type := mkRequestInit {
  method : string;
  headers : list (string * string);
  body : CreateUserInput
}.

(** A [fetch] response: the [ok] flag, and a handle on its body. *)
Record Response : Type := mkResponse {
  ok : bool;
  body_id : nat
}.

(** A parsed JSON body.  [null] is set apart, since reading a property
    of it throws; of any other value all the page reads is [message]:
    [json_message] is the text [new Error] makes of it, [None] when the
    property is missing or falsy without being the empty string. *)
Inductive Json : Type :=
| JsonNull
| mkJson (json_message : option string).

(** The [TypeError] of [error.message] on [null]; the text is the
    engine's, here V8's. *)
Definition null_message_error : Error :=
  mkError "Cannot read properties of null (reading 'message')".

(** The component state: one field per [useState], and the state of
    [useDebounce]. *)
Record State : Type := mkState {
  users : list AdminUser;
  loading : bool;
  searchTerm : string;
  debounced : string;
  selectedUser : option AdminUser;
  showCreateModal : bool;
  showEditModal : bool;
  pagination : Pagination
}.

(** The state as [UsersPage] mounts. *)
Definition initial : State :=
  mkState [] true "" "" None false false (mkPagination 1 1 0 25).

(** State setters, API client calls and browser calls. *)
Inductive Cmd : Type → Type :=
| setUsers (v : list AdminUser) : Cmd unit
| setLoading (v : bool) : Cmd unit
| setSearchTerm (v : string) : Cmd unit
| setDebounced (v : string) : Cmd unit
| setSelectedUser (v : option AdminUser) : Cmd unit
| setShowCreateModal (v : bool) : Cmd unit
| setShowEditModal (v : bool) : Cmd unit
| setPagination (f : Pagination → Pagination) : Cmd unit
| getUsers (page perPage : Z) (search : string) : Cmd (outcome UsersResponse)
| deleteUser (userId : string) : Cmd (outcome unit)
| fetch (url : string) (init : RequestInit) : Cmd (outcome Response)
| json (r : Response) : Cmd (outcome Json)
| localStorage_getItem (key : string) : Cmd (option string)
| confirm (msg : string) : Cmd bool
| alert (msg : string) : Cmd unit
| console_error (msg : string) (e : Error) : Cmd unit.

(** What a command does to the component state. *)
Definition effect (X : Type) (c : Cmd X) (st : State) : State :=
  match c with
  | setUsers v =>
      mkState v (loading st) (searchTerm st) (debounced st) (selectedUser st)
        (showCreateModal st) (showEditModal st) (pagination st)
  | setLoading v =>
      mkState (users st) v (searchTerm st) (debounced st) (selectedUser st)
        (showCreateModal st) (showEditModal st) (pagination st)
  | setSearchTerm v =>
      mkState (users st) (loading st) v (debounced st) (selectedUser st)
        (showCreateModal st) (showEditModal st) (pagination st)
  | setDebounced v =>
      mkState (users st) (loading st) (searchTerm st) v (selectedUser st)
        (showCreateModal st) (showEditModal st) (pagination st)
  | setSelectedUser v =>
      mkState (users st) (loading st) (searchTerm st) (debounced st) v
        (showCreateModal st) (showEditModal st) (pagination st)
  | setShowCreateModal v =>
      mkState (users st) (loading st) (searchTerm st) (debounced st)
        (selectedUser st) v (showEditModal st) (pagination st)
  | setShowEditModal v =>
      mkState (users st) (loading st) (searchTerm st) (debounced st)
        (selectedUser st) (showCreateModal st) v (pagination st)
  | setPagination f =>
      mkState (users st) (loading st) (searchTerm st) (debounced st)
        (selectedUser st) (showCreateModal st) (showEditModal st)
        (f (pagination st))
  | _ => st
  end.

Definition run_handler {A : Type} (w : world Cmd) (p : prog Cmd A) (st : State)
    : run Cmd State A :=
  exec effect w p st [].

(** [loadUsers]: a [useCallback] closure over [pagination.currentPage],
    [pagination.itemsPerPage] and [debouncedSearch] of the render [self]
    it was created in. *)
Definition loadUsers (self : State) : prog Cmd unit :=
  try_finally
    (try_catch
       (call (setLoading true);;
        response ← await (getUsers (currentPage (pagination self))
                            (itemsPerPage (pagination self))
                            (debounced self));
        call (setUsers (data response));;
        call (setPagination (λ _, response_pagination response)))
       (λ error, call (console_error "Error loading users:" error)))
    (call (setLoading false)).

(** [handlePageChange] *)
Definition handlePageChange (page : Z) : prog Cmd unit :=
  call (setPagination (λ prev,
    mkPagination page (totalPages prev) (totalItems prev) (itemsPerPage prev))).

(** [handleItemsPerPageChange] *)
Definition handleItemsPerPageChange (perPage : Z) : prog Cmd unit :=
  call (setPagination (λ prev,
    mkPagination 1 (totalPages prev) (totalItems prev) perPage)).

(** [handleSearch] *)
Definition handleSearch (value : string) : prog Cmd unit :=
  call (setSearchTerm value);;
  call (setPagination (λ prev,
    mkPagination 1 (totalPages prev) (totalItems prev) (itemsPerPage prev))).

(** [handleEditUser] *)
Definition handleEditUser (u : AdminUser) : prog Cmd unit :=
  call (setSelectedUser (Some u));;
  call (setShowEditModal true).

(** [handleDeleteUser] *)
Definition handleDeleteUser (self : State) (userId : string) : prog Cmd unit :=
  confirmed ← call (confirm "Are you sure you want to delete this user?");
  if (confirmed : bool) then
    try_catch
      (await (deleteUser userId);;
       loadUsers self)
      (λ error, call (console_error "Error deleting user:" error))
  else mret tt.

(** [x || fallback] on an optional string: [undefined] and the empty
    string are falsy. *)
Definition or_else (x : option string) (fallback : string) : string :=
  match x with
  | Some s => if decide (s = "") then fallback else s
  | None => fallback
  end.

(** The text a template literal shows for [localStorage.getItem]. *)
Definition show_item (x : option string) : string :=
  match x with
  | Some s => s
  | None => "null"
  end.

(** [handleCreateUser] *)
Definition handleCreateUser (self : State) (newUser : CreateUserInput)
    : prog Cmd unit :=
  try_catch
    (token ← call (localStorage_getItem "token");
     response ← await (fetch "http://localhost:5002/api/auth/register"
                         (mkRequestInit "POST"
                            [("Content-Type", "application/json");
                             ("Authorization", "Bearer " +:+ show_item token)]
                            newUser));
     (if negb (ok response) then
        error ← await (json response);
        match error with
        | JsonNull => Throw null_message_error
        | mkJson json_message =>
            Throw (mkError (or_else json_message "Failed to create user"))
        end
      else mret tt);;
     await (json response);;
     loadUsers self;;
     call (setShowCreateModal false);;
     call (alert "User created successfully!"))
    (λ error,
       call (console_error "Error creating user:" error);;
       call (alert ("Error creating user: " +:+ message error))).

(** The calls of a log that go to the list endpoint, with their
    arguments. *)
Definition reload_of (e : event Cmd) : option (Z * Z * string) :=
  match e with
  | Ev c =>
      match c with
      | getUsers page perPage search => Some (page, perPage, search)
      | _ => None
      end
  end.

Definition reloads (tr : list (event Cmd)) : list (Z * Z * string) :=
  omap reload_of tr.

(** The calls of a log that go to the delete endpoint. *)
Definition delete_of (e : event Cmd) : option string :=
  match e with
  | Ev c =>
      match c with
      | deleteUser userId => Some userId
      | _ => None
      end
  end.

Definition deletes (tr : list (event Cmd)) : list string :=
  omap delete_of tr.

End UsersPage.

(** ** The usage column of the users table *)

Module Usage.

Import UsersPage.

Local Open Scope float_scope.

(** [Math.min(x, y)] on two numbers: NaN if either is NaN, otherwise the
    smaller one, [-0] counting as smaller than [+0]. *)
Definition Math_min (x y : float) : float :=
  if is_nan x || is_nan y then nan
  else if x <? y then x
  else if y <? x then y
  else if get_sign x then x else y.

(** An integer of magnitude below [2^63] as a number. *)
Definition of_integer (z : Z) : float :=
  if (z <? 0)%Z then - of_uint63 (Uint63.of_Z (- z))
  else of_uint63 (Uint63.of_Z z).

(** [Math.round(x)]: the nearest integer, ties going up; NaN, the
    infinities and the zeros are returned as they are, and so is every
    number with no fractional bits.  A result of zero keeps the sign
    of [x]. *)
Definition Math_round (x : float) : float :=
  match Prim2SF x with
  | S754_finite s m e =>
      if (0 <=? e)%Z then x
      else
        let n := if s then Z.neg m else Z.pos m in
        let r := ((2 * n + 2 ^ (- e)) / 2 ^ (- e + 1))%Z in
        if (r =? 0)%Z then (if s then neg_zero else zero) else of_integer r
  | _ => x
  end.

(** The rational a number stands for; the infinities and NaN stand for
    none. *)
Definition value (x : float) : option Q :=
  match Prim2SF x with
  | S754_zero _ => Some 0%Q
  | S754_finite s m e =>
      let n := if s then Z.neg m else Z.pos m in
      Some (if (0 <=? e)%Z then inject_Z (n * 2 ^ e)
            else n # Z.to_pos (2 ^ (- e)))
  | _ => None
  end.

(** The [width] style of the usage bar, in percent. *)
Definition usage_width (u : AdminUser) : float :=
  Math_min ((wordsUsed u / totalWords u) * 100) 100.

(** The number printed before "% used". *)
Definition usage_text (u : AdminUser) : float :=
  Math_round ((wordsUsed u / totalWords u) * 100).

End Usage.

(** ** Categories page *)

Module CategoriesPage.

Import Async CategoryTree.

(** What [adminApi.getCategories] resolves to. *)
Record CategoriesResponse : Type := mkCategoriesResponse {
  data : list Category
}.

(** The component state: one field per [useState]. *)
Record State : Type := mkState {
  categories : list Category;
  loading : bool;
  searchTerm : string;
  debouncedSearch : string;
  selectedCategory : option Category;
  showEditModal : bool;
  showCreateModal : bool;
  expandedCategories : gset string
}.

(** The state as [CategoriesPage] mounts. *)
Definition initial : State :=
  mkState [] true "" "" None false false ∅.

Inductive Cmd : Type → Type :=
| setCategories (v : list Category) : Cmd unit
| setLoading (v : bool) : Cmd unit
| setSearchTerm (v : string) : Cmd unit
| setDebouncedSearch (v : string) : Cmd unit
| setSelectedCategory (v : option Category) : Cmd unit
| setShowEditModal (v : bool) : Cmd unit
| setShowCreateModal (v : bool) : Cmd unit
| setExpandedCategories (v : gset string) : Cmd unit
| getCategories (page limit : Z) (search : string) : Cmd (outcome CategoriesResponse)
| console_error (msg : string) (e : Error) : Cmd unit.

Definition effect (X : Type) (c : Cmd X) (st : State) : State :=
  match c with
  | setCategories v =>
      mkState v (loading st) (searchTerm st) (debouncedSearch st)
        (selectedCategory st) (showEditModal st) (showCreateModal st)
        (expandedCategories st)
  | setLoading v =>
      mkState (categories st) v (searchTerm st) (debouncedSearch st)
        (selectedCategory st) (showEditModal st) (showCreateModal st)
        (expandedCategories st)
  | setSearchTerm v =>
      mkState (categories st) (loading st) v (debouncedSearch st)
        (selectedCategory st) (showEditModal st) (showCreateModal st)
        (expandedCategories st)
  | setDebouncedSearch v =>
      mkState (categories st) (loading st) (searchTerm st) v
        (selectedCategory st) (showEditModal st) (showCreateModal st)
        (expandedCategories st)
  | setSelectedCategory v =>
      mkState (categories st) (loading st) (searchTerm st) (debouncedSearch st)
        v (showEditModal st) (showCreateModal st) (expandedCategories st)
  | setShowEditModal v =>
      mkState (categories st) (loading st) (searchTerm st) (debouncedSearch st)
        (selectedCategory st) v (showCreateModal st) (expandedCategories st)
  | setShowCreateModal v =>
      mkState (categories st) (loading st) (searchTerm st) (debouncedSearch st)
        (selectedCategory st) (showEditModal st) v (expandedCategories st)
  | setExpandedCategories v =>
      mkState (categories st) (loading st) (searchTerm st) (debouncedSearch st)
        (selectedCategory st) (showEditModal st) (showCreateModal st) v
  | _ => st
  end.

Definition run_handler {A : Type} (w : world Cmd) (p : prog Cmd A) (st : State)
    : run Cmd State A :=
  exec effect w p st [].

(** [loadCategories(search)] *)
Definition loadCategories (search : string) : prog Cmd unit :=
  try_finally
    (try_catch
       (call (setLoading true);;
        response ← await (getCategories 1 25 search);
        call (setCategories (data response)))
       (λ error, call (console_error "Error loading categories:" error)))
    (call (setLoading false)).

(** [handleSearch] *)
Definition handleSearch (value : string) : prog Cmd unit :=
  call (setSearchTerm value).

(** [handleEditCategory] *)
Definition handleEditCategory (category : Category) : prog Cmd unit :=
  call (setSelectedCategory (Some category));;
  call (setShowEditModal true).

(** The three expansion handlers, as the buttons run them. *)
Definition onExpandAll (self : State) : prog Cmd unit :=
  call (setExpandedCategories
          (expandAllCategories (categories self) (expandedCategories self))).

Definition onCollapseAll (self : State) : prog Cmd unit :=
  call (setExpandedCategories (collapseAllCategories (expandedCategories self))).

Definition onToggle (self : State) (categoryId : string) : prog Cmd unit :=
  call (setExpandedCategories (toggleExpanded categoryId (expandedCategories self))).

End CategoriesPage.

(** ** Search debouncer

    [useDebounce] on the users page and the inlined effect of the
    categories page are the same code: an effect keyed on the raw input
    that schedules a timer publishing the captured value, and whose
    cleanup clears that timer.  A second effect, keyed on the loader's
    dependencies, calls the loader.  The machine below runs a component
    of that shape against the browser's timer table; time is in
    milliseconds. *)

Module Debounce.

(** A pending [setTimeout]: its id, when it is due, and the value its
    callback captured. *)
Record Timer : Type := mkTimer {
  tid : nat;
  deadline : N;
  captured : string
}.

Section Component.

Context {St Dep : Type} `{EqDecision Dep}.

(** The raw input the debounce effect is keyed on. *)
Variable raw : St → string.
(** The [onChange] handler of the search field. *)
Variable onInput : string → St → St.
(** The callback of the timer. *)
Variable publish : string → St → St.
(** The dependencies of the loader effect; they are also the values the
    loader call carries. *)
Variable deps : St → Dep.
Variable delay : N.

Record Machine : Type := mkMachine {
  page : St;
  now : N;
  (** the browser's pending timers, oldest first *)
  timers : list Timer;
  nextTimer : nat;
  (** the id held by the cleanup of the debounce effect *)
  handler : nat;
  (** the timer callbacks that ran: due time and published value *)
  fired : list (N * string);
  (** the loader calls the loader effect made *)
  reloads : list Dep
}.

(** [const handler = setTimeout(() => publish(value), delay)] *)
Definition setTimeout (value : string) (m : Machine) : Machine :=
  mkMachine (page m) (now m)
    (timers m ++ [mkTimer (nextTimer m) (now m + delay) value])
    (S (nextTimer m)) (nextTimer m) (fired m) (reloads m).

(** [clearTimeout(id)]: no effect when the timer is no longer pending. *)
Definition clearTimeout (id : nat) (m : Machine) : Machine :=
  mkMachine (page m) (now m)
    (filter (λ t, tid t ≠ id) (timers m))
    (nextTimer m) (handler m) (fired m) (reloads m).

(** The debounce effect after a render: when the raw input differs from
    the one of the previous render [old], the cleanup of the previous
    run clears its timer and the effect schedules a new one. *)
Definition debounce_effect (old : St) (m : Machine) : Machine :=
  if decide (raw old = raw (page m)) then m
  else setTimeout (raw (page m)) (clearTimeout (handler m) m).

(** The loader effect after a render: when its dependencies differ from
    those of the previous render, the loader is called.  The call is
    only logged here, with the dependencies it carries; what a load does
    to the state, at its start and when its request settles, is applied
    by the runs of [PageRuns]. *)
Definition reload_effect (old : St) (m : Machine) : Machine :=
  if decide (deps old = deps (page m)) then m
  else mkMachine (page m) (now m) (timers m) (nextTimer m) (handler m)
         (fired m) (reloads m ++ [deps (page m)]).

(** The effects of one render, in the order the hooks are declared. *)
Definition commit (old : St) (m : Machine) : Machine :=
  reload_effect old (debounce_effect old m).

Definition with_page (st : St) (m : Machine) : Machine :=
  mkMachine st (now m) (timers m) (nextTimer m) (handler m) (fired m) (reloads m).

Definition pending (id : nat) (m : Machine) : bool :=
  bool_decide (Exists (λ t, tid t = id) (timers m)).

(** A due timer runs its callback, unless it was cleared meanwhile. *)
Definition fire (t : Timer) (m : Machine) : Machine :=
  if pending (tid t) m then
    let old := page m in
    commit old
      (mkMachine (publish (captured t) old) (now m)
         (filter (λ x, tid x ≠ tid t) (timers m))
         (nextTimer m) (handler m)
         (fired m ++ [(deadline t, captured t)]) (reloads m))
  else m.

(** [dt] milliseconds pass: the timers that have become due run, oldest
    first. *)
Definition advance (dt : N) (m : Machine) : Machine :=
  let t := (now m + dt)%N in
  let due := filter (λ x, (deadline x ≤ t)%N) (timers m) in
  fold_left (λ acc x, fire x acc) due
    (mkMachine (page m) t (timers m) (nextTimer m) (handler m)
       (fired m) (reloads m)).

(** A raw input event, [dt] milliseconds after the previous event. *)
Definition input (dt : N) (value : string) (m : Machine) : Machine :=
  let m1 := advance dt m in
  commit (page m1) (with_page (onInput value (page m1)) m1).

(** The mount of the component: both effects run once. *)
Definition mount (st : St) : Machine :=
  mkMachine st 0%N [mkTimer 0 delay (raw st)] 1 0 [] [deps st].

End Component.

(** Every input of the burst changes the raw value. *)
Fixpoint changing (prev : string) (vs : list string) : Prop :=
  match vs with
  | [] => True
  | v :: rest => v ≠ prev ∧ changing v rest
  end.

End Debounce.

(** *** The two instances *)

Module UsersDebounce.

Import Async UsersPage.

(** The loader's dependencies: the [useCallback] dependency list of
    [loadUsers]. *)
Definition deps (st : State) : Z * Z * string :=
  (currentPage (pagination st), itemsPerPage (pagination st), debounced st).

(** No command of the synchronous handlers is answered by the world. *)
Definition offline : world Cmd :=
  λ X _ c,
    match c in Cmd X return X with
    | getUsers _ _ _ => Rejected (mkError "offline")
    | deleteUser _ => Rejected (mkError "offline")
    | fetch _ _ => Rejected (mkError "offline")
    | json _ => Rejected (mkError "offline")
    | localStorage_getItem _ => None
    | confirm _ => false
    | _ => tt
    end.

Definition onInput (value : string) (st : State) : State :=
  final (run_handler offline (handleSearch value) st).

Definition publish (value : string) (st : State) : State :=
  final (run_handler offline (call (setDebounced value)) st).

(** [useDebounce(searchTerm, 400)] *)
Definition delay : N := 400.

Abbreviation Machine := (@Debounce.Machine State (Z * Z * string)).

Definition advance : N → Machine → Machine :=
  Debounce.advance searchTerm publish deps delay.

Definition mount : State → Machine :=
  Debounce.mount searchTerm deps delay.

End UsersDebounce.

Module CategoriesDebounce.

Import Async CategoriesPage.

(** The loader effect is keyed on [debouncedSearch], and passes it to
    [loadCategories]. *)
Definition deps (st : State) : string := debouncedSearch st.

Definition offline : world Cmd :=
  λ X _ c,
    match c in Cmd X return X with
    | getCategories _ _ _ => Rejected (mkError "offline")
    | _ => tt
    end.

Definition onInput (value : string) (st : State) : State :=
  final (run_handler offline (handleSearch value) st).

Definition publish (value : string) (st : State) : State :=
  final (run_handler offline (call (setDebouncedSearch value)) st).

(** [setTimeout(..., 500)] *)
Definition delay : N := 500.

Abbreviation Machine := (@Debounce.Machine State string).

Definition advance : N → Machine → Machine :=
  Debounce.advance searchTerm publish deps delay.

Definition mount : State → Machine :=
  Debounce.mount searchTerm deps delay.

End CategoriesDebounce.

(** ** The loader effect of the users page *)

Module UsersEffects.

Import Async UsersPage.

(** A run as seen on the page: the state shown at its end, every
    command issued, and whether the loader effect has come to rest. *)
Record PageRun : Type := mkPageRun {
  shown : State;
  issued : list (event Cmd);
  at_rest : bool
}.

(** [useEffect(() => { loadUsers() }, [loadUsers])]: after a render
    whose [loadUsers] is not the one the effect last ran with, that is
    whose dependencies differ from [ran], the effect calls the new
    [loadUsers]; the state that load leaves is rendered in turn.  [fuel]
    bounds the number of such rounds. *)
Fixpoint loader_effect (fuel : nat) (w : world Cmd) (ran : Z * Z * string)
    (st : State) (tr : list (event Cmd)) : PageRun :=
  if decide (UsersDebounce.deps st = ran) then mkPageRun st tr true
  else
    match fuel with
    | O => mkPageRun st tr false
    | S fuel' =>
        let r := exec effect w (loadUsers st) st tr in
        loader_effect fuel' w (UsersDebounce.deps st) (final r) (log r)
    end.

(** A handler of the render showing [st], run on the page at rest: its
    own run, then the loader effect on what it leaves. *)
Definition on_page {A : Type} (fuel : nat) (w : world Cmd)
    (handler : State → prog Cmd A) (st : State) : PageRun :=
  let r := run_handler w (handler st) st in
  loader_effect fuel w (UsersDebounce.deps st) (final r) (log r).

End UsersEffects.

(** ** Sample data *)

Module Samples.

Import CategoryTree.

Definition no_settings : Settings := mkSettings "" "" "" 0.

Definition node (id : string) (lv : Z) (parent : option string)
    (ch : option (list Category)) : Category :=
  mkCategory id id id "" blueprint lv parent [] no_settings "" "" ch.

(** The list [[A{children:[B,C]}]] of the specification. *)
Definition B : Category := node "B" 1 (Some "A") None.
Definition C : Category := node "C" 1 (Some "A") (Some []).
Definition A : Category := node "A" 0 None (Some [B; C]).

(** A page of the users list other than the first, and a world in which
    every request succeeds. *)
Definition on_page_3 : UsersPage.State :=
  UsersPage.mkState [] false "" "" None true false
    (UsersPage.mkPagination 3 5 120 25).

(** The first page, with the create modal open. *)
Definition creating : UsersPage.State :=
  UsersPage.mkState [] false "" "" None true false
    (UsersPage.mkPagination 1 5 120 25).

Definition page_1_of_5 : UsersPage.UsersResponse :=
  UsersPage.mkUsersResponse [] (UsersPage.mkPagination 1 5 120 25).

Definition page_3_of_5 : UsersPage.UsersResponse :=
  UsersPage.mkUsersResponse [] (UsersPage.mkPagination 3 5 121 25).

Definition online : Async.world UsersPage.Cmd :=
  λ X _ c,
    match c in UsersPage.Cmd X return X with
    | UsersPage.getUsers _ _ _ => Async.Resolved page_3_of_5
    | UsersPage.deleteUser _ => Async.Resolved tt
    | UsersPage.fetch _ _ => Async.Resolved (UsersPage.mkResponse true 0)
    | UsersPage.json _ => Async.Resolved (UsersPage.mkJson None)
    | UsersPage.localStorage_getItem _ => Some "t0k3n"
    | UsersPage.confirm _ => false
    | _ => tt
    end.

(** A user over quota: 300 words used out of 100. *)
Definition over_quota : UsersPage.AdminUser :=
  UsersPage.mkAdminUser "u1" "Bob" "B" "bob@example.org" UsersPage.user
    300%float 100%float "2024-01-01".

Definition alice : UsersPage.CreateUserInput :=
  UsersPage.mkCreateUserInput "Alice" "A" "alice@example.org" UsersPage.user "pw".

End Samples.

(** ** What the categories page shows *)

Module TreeView.

Import CategoryTree.

(** Every node of a forest with its depth, in pre-order. *)
Fixpoint all_rows_cat (lvl : Z) (cat : Category) : list (string * Z) :=
  (_id cat, lvl) ::
  match children cat with
  | Some cs =>
      (fix go (l : list Category) : list (string * Z) :=
         match l with
         | [] => []
         | c :: l' => all_rows_cat (lvl + 1) c ++ go l'
         end) cs
  | None => []
  end.

Fixpoint all_rows (lvl : Z) (cats : list Category) : list (string * Z) :=
  match cats with
  | [] => []
  | c :: l' => all_rows_cat lvl c ++ all_rows lvl l'
  end.

(** The elements of a rendered tree, in document order. *)
Fixpoint elements (e : Element) : list Element :=
  e ::
  match el_children e with
  | Some es =>
      (fix go (l : list Element) : list Element :=
         match l with
         | [] => []
         | x :: l' => elements x ++ go l'
         end) es
  | None => []
  end.

Definition all_elements (es : list Element) : list Element :=
  flat_map elements es.

(** What holds of every element of a tree rendered from level [lvl]
    on: the row is indented exactly when it is below the top level, its
    level is not above [lvl], the chevron points down exactly when the
    children block is there, and a button toggles the row's own id. *)
Definition well_rendered (lvl : Z) (e : Element) : Prop :=
  el_indent e = bool_decide (snd (fst (el_key e)) > 0)%Z
  ∧ (lvl ≤ snd (fst (el_key e)))%Z
  ∧ (is_Some (el_children e) ↔ ∃ id, el_button e = Some (id, ChevronDown))
  ∧ (∀ id ch, el_button e = Some (id, ch) →
       id = fst (fst (el_key e)) ∧ is_Some (el_count e)).

(** The React keys of the children block of an element are pairwise
    distinct. *)
Definition distinct_child_keys (e : Element) : Prop :=
  match el_children e with
  | Some es => NoDup (map el_key es)
  | None => True
  end.

(** The result section of the page: a loading notice, the tree, or the
    empty notice. *)
Inductive Results : Type :=
| LoadingCategories
| Tree (es : list Element)
| NoCategoriesFound.

Definition results (st : CategoriesPage.State) : Results :=
  if CategoriesPage.loading st then LoadingCategories
  else if (0 <? length (CategoriesPage.categories st))%nat
       then Tree (renderCategoryTree (CategoriesPage.expandedCategories st)
                    (CategoriesPage.categories st) 0)
       else NoCategoriesFound.

End TreeView.

(** ** What a run of a users-page handler tells the user *)

Module UsersLog.

Import Async UsersPage.

(** The texts of the [alert] calls of a log. *)
Definition alert_of (e : event Cmd) : option string :=
  match e with
  | Ev c =>
      match c with
      | alert msg => Some msg
      | _ => None
      end
  end.

Definition alerts (tr : list (event Cmd)) : list string :=
  omap alert_of tr.

(** The [console.error] calls of a log. *)
Definition error_of (e : event Cmd) : option (string * Error) :=
  match e with
  | Ev c =>
      match c with
      | console_error msg err => Some (msg, err)
      | _ => None
      end
  end.

Definition errors (tr : list (event Cmd)) : list (string * Error) :=
  omap error_of tr.

End UsersLog.

(** ** The edit modal of the users page *)

Module EditUser.

Import Async UsersPage.

(** [role] as the string the API and the form carry. *)
Definition role_name (r : Role) : string :=
  match r with
  | admin => "admin"
  | user => "user"
  end.

(** The commands of the modal's [onSave]: those of the page, and
    [adminApi.updateUser] with the id and the [Partial<AdminUser>] patch,
    an object keyed by field name. *)
Inductive Cmd : Type → Type :=
| page {X : Type} (c : UsersPage.Cmd X) : Cmd X
| updateUser (userId : string) (patch : gmap string string) : Cmd (outcome unit).

Definition effect (X : Type) (c : Cmd X) (st : State) : State :=
  match c with
  | page c' => UsersPage.effect _ c' st
  | updateUser _ _ => st
  end.

(** A handler of the page, run among the commands of the modal. *)
Fixpoint lift {A : Type} (p : prog UsersPage.Cmd A) : prog Cmd A :=
  match p with
  | Ret a => Ret a
  | Throw e => Throw e
  | Do c k => Do (page c) (λ x, lift (k x))
  end.

Definition run_handler {A : Type} (w : world Cmd) (p : prog Cmd A) (st : State)
    : run Cmd State A :=
  exec effect w p st [].

(** [onSave] of [EditUserModal], as [UsersPage] passes it. *)
Definition onSave (self : State) (selected : AdminUser)
    (updatedUser : gmap string string) : prog Cmd unit :=
  try_catch
    (await (updateUser (_id selected) updatedUser);;
     lift (loadUsers self);;
     call (page (setShowEditModal false));;
     call (page (setSelectedUser None)))
    (λ error, call (page (console_error "Error updating user:" error))).

(** [onClose] of [EditUserModal]. *)
Definition onClose : prog UsersPage.Cmd unit :=
  call (setShowEditModal false);;
  call (setSelectedUser None).

(** [showEditModal && selectedUser && <EditUserModal user={selectedUser}>]:
    the user the modal is open on, if it is open. *)
Definition edit_modal (st : State) : option AdminUser :=
  if showEditModal st then selectedUser st else None.

(** The calls of a log that go to the list endpoint and to the update
    endpoint. *)
Definition reload_of (e : event Cmd) : option (Z * Z * string) :=
  match e with
  | Ev c =>
      match c with
      | page c' => UsersPage.reload_of (Ev c')
      | updateUser _ _ => None
      end
  end.

Definition reloads (tr : list (event Cmd)) : list (Z * Z * string) :=
  omap reload_of tr.

Definition alert_of (e : event Cmd) : option string :=
  match e with
  | Ev c =>
      match c with
      | page c' => match c' with alert msg => Some msg | _ => None end
      | updateUser _ _ => None
      end
  end.

Definition alerts (tr : list (event Cmd)) : list string :=
  omap alert_of tr.

End EditUser.

(** ** The forms of the two modals *)

Module Forms.

Import UsersPage.

(** The draft of a modal: a JavaScript object keyed by field name. *)
Abbreviation Form := (gmap string string).

(** [handleChange]: [setForm((prev) => ({ ...prev, [name]: value }))],
    the same in both modals. *)
Definition handleChange (name value : string) (prev : Form) : Form :=
  <[ name := value ]> prev.

(** The initial draft of [EditUserModal]. *)
Definition edit_form (u : AdminUser) : Form :=
  <[ "firstName" := firstName u ]>
    (<[ "lastName" := lastName u ]>
       (<[ "email" := email u ]>
          (<[ "role" := EditUser.role_name (role u) ]> ∅))).

(** The initial draft of [CreateUserModal]. *)
Definition create_form : Form :=
  <[ "firstName" := "" ]>
    (<[ "lastName" := "" ]>
       (<[ "email" := "" ]>
          (<[ "role" := "user" ]> (<[ "password" := "" ]> ∅)))).

(** A run of change events, each with the name of its input and the
    value typed. *)
Definition changes (evs : list (string * string)) (form : Form) : Form :=
  fold_left (λ f e, handleChange (fst e) (snd e) f) evs form.

(** The last value typed into the input [name], if any. *)
Fixpoint last_typed (name : string) (evs : list (string * string)) : option string :=
  match evs with
  | [] => None
  | (n, v) :: rest =>
      match last_typed name rest with
      | Some w => Some w
      | None => if decide (n = name) then Some v else None
      end
  end.

End Forms.

(** ** Pagination intents *)

Module Intents.

Import Async UsersPage.

(** What the search field and the pagination bar can ask of the page. *)
Inductive Intent : Type :=
| PageChange (p : Z)
| ItemsPerPageChange (n : Z)
| Search (v : string).

Definition dispatch (i : Intent) : prog Cmd unit :=
  match i with
  | PageChange p => handlePageChange p
  | ItemsPerPageChange n => handleItemsPerPageChange n
  | Search v => handleSearch v
  end.


End Intents.

(** ** More sample data *)

Module MoreSamples.

(** A world in which the dialog is confirmed and every request
    succeeds. *)
Definition confirming : Async.world UsersPage.Cmd :=
  λ X _ c,
    match c in UsersPage.Cmd X return X with
    | UsersPage.getUsers _ _ _ => Async.Resolved Samples.page_3_of_5
    | UsersPage.deleteUser _ => Async.Resolved tt
    | UsersPage.fetch _ _ => Async.Resolved (UsersPage.mkResponse true 0)
    | UsersPage.json _ => Async.Resolved (UsersPage.mkJson None)
    | UsersPage.localStorage_getItem _ => Some "t0k3n"
    | UsersPage.confirm _ => true
    | _ => tt
    end.

(** A world in which the register request is answered with a
    failure status and a message. *)
Definition refusing : Async.world UsersPage.Cmd :=
  λ X _ c,
    match c in UsersPage.Cmd X return X with
    | UsersPage.getUsers _ _ _ => Async.Resolved Samples.page_3_of_5
    | UsersPage.deleteUser _ => Async.Rejected (Async.mkError "forbidden")
    | UsersPage.fetch _ _ => Async.Resolved (UsersPage.mkResponse false 0)
    | UsersPage.json _ => Async.Resolved (UsersPage.mkJson (Some "Email already registered"))
    | UsersPage.localStorage_getItem _ => None
    | UsersPage.confirm _ => true
    | _ => tt
    end.

(** A user without quota: 5 words used out of 0. *)
Definition no_quota : UsersPage.AdminUser :=
  UsersPage.mkAdminUser "u2" "Eve" "E" "eve@example.org" UsersPage.user
    5%float 0%float "2024-02-02".

End MoreSamples.

(** ** What the users page shows *)

Module UsersView.

Import UsersPage.

(** [s[0]]: the first character as a string, [undefined] on the empty
    string.  A string is a sequence of 8-bit characters here, so that
    this is the page's [s[0]], a UTF-16 code unit, on ASCII text only;
    what matters below is whether there is one. *)
Definition first_char (s : string) : option string :=
  match s with
  | EmptyString => None
  | String a _ => Some (String a EmptyString)
  end.

(** One row of the table. *)
Record Row : Type := mkRow {
  row_key : string;
  (** [index % 2 === 0]: the white stripe *)
  row_even : bool;
  row_initial : string;
  row_admin_colours : bool;
  row_name : string;
  row_email : string;
  row_role : string;
  row_used : float;
  row_total : float;
  row_width : float;
  row_percent : float;
  row_since : string;
  (** the argument of [onEdit] *)
  row_edit : AdminUser;
  (** the argument of [onDelete] *)
  row_delete : string
}.

Inductive Results : Type :=
| LoadingUsers
| NoUsersFound
| Table (rows : list Row).

Section Render.

(** [String.prototype.toUpperCase] and the locale-dependent
    [formatDate] are taken as given. *)
Variable toUpperCase : string → string.
Variable formatDate : string → string.

(** The [<tr>] of a user; [None] when rendering it throws, which
    [(user.firstName?.[0] || user.email[0]).toUpperCase()] does when
    both strings are empty. *)
Definition render_row (index : nat) (u : AdminUser) : option Row :=
  match (match first_char (firstName u) with
         | Some c => Some c
         | None => first_char (email u)
         end) with
  | Some c =>
      Some (mkRow (_id u) (Nat.even index) (toUpperCase c)
              (match role u with admin => true | user => false end)
              (firstName u +:+ " " +:+ lastName u)
              (email u)
              (toUpperCase (EditUser.role_name (role u)))
              (wordsUsed u) (totalWords u)
              (Usage.usage_width u) (Usage.usage_text u)
              (formatDate (createdAt u))
              u (_id u))
  | None => None
  end.

(** [users.map((user, index) => ...)]: a row that throws takes the
    whole rendering with it. *)
Fixpoint render_rows (index : nat) (us : list AdminUser) : option (list Row) :=
  match us with
  | [] => Some []
  | u :: rest =>
      match render_row index u with
      | Some r =>
          match render_rows (S index) rest with
          | Some rs => Some (r :: rs)
          | None => None
          end
      | None => None
      end
  end.

(** [UserResults]. *)
Definition UserResults (us : list AdminUser) (loading : bool) : option Results :=
  if loading then Some LoadingUsers
  else if (length us =? 0)%nat then Some NoUsersFound
  else match render_rows 0 us with
       | Some rows => Some (Table rows)
       | None => None
       end.

End Render.

(** [!loading && pagination.totalPages > 1 && <Pagination ...>] *)
Definition shows_pagination (st : State) : bool :=
  negb (loading st) && bool_decide (totalPages (pagination st) > 1)%Z.

(** A user whose row cannot be rendered. *)
Definition nameless (u : AdminUser) : Prop :=
  firstName u = "" ∧ email u = "".

End UsersView.

(** ** Runs of the debouncer *)

Module DebounceRuns.

Import Debounce.

(** What happens to a mounted page: a raw input, or time passing, each
    with the time since the previous event. *)
Inductive Event : Type :=
| Input (dt : N) (value : string)
| Wait (dt : N).

Section Component.

Context {St Dep : Type} `{EqDecision Dep}.

Variable raw : St → string.
Variable debounced : St → string.
Variable onInput : string → St → St.
Variable publish : string → St → St.
Variable deps : St → Dep.
Variable delay : N.

Definition step (e : Event) (m : @Machine St Dep) : @Machine St Dep :=
  match e with
  | Input dt value => input raw onInput publish deps delay dt value m
  | Wait dt => advance raw publish deps delay dt m
  end.

Fixpoint run (evs : list Event) (m : @Machine St Dep) : @Machine St Dep :=
  match evs with
  | [] => m
  | e :: rest => run rest (step e m)
  end.

(** The unmount of the component: the cleanup of the debounce effect
    clears the timer it holds. *)
Definition unmount (m : @Machine St Dep) : @Machine St Dep :=
  clearTimeout (handler m) m.

(** No timer is pending and the debounced query is the raw input. *)
Definition caught_up (m : @Machine St Dep) : Prop :=
  timers m = [] ∧ debounced (page m) = raw (page m).

(** One timer is pending: the one the debounce effect holds, for the
    current raw input, due no later than [delay] from now. *)
Definition one_pending (m : @Machine St Dep) : Prop :=
  ∃ d, timers m = [mkTimer (handler m) d (raw (page m))] ∧ (d ≤ now m + delay)%N.

Definition in_step (m : @Machine St Dep) : Prop :=
  caught_up m ∨ one_pending m.

(** No two neighbours of a list are equal. *)
Fixpoint no_repeats (l : list Dep) : Prop :=
  match l with
  | x :: rest =>
      match rest with
      | y :: _ => x ≠ y ∧ no_repeats rest
      | [] => True
      end
  | [] => True
  end.

(** The loader was called, last for the dependencies in force, and
    never twice in a row with the same ones. *)
Definition loads_current (m : @Machine St Dep) : Prop :=
  last (reloads m) = Some (deps (page m)) ∧ no_repeats (reloads m).

End Component.

(** The two pages, from their mount on. *)
Definition categories_after (evs : list Event) (st : CategoriesPage.State)
    : CategoriesDebounce.Machine :=
  run CategoriesPage.searchTerm CategoriesDebounce.onInput
    CategoriesDebounce.publish CategoriesDebounce.deps CategoriesDebounce.delay
    evs (CategoriesDebounce.mount st).

Definition users_after (evs : list Event) (st : UsersPage.State)
    : UsersDebounce.Machine :=
  run UsersPage.searchTerm UsersDebounce.onInput
    UsersDebounce.publish UsersDebounce.deps UsersDebounce.delay
    evs (UsersDebounce.mount st).

End DebounceRuns.

(** ** Runs of the two pages, with the answers of their loads

    On the page a loader call only starts a request; its answer comes
    later and is stored, and what it stores is seen by the effects of
    the next render.  The runs below add to the debouncer's events the
    answers of the loads and the other handlers of the page. *)

Module PageRuns.

Import Debounce.

(** What happens to a mounted page: a raw input [dt] milliseconds
    after the previous event, time passing, the answer of a load
    arriving, or another handler of the page running. *)
Inductive Event (Resp Action : Type) : Type :=
| Input (dt : N) (value : string)
| Wait (dt : N)
| Answer (r : Resp)
| Act (a : Action).
Arguments Input {Resp Action} dt value.
Arguments Wait {Resp Action} dt.
Arguments Answer {Resp Action} r.
Arguments Act {Resp Action} a.

Section Component.

Context {St Dep Resp Action : Type} `{EqDecision Dep}.

Variable raw : St → string.
Variable onInput : string → St → St.
Variable publish : string → St → St.
Variable deps : St → Dep.
Variable delay : N.
(** What a loader call does to the state before its request is out. *)
Variable issue : St → St.
(** What a loader call does to the state once its request has settled. *)
Variable receive : Resp → St → St.
(** The handlers of the page other than the search field's. *)
Variable act : Action → St → St.

(** A state change and the render that follows it. *)
Definition update (f : St → St) (m : @Machine St Dep) : @Machine St Dep :=
  commit raw deps delay (page m) (with_page (f (page m)) m).

(** The loader calls made since [before] have run up to their request. *)
Definition started (before after : @Machine St Dep) : @Machine St Dep :=
  if decide (length (reloads after) = length (reloads before)) then after
  else with_page (issue (page after)) after.

Definition step (e : Event Resp Action) (m : @Machine St Dep) : @Machine St Dep :=
  started m
    match e with
    | Input dt value => input raw onInput publish deps delay dt value m
    | Wait dt => advance raw publish deps delay dt m
    | Answer r => update (receive r) m
    | Act a => update (act a) m
    end.

Fixpoint run (evs : list (Event Resp Action)) (m : @Machine St Dep)
    : @Machine St Dep :=
  match evs with
  | [] => m
  | e :: rest => run rest (step e m)
  end.

(** The mount: both effects run once, the loader up to its request. *)
Definition mount (st : St) : @Machine St Dep :=
  with_page (issue st) (Debounce.mount raw deps delay st).

(** At most one timer is pending: the one the debounce effect holds,
    for the current raw input. *)
Definition tidy (m : @Machine St Dep) : Prop :=
  timers m = [] ∨ ∃ d, timers m = [mkTimer (handler m) d (raw (page m))].

(** [key d st]: in [st] the loader's dependencies are those of the
    debounced query [d], the page and the page size being as the search
    field leaves them. *)
Variable key : string → St → Prop.

(** The timer of the input made at time [t] is pending and not yet due;
    the query published is still [d0]. *)
Definition waiting (m : @Machine St Dep) (v d0 : string) (t : N) : Prop :=
  timers m = [mkTimer (handler m) (t + delay) v] ∧ raw (page m) = v
  ∧ key d0 (page m) ∧ (t ≤ now m)%N ∧ (now m < t + delay)%N.

(** No timer is pending and the raw input [v] is the query published. *)
Definition settled (m : @Machine St Dep) (v : string) : Prop :=
  timers m = [] ∧ raw (page m) = v ∧ key v (page m).

End Component.

Section Events.

Context {Resp Action : Type}.

(** The values typed, in order. *)
Fixpoint typed_values (evs : list (Event Resp Action)) : list string :=
  match evs with
  | [] => []
  | Input _ v :: rest => v :: typed_values rest
  | _ :: rest => typed_values rest
  end.

(** The answers that arrive, in order. *)
Fixpoint answers (evs : list (Event Resp Action)) : list Resp :=
  match evs with
  | [] => []
  | Answer r :: rest => r :: answers rest
  | _ :: rest => answers rest
  end.

(** The time since the last input, at the end of the events; [since]
    is that time at their start. *)
Fixpoint idle_time (since : N) (evs : list (Event Resp Action)) : N :=
  match evs with
  | [] => since
  | Input _ _ :: rest => idle_time 0 rest
  | Wait dt :: rest => idle_time (since + dt) rest
  | _ :: rest => idle_time since rest
  end.

(** Every input comes less than [delay] after the input before it. *)
Fixpoint rapid_events (delay since : N) (evs : list (Event Resp Action)) : Prop :=
  match evs with
  | [] => True
  | Input dt _ :: rest => (since + dt < delay)%N ∧ rapid_events delay 0 rest
  | Wait dt :: rest => rapid_events delay (since + dt) rest
  | _ :: rest => rapid_events delay since rest
  end.

(** The other handlers that run, in order. *)
Fixpoint acts (evs : list (Event Resp Action)) : list Action :=
  match evs with
  | [] => []
  | Act a :: rest => a :: acts rest
  | _ :: rest => acts rest
  end.

End Events.

End PageRuns.

(** *** The two pages *)

Module UsersRuns.

Import Async UsersPage.

(** The pagination controls. *)
Inductive Action : Type :=
| PageChange (page : Z)
| ItemsPerPageChange (perPage : Z).

Definition act (a : Action) (st : State) : State :=
  final (run_handler UsersDebounce.offline
           match a with
           | PageChange page => handlePageChange page
           | ItemsPerPageChange perPage => handleItemsPerPageChange perPage
           end st).

(** [loadUsers] up to its request. *)
Definition issue (st : State) : State :=
  final (run_handler UsersDebounce.offline (call (setLoading true)) st).

(** A world in which the list request settles as [o]. *)
Definition settling (o : outcome UsersResponse) : world Cmd :=
  λ X _ c,
    match c in Cmd X return X with
    | getUsers _ _ _ => o
    | deleteUser _ => Rejected (mkError "offline")
    | fetch _ _ => Rejected (mkError "offline")
    | json _ => Rejected (mkError "offline")
    | localStorage_getItem _ => None
    | confirm _ => false
    | _ => tt
    end.

(** What a [loadUsers] leaves once its request has settled as [o]:
    the list and the pagination of the answer when it resolved, and in
    any case the loading flag off. *)
Definition receive (o : outcome UsersResponse) (st : State) : State :=
  final (run_handler (settling o) (loadUsers st) st).

Abbreviation Event := (PageRuns.Event (outcome UsersResponse) Action).

Definition step : Event → UsersDebounce.Machine → UsersDebounce.Machine :=
  PageRuns.step searchTerm UsersDebounce.onInput UsersDebounce.publish
    UsersDebounce.deps UsersDebounce.delay issue receive act.

Definition run : list Event → UsersDebounce.Machine → UsersDebounce.Machine :=
  PageRuns.run searchTerm UsersDebounce.onInput UsersDebounce.publish
    UsersDebounce.deps UsersDebounce.delay issue receive act.

Definition mount : State → UsersDebounce.Machine :=
  PageRuns.mount searchTerm UsersDebounce.deps UsersDebounce.delay issue.

(** The answer leaves the page and the page size shown as they are: the
    request failed, or its answer carries that page and page size. *)
Definition keeps_page (page perPage : Z) (o : outcome UsersResponse) : Prop :=
  match o with
  | Resolved response =>
      currentPage (response_pagination response) = page
      ∧ itemsPerPage (response_pagination response) = perPage
  | Rejected _ => True
  end.

(** The control leaves the page and the page size shown as they are. *)
Definition keeps_page_click (page perPage : Z) (a : Action) : Prop :=
  match a with
  | PageChange p => p = page
  | ItemsPerPageChange n => page = 1%Z ∧ n = perPage
  end.

End UsersRuns.

Module CategoriesRuns.

Import Async CategoriesPage.

(** The tree controls and the edit button. *)
Inductive Action : Type :=
| ExpandAll
| CollapseAll
| Toggle (categoryId : string)
| Edit (category : CategoryTree.Category).

Definition act (a : Action) (st : State) : State :=
  final (run_handler CategoriesDebounce.offline
           match a with
           | ExpandAll => onExpandAll st
           | CollapseAll => onCollapseAll st
           | Toggle categoryId => onToggle st categoryId
           | Edit category => handleEditCategory category
           end st).

(** [loadCategories] up to its request. *)
Definition issue (st : State) : State :=
  final (run_handler CategoriesDebounce.offline (call (setLoading true)) st).

(** A world in which the list request settles as [o]. *)
Definition settling (o : outcome CategoriesResponse) : world Cmd :=
  λ X _ c,
    match c in Cmd X return X with
    | getCategories _ _ _ => o
    | _ => tt
    end.

(** What a [loadCategories] leaves once its request has settled. *)
Definition receive (o : outcome CategoriesResponse) (st : State) : State :=
  final (run_handler (settling o) (loadCategories (debouncedSearch st)) st).

Abbreviation Event := (PageRuns.Event (outcome CategoriesResponse) Action).

Definition step : Event → CategoriesDebounce.Machine → CategoriesDebounce.Machine :=
  PageRuns.step searchTerm CategoriesDebounce.onInput CategoriesDebounce.publish
    CategoriesDebounce.deps CategoriesDebounce.delay issue receive act.

Definition run
    : list Event → CategoriesDebounce.Machine → CategoriesDebounce.Machine :=
  PageRuns.run searchTerm CategoriesDebounce.onInput CategoriesDebounce.publish
    CategoriesDebounce.deps CategoriesDebounce.delay issue receive act.

Definition mount : State → CategoriesDebounce.Machine :=
  PageRuns.mount searchTerm CategoriesDebounce.deps CategoriesDebounce.delay issue.

End CategoriesRuns.

(** * Properties *)

(** ** The category tree and its expansion set *)

Module CategoryTreeFacts.

Import CategoryTree.

(** Induction on a category, with the property available for all its
    children. *)
Lemma Category_children_ind (P : Category → Prop) :
  (∀ c, Forall P (child_list c) → P c) → ∀ c, P c.
Proof.
  intros step. fix IH 1. intros c. apply step.
  destruct c as [i t a d ty lv p f s ca ua ch].
  unfold child_list; simpl.
  destruct ch as [cs|]; [|constructor].
  revert cs. fix IHl 1. intros [|x cs]; constructor.
  - apply IH.
  - apply IHl.
Qed.

Lemma has_children_child_list c :
  has_children c = false → child_list c = [] ∨ children c = None.
Proof.
  unfold has_children, child_list.
  destruct (children c) as [[|x l]|]; intros; try discriminate; auto.
Qed.

Lemma preorder_cat_unfold c : preorder_cat c = c :: preorder (child_list c).
Proof.
  destruct c as [i t a d ty lv p f s ca ua ch].
  unfold child_list; simpl. f_equal.
  destruct ch as [cs|]; [|reflexivity].
  induction cs as [|x cs IH]; [reflexivity|].
  simpl. now rewrite IH.
Qed.

Lemma addOrder_cat_unfold c :
  addOrder_cat c =
  if has_children c then _id c :: addOrder (child_list c) else [].
Proof.
  destruct c as [i t a d ty lv p f s ca ua ch].
  unfold has_children, child_list; simpl.
  destruct ch as [[|y cs]|]; reflexivity.
Qed.

Lemma collectIds_cat_unfold c acc :
  collectIds_cat c acc =
  if has_children c then collectIds (child_list c) ({[ _id c ]} ∪ acc) else acc.
Proof.
  destruct c as [i t a d ty lv p f s ca ua ch].
  unfold has_children, child_list; simpl.
  destruct ch as [[|y cs]|]; reflexivity.
Qed.

Lemma parent_ids_app l1 l2 : parent_ids (l1 ++ l2) = parent_ids l1 ++ parent_ids l2.
Proof.
  unfold parent_ids.
  assert (H : ∀ a b, preorder (a ++ b) = preorder a ++ preorder b).
  { intros a b. induction a as [|x a IH]; [reflexivity|].
    simpl. now rewrite IH, app_assoc. }
  now rewrite H, filter_app, map_app.
Qed.

Lemma parent_ids_cons c l :
  parent_ids (c :: l) =
  (if has_children c then _id c :: parent_ids (child_list c) else []) ++ parent_ids l.
Proof.
  change (c :: l) with ([c] ++ l). rewrite parent_ids_app. f_equal.
  unfold parent_ids. simpl. rewrite app_nil_r, preorder_cat_unfold.
  rewrite filter_cons.
  destruct (has_children c) eqn:Hc.
  - rewrite decide_True by reflexivity. reflexivity.
  - rewrite decide_False by discriminate.
    destruct (has_children_child_list c Hc) as [E|E].
    + now rewrite E.
    + unfold child_list. now rewrite E.
Qed.

(** The [add] calls of [collectIds] come in pre-order, one for every
    node with children. *)
Lemma addOrder_preorder cats : addOrder cats = parent_ids cats.
Proof.
  assert (Hcat : ∀ c, addOrder [c] = parent_ids [c]).
  { induction c as [c IH] using Category_children_ind.
    simpl. rewrite app_nil_r, addOrder_cat_unfold, parent_ids_cons.
    unfold parent_ids at 2. simpl. rewrite app_nil_r.
    destruct (has_children c); [|reflexivity]. f_equal.
    induction IH as [|x l Hx _ IHl]; [reflexivity|].
    change (x :: l) with ([x] ++ l). rewrite parent_ids_app, <- IHl, <- Hx.
    simpl. now rewrite app_nil_r. }
  induction cats as [|c l IH]; [reflexivity|].
  change (c :: l) with ([c] ++ l) at 2. rewrite parent_ids_app, <- IH, <- Hcat.
  simpl. now rewrite app_nil_r.
Qed.

(** The set [collectIds] builds is the set of the ids it adds, on top
    of what the set held. *)
Lemma collectIds_addOrder cats acc :
  collectIds cats acc = list_to_set (addOrder cats) ∪ acc.
Proof.
  assert (Hcat : ∀ c acc, collectIds_cat c acc = list_to_set (addOrder_cat c) ∪ acc).
  { induction c as [c IH] using Category_children_ind. intros acc0.
    rewrite collectIds_cat_unfold, addOrder_cat_unfold.
    destruct (has_children c); [|set_solver].
    assert (Hl : ∀ a, collectIds (child_list c) a
                      = list_to_set (addOrder (child_list c)) ∪ a).
    { induction IH as [|x l Hx _ IHl]; intros a; simpl; [set_solver|].
      rewrite IHl, Hx, list_to_set_app_L. set_solver. }
    rewrite Hl. simpl. set_solver. }
  revert acc. induction cats as [|c l IH]; intros acc; simpl; [set_solver|].
  rewrite IH, Hcat, list_to_set_app_L. set_solver.
Qed.

Lemma elem_of_parent_ids id cats :
  id ∈ parent_ids cats ↔
  ∃ c, c ∈ preorder cats ∧ has_children c = true ∧ _id c = id.
Proof.
  unfold parent_ids. rewrite list_elem_of_fmap. split.
  - intros (c & -> & Hc). apply list_elem_of_filter in Hc as [Hc Hin]. eauto.
  - intros (c & Hin & Hc & <-). exists c. split; [reflexivity|].
    apply list_elem_of_filter. auto.
Qed.

Lemma elem_of_toggleExpanded x id (S : ExpansionSet) :
  x ∈ toggleExpanded id S ↔ (x = id ∧ id ∉ S) ∨ (x ≠ id ∧ x ∈ S).
Proof.
  unfold toggleExpanded. case_bool_decide as Hin.
  - rewrite elem_of_difference, elem_of_singleton. split.
    + intros [? ?]. right. auto.
    + intros [[-> ?]|[? ?]]; [contradiction|auto].
  - rewrite elem_of_union, elem_of_singleton. split.
    + intros [->|?]; [left; auto|]. right. split; [|assumption].
      intros ->. contradiction.
    + intros [[-> ?]|[? ?]]; auto.
Qed.

Lemma toggleExpanded_involutive id (S : ExpansionSet) :
  toggleExpanded id (toggleExpanded id S) = S.
Proof.
  apply set_eq. intros x. rewrite !elem_of_toggleExpanded.
  destruct (decide (x = id)) as [->|Hne]; destruct (decide (id ∈ S)); tauto.
Qed.

Lemma renderCategory_children S lvl i c :
  el_children (renderCategory S lvl i c) =
  if has_children c && bool_decide (_id c ∈ S)
  then Some (renderList S (lvl + 1) (child_list c) 0)
  else None.
Proof.
  destruct c as [id t a d ty lv p f s ca ua ch].
  unfold has_children, child_list; simpl.
  destruct ch as [[|y cs]|]; try reflexivity. simpl.
  destruct (bool_decide (id ∈ S)); [|reflexivity]. do 2 f_equal.
  generalize 1%nat.
  induction cs as [|x l IH]; intros n; [reflexivity|].
  simpl. now rewrite IH.
Qed.

Lemma renderCategory_key S lvl i c :
  el_key (renderCategory S lvl i c) = (_id c, lvl, i).
Proof. destruct c; reflexivity. Qed.

Lemma visible_unfold e :
  visible e =
  (fst (fst (el_key e)), snd (fst (el_key e))) ::
  match el_children e with
  | Some es => visible_rows es
  | None => []
  end.
Proof.
  destruct e as [k ind b t a ty lv cnt [es|]]; reflexivity.
Qed.

(** C4. For every category forest and every prior expansion set,
    [expandAllCategories] replaces the set with exactly the ids of the
    nodes that have at least one child: the ids are added in pre-order,
    the resulting set is the set of those ids, and an id is in it if and
    only if some node of the forest with children carries it (so a
    leaf's id is there only when a node with children shares it).
    [collapseAllCategories] replaces the set with the empty set whatever
    it was, hence expanding all and then collapsing all leaves the set
    empty. *)
Theorem expandAll_then_collapseAll (cats : list Category) (prior : ExpansionSet) :
  addOrder cats = parent_ids cats
  ∧ expandAllCategories cats prior = list_to_set (parent_ids cats)
  ∧ (∀ id, id ∈ expandAllCategories cats prior ↔
           ∃ c, c ∈ preorder cats ∧ has_children c = true ∧ _id c = id)
  ∧ collapseAllCategories prior = ∅
  ∧ collapseAllCategories (expandAllCategories cats prior) = ∅.
Proof.
  assert (E : expandAllCategories cats prior = list_to_set (parent_ids cats)).
  { unfold expandAllCategories.
    rewrite collectIds_addOrder, addOrder_preorder. set_solver. }
  split; [apply addOrder_preorder|].
  split; [exact E|].
  split; [|split; reflexivity].
  intros id. rewrite E, elem_of_list_to_set. apply elem_of_parent_ids.
Qed.

(** C5. [toggleExpanded id] flips the membership of [id] and of no
    other id.  The children block of a category is rendered exactly when
    the category has children and its id is in the expansion set, and it
    is then the rendering of its children one level deeper.  So once a
    parent is toggled out of the set only its own row is on screen,
    while every other id, those of its descendants included, keeps its
    membership; toggling the parent again gives back the set as it was,
    and with it the same rendering. *)
Theorem toggle_flips_one_id (id : string) (S : ExpansionSet) :
  (id ∈ toggleExpanded id S ↔ id ∉ S)
  ∧ (∀ x, x ≠ id → (x ∈ toggleExpanded id S ↔ x ∈ S))
  ∧ (∀ lvl i c, is_Some (el_children (renderCategory S lvl i c)) ↔
                has_children c = true ∧ _id c ∈ S)
  ∧ (∀ lvl i c, has_children c = true → _id c ∈ S →
       el_children (renderCategory S lvl i c)
       = Some (renderCategoryTree S (child_list c) (lvl + 1)))
  ∧ (∀ lvl i c, _id c = id → id ∈ S →
       visible (renderCategory (toggleExpanded id S) lvl i c) = [(id, lvl)])
  ∧ toggleExpanded id (toggleExpanded id S) = S
  ∧ (∀ lvl cats,
       renderCategoryTree (toggleExpanded id (toggleExpanded id S)) cats lvl
       = renderCategoryTree S cats lvl).
Proof.
  split; [|split; [|split; [|split; [|split; [|split]]]]].
  - rewrite elem_of_toggleExpanded. tauto.
  - intros x Hne. rewrite elem_of_toggleExpanded. tauto.
  - intros lvl i c. rewrite renderCategory_children.
    destruct (has_children c); simpl.
    + case_bool_decide; split.
      * auto.
      * intros _. eexists; reflexivity.
      * intros [? H0]. discriminate H0.
      * tauto.
    + split; [intros [? H0]; discriminate H0 | intros [H0 _]; discriminate H0].
  - intros lvl i c Hc Hin. rewrite renderCategory_children, Hc. simpl.
    now rewrite bool_decide_eq_true_2.
  - intros lvl i c <- Hin. rewrite visible_unfold, renderCategory_children.
    rewrite (bool_decide_eq_false_2 (_id c ∈ toggleExpanded (_id c) S)).
    + rewrite andb_false_r, renderCategory_key. reflexivity.
    + rewrite elem_of_toggleExpanded. tauto.
  - apply toggleExpanded_involutive.
  - intros lvl cats. now rewrite toggleExpanded_involutive.
Qed.

(** The walk-through of the specification on [[A{children:[B,C]}]]:
    only A at first; B and C one level down after toggling A; only A
    after collapsing all; B and C again after toggling A once more. *)
Example walk_through :
  let S0 : ExpansionSet := ∅ in
  let S1 := toggleExpanded "A" S0 in
  let S2 := collapseAllCategories S1 in
  let S3 := toggleExpanded "A" S2 in
  let rows S := visible_rows (renderCategoryTree S [Samples.A] 0) in
  rows S0 = [("A", 0%Z)]
  ∧ rows S1 = [("A", 0%Z); ("B", 1%Z); ("C", 1%Z)]
  ∧ rows S2 = [("A", 0%Z)]
  ∧ rows S3 = [("A", 0%Z); ("B", 1%Z); ("C", 1%Z)].
Proof. vm_compute. auto. Qed.

(** C9. For a category without children no expand/collapse button is
    rendered, and the button is the only place [toggleExpanded] is
    called from, so toggling the leaf through its element leaves every
    expansion set as it is; nor does the element show a children block,
    and what is rendered for it does not depend on whether its id is in
    the expansion set. *)
Theorem leaf_has_no_toggle_control (c : Category) (S : ExpansionSet)
    (lvl : Z) (i : nat) :
  has_children c = false →
  el_button (renderCategory S lvl i c) = None
  ∧ (∀ S', click_control (renderCategory S lvl i c) S' = S')
  ∧ el_children (renderCategory S lvl i c) = None
  ∧ renderCategory (toggleExpanded (_id c) S) lvl i c = renderCategory S lvl i c.
Proof.
  intros Hleaf.
  assert (Hb : ∀ S0, el_button (renderCategory S0 lvl i c) = None).
  { intros S0. destruct c as [id t a d ty lv p f s ca ua ch].
    unfold has_children in *. simpl in *.
    destruct ch as [[|y cs]|]; try discriminate; reflexivity. }
  split; [apply Hb|]. split; [|split].
  - intros S'. unfold click_control. now rewrite Hb.
  - rewrite renderCategory_children, Hleaf. reflexivity.
  - destruct c as [id t a d ty lv p f s ca ua ch].
    unfold has_children in *. simpl in *.
    destruct ch as [[|y cs]|]; try discriminate; reflexivity.
Qed.

Lemma leaf_has_no_toggle_control_witness :
  has_children Samples.B = false
  ∧ el_button (renderCategory ∅ 1 0 Samples.B) = None.
Proof.
  split; [reflexivity|].
  apply (leaf_has_no_toggle_control Samples.B ∅ 1 0). reflexivity.
Defined.

End CategoryTreeFacts.

(** ** The data loaders *)

Module LoaderFacts.

Import Async.

(** Symbolic execution of a handler: unfold until the run is stuck on
    an answer of the world. *)
Ltac run_steps :=
  unfold UsersPage.run_handler, CategoriesPage.run_handler,
         UsersPage.loadUsers, CategoriesPage.loadCategories,
         call, await, mbind, mret, prog_bind, prog_ret;
  cbn [exec bind try_catch try_finally length app final log result
       UsersPage.effect CategoriesPage.effect];
  repeat match goal with
         | |- context [?w unit ?n ?c] => is_var w; destruct (w unit n c)
         end.

(** C2. When the request of a load is rejected, the run of [loadUsers]
    leaves [users] and [pagination] as they were, and the run of
    [loadCategories] leaves [categories] as it was; all that happens is
    [setLoading(true)], the request, one [console.error] with the
    error, and [setLoading(false)], after which the loading flag is
    off and the loader returns normally. *)
Theorem load_failure_keeps_list
    (wu : world UsersPage.Cmd) (self st : UsersPage.State)
    (wc : world CategoriesPage.Cmd) (search : string) (sc : CategoriesPage.State)
    (e : Error) :
  let request :=
    UsersPage.getUsers (UsersPage.currentPage (UsersPage.pagination self))
      (UsersPage.itemsPerPage (UsersPage.pagination self))
      (UsersPage.debounced self) in
  wu _ 1%nat request = Rejected e →
  wc _ 1%nat (CategoriesPage.getCategories 1 25 search) = Rejected e →
  let ru := UsersPage.run_handler wu (UsersPage.loadUsers self) st in
  let rc := CategoriesPage.run_handler wc (CategoriesPage.loadCategories search) sc in
  (UsersPage.users (final ru) = UsersPage.users st
   ∧ UsersPage.pagination (final ru) = UsersPage.pagination st
   ∧ UsersPage.loading (final ru) = false
   ∧ log ru = [Ev (UsersPage.setLoading true); Ev request;
               Ev (UsersPage.console_error "Error loading users:" e);
               Ev (UsersPage.setLoading false)]
   ∧ result ru = Returned tt)
  ∧ (CategoriesPage.categories (final rc) = CategoriesPage.categories sc
     ∧ CategoriesPage.loading (final rc) = false
     ∧ log rc = [Ev (CategoriesPage.setLoading true);
                 Ev (CategoriesPage.getCategories 1 25 search);
                 Ev (CategoriesPage.console_error "Error loading categories:" e);
                 Ev (CategoriesPage.setLoading false)]
     ∧ result rc = Returned tt).
Proof.
  intros request Hu Hc ru rc. subst ru rc request.
  split.
  - run_steps. rewrite Hu. run_steps. repeat split; reflexivity.
  - run_steps. rewrite Hc. run_steps. repeat split; reflexivity.
Qed.

Lemma load_failure_keeps_list_witness :
  UsersPage.users
    (final (UsersPage.run_handler UsersDebounce.offline
              (UsersPage.loadUsers UsersPage.initial) UsersPage.initial))
  = [].
Proof.
  refine (proj1 (proj1 (load_failure_keeps_list
            UsersDebounce.offline UsersPage.initial UsersPage.initial
            CategoriesDebounce.offline "" CategoriesPage.initial
            (mkError "offline") _ _))); reflexivity.
Defined.

(** C3. Every run of a load first sets the loading flag, then issues
    the request, and ends, whether the request resolves or is rejected,
    by clearing the flag: the run returns normally, its last command is
    [setLoading(false)], and the flag is off afterwards. *)
Theorem load_releases_loading
    (wu : world UsersPage.Cmd) (self st : UsersPage.State)
    (wc : world CategoriesPage.Cmd) (search : string) (sc : CategoriesPage.State) :
  let ru := UsersPage.run_handler wu (UsersPage.loadUsers self) st in
  let rc := CategoriesPage.run_handler wc (CategoriesPage.loadCategories search) sc in
  (∃ mid,
     log ru = Ev (UsersPage.setLoading true)
              :: Ev (UsersPage.getUsers
                       (UsersPage.currentPage (UsersPage.pagination self))
                       (UsersPage.itemsPerPage (UsersPage.pagination self))
                       (UsersPage.debounced self))
              :: mid ++ [Ev (UsersPage.setLoading false)])
  ∧ UsersPage.loading (final ru) = false
  ∧ result ru = Returned tt
  ∧ (∃ mid,
       log rc = Ev (CategoriesPage.setLoading true)
                :: Ev (CategoriesPage.getCategories 1 25 search)
                :: mid ++ [Ev (CategoriesPage.setLoading false)])
  ∧ CategoriesPage.loading (final rc) = false
  ∧ result rc = Returned tt.
Proof.
  intros ru rc. subst ru rc.
  split; [|split; [|split; [|split; [|split]]]].
  all: run_steps.
  - destruct (wu _ 1%nat _) as [r|e]; run_steps.
    + exists [Ev (UsersPage.setUsers (UsersPage.data r));
              Ev (UsersPage.setPagination (λ _, UsersPage.response_pagination r))].
      reflexivity.
    + exists [Ev (UsersPage.console_error "Error loading users:" e)].
      reflexivity.
  - destruct (wu _ 1%nat _) as [r|e]; run_steps; reflexivity.
  - destruct (wu _ 1%nat _) as [r|e]; run_steps; reflexivity.
  - destruct (wc _ 1%nat _) as [r|e]; run_steps.
    + exists [Ev (CategoriesPage.setCategories (CategoriesPage.data r))].
      reflexivity.
    + exists [Ev (CategoriesPage.console_error "Error loading categories:" e)].
      reflexivity.
  - destruct (wc _ 1%nat _) as [r|e]; run_steps; reflexivity.
  - destruct (wc _ 1%nat _) as [r|e]; run_steps; reflexivity.
Qed.

End LoaderFacts.

(** ** Pagination and mutations of the users page *)

Module UsersFacts.

Import Async UsersPage.

Ltac run_steps :=
  unfold run_handler, handleCreateUser, handleDeleteUser, loadUsers,
         handlePageChange, handleItemsPerPageChange, handleSearch,
         call, await, mbind, mret, prog_bind, prog_ret;
  cbn [exec bind try_catch try_finally length app final log result effect
       negb reloads deletes omap reload_of delete_of
       users loading searchTerm debounced selectedUser showCreateModal
       showEditModal pagination currentPage totalPages totalItems itemsPerPage];
  repeat match goal with
         | |- context [?w unit ?n ?c] => is_var w; destruct (w unit n c)
         end.

(** C6. [handleItemsPerPageChange] stores the new page size and puts
    [currentPage] back to 1; [handleSearch] stores the raw input and
    puts [currentPage] back to 1; [handlePageChange p] stores [p],
    whatever integer it is, as [currentPage].  Each leaves the other
    fields of the pagination snapshot as they were. *)
Theorem pagination_handlers (w : world Cmd) (st : State) (n p : Z) (v : string) :
  let s1 := final (run_handler w (handleItemsPerPageChange n) st) in
  let s2 := final (run_handler w (handleSearch v) st) in
  let s3 := final (run_handler w (handlePageChange p) st) in
  pagination s1 = mkPagination 1 (totalPages (pagination st))
                    (totalItems (pagination st)) n
  ∧ (searchTerm s2 = v
     ∧ pagination s2 = mkPagination 1 (totalPages (pagination st))
                         (totalItems (pagination st)) (itemsPerPage (pagination st)))
  ∧ (currentPage (pagination s3) = p
     ∧ totalPages (pagination s3) = totalPages (pagination st)
     ∧ totalItems (pagination s3) = totalItems (pagination st)
     ∧ itemsPerPage (pagination s3) = itemsPerPage (pagination st)
     ∧ users s3 = users st ∧ searchTerm s3 = searchTerm st
     ∧ debounced s3 = debounced st).
Proof.
  intros s1 s2 s3. subst s1 s2 s3. run_steps. repeat split; reflexivity.
Qed.

(** The log of a run extends the log it started from. *)
Lemma exec_log_extends {A : Type} (w : world Cmd) (p : prog Cmd A)
    (st : State) (tr : list (event Cmd)) :
  ∃ rest, log (exec effect w p st tr) = tr ++ rest.
Proof.
  revert st tr. induction p as [a|e|X c k IH]; intros st tr; simpl.
  - exists []. now rewrite app_nil_r.
  - exists []. now rewrite app_nil_r.
  - destruct (IH (w _ (length tr) c) (effect _ c st) (tr ++ [Ev c])) as [rest ->].
    exists (Ev c :: rest). now rewrite <- app_assoc.
Qed.

Lemma loader_effect_extends (fuel : nat) (w : world Cmd) (ran : Z * Z * string)
    (st : State) (tr : list (event Cmd)) :
  ∃ rest, UsersEffects.issued (UsersEffects.loader_effect fuel w ran st tr)
          = tr ++ rest.
Proof.
  revert ran st tr.
  induction fuel as [|fuel IH]; intros ran st tr; cbn [UsersEffects.loader_effect].
  - destruct (decide _); exists []; now rewrite app_nil_r.
  - destruct (decide _); [exists []; now rewrite app_nil_r|].
    destruct (IH (UsersDebounce.deps st)
                (final (exec effect w (loadUsers st) st tr))
                (log (exec effect w (loadUsers st) st tr))) as [rest ->].
    destruct (exec_log_extends w (loadUsers st) st tr) as [rest' ->].
    exists (rest' ++ rest). now rewrite app_assoc.
Qed.

(** A load touches neither the modals nor the search state. *)
Lemma loadUsers_keeps (w : world Cmd) (self st : State) (tr : list (event Cmd)) :
  let st' := final (exec effect w (loadUsers self) st tr) in
  showCreateModal st' = showCreateModal st ∧ debounced st' = debounced st.
Proof.
  run_steps. destruct (w _ _ (getUsers _ _ _)) as [resp|e]; run_steps;
    split; reflexivity.
Qed.

Lemma loader_effect_keeps (fuel : nat) (w : world Cmd) (ran : Z * Z * string)
    (st : State) (tr : list (event Cmd)) :
  showCreateModal (UsersEffects.shown (UsersEffects.loader_effect fuel w ran st tr))
  = showCreateModal st.
Proof.
  revert ran st tr.
  induction fuel as [|fuel IH]; intros ran st tr; cbn [UsersEffects.loader_effect].
  - destruct (decide _); reflexivity.
  - destruct (decide _); [reflexivity|].
    rewrite IH. apply (loadUsers_keeps w st st tr).
Qed.

Lemma reloads_app (tr tr' : list (event Cmd)) :
  reloads (tr ++ tr') = reloads tr ++ reloads tr'.
Proof. apply omap_app. Qed.

(** C7, as stated, fails in two ways.  A create that succeeds while
    page 3 is shown reloads page 3, not the first page.  And a create
    on page 1 whose reload is answered with another page (here 3) is
    followed by a second reload: the answer's pagination is stored, the
    loader's dependencies change, and the loader effect runs again. *)
Lemma create_reloads_page_3_or_twice :
  let create := λ s, handleCreateUser s Samples.alice in
  let p3 := UsersEffects.on_page 1 Samples.online create Samples.on_page_3 in
  let p1 := UsersEffects.on_page 2 Samples.online create Samples.creating in
  (showCreateModal (UsersEffects.shown p3) = false
   ∧ reloads (UsersEffects.issued p3) = [(3%Z, 25%Z, "")]
   ∧ UsersEffects.at_rest p3 = true)
  ∧ (showCreateModal (UsersEffects.shown p1) = false
     ∧ reloads (UsersEffects.issued p1) = [(1%Z, 25%Z, ""); (3%Z, 25%Z, "")]
     ∧ UsersEffects.at_rest p1 = true).
Proof. vm_compute. repeat split; reflexivity. Qed.

(** C7, amended. When the register request resolves with an [ok]
    response whose body parses, [handleCreateUser] closes the create
    modal and itself calls the list endpoint exactly once, with the
    page, page size and debounced query of the render the handler
    belongs to; that page is the first one when [currentPage] is 1, as
    it is when the page mounts.  On the page this is the only reload
    when the call is rejected or its answer carries that same page and
    page size: the loader effect is then at rest.  When the answer
    carries another page or page size, the loader effect calls the list
    endpoint again, with the page and page size of the answer. *)
Theorem create_success_reloads_current_page
    (w : world Cmd) (self st : State) (newUser : CreateUserInput)
    (response : Response) (parsed : Json) (fuel : nat) :
  let init :=
    mkRequestInit "POST"
      [("Content-Type", "application/json");
       ("Authorization",
        "Bearer " +:+ show_item (w _ 0%nat (localStorage_getItem "token")))]
      newUser in
  w _ 1%nat (fetch "http://localhost:5002/api/auth/register" init)
    = Resolved response →
  ok response = true →
  w _ 2%nat (json response) = Resolved parsed →
  let r := run_handler w (handleCreateUser self newUser) st in
  let p := UsersEffects.on_page (S fuel) w (λ s, handleCreateUser s newUser) self in
  showCreateModal (final r) = false
  ∧ reloads (log r) = [(currentPage (pagination self),
                        itemsPerPage (pagination self), debounced self)]
  ∧ (currentPage (pagination self) = 1%Z →
     reloads (log r) = [(1%Z, itemsPerPage (pagination self), debounced self)])
  ∧ result r = Returned tt
  ∧ showCreateModal (UsersEffects.shown p) = false
  ∧ match w _ 4%nat (getUsers (currentPage (pagination self))
                       (itemsPerPage (pagination self)) (debounced self)) with
    | Resolved answer =>
        let shown := response_pagination answer in
        if decide (currentPage shown = currentPage (pagination self)
                   ∧ itemsPerPage shown = itemsPerPage (pagination self))
        then reloads (UsersEffects.issued p)
             = [(currentPage (pagination self), itemsPerPage (pagination self),
                 debounced self)]
             ∧ UsersEffects.at_rest p = true
        else ∃ rest,
             reloads (UsersEffects.issued p)
             = (currentPage (pagination self), itemsPerPage (pagination self),
                debounced self)
               :: (currentPage shown, itemsPerPage shown, debounced self) :: rest
    | Rejected _ =>
        reloads (UsersEffects.issued p)
        = [(currentPage (pagination self), itemsPerPage (pagination self),
            debounced self)]
        ∧ UsersEffects.at_rest p = true
    end.
Proof.
  intros init Hfetch Hok Hjson r p. subst r p init.
  assert (H : ∀ st,
            showCreateModal (final (run_handler w (handleCreateUser self newUser) st)) = false
          ∧ reloads (log (run_handler w (handleCreateUser self newUser) st))
            = [(currentPage (pagination self), itemsPerPage (pagination self),
                debounced self)]
          ∧ result (run_handler w (handleCreateUser self newUser) st) = Returned tt).
  { intros st'. run_steps. rewrite Hfetch. run_steps. rewrite Hok. run_steps.
    rewrite Hjson. run_steps.
    destruct (w _ 4%nat _) as [resp|e]; run_steps; repeat split; reflexivity. }
  destruct (H st) as (H1 & H2 & H3).
  split; [exact H1|]. split; [exact H2|].
  split; [intros Hp; rewrite H2, Hp; reflexivity|]. split; [exact H3|].
  clear H1 H2 H3.
  unfold UsersEffects.on_page.
  split; [rewrite loader_effect_keeps; apply (H self)|].
  run_steps. rewrite Hfetch. run_steps. rewrite Hok. run_steps.
  rewrite Hjson. run_steps.
  destruct (w _ 4%nat _) as [answer|e]; run_steps.
  - cbn zeta. destruct (decide _) as [[Hp Hn]|Hne].
    + cbn [UsersEffects.loader_effect]. unfold UsersDebounce.deps. cbn.
      rewrite Hp, Hn. rewrite decide_True by reflexivity. split; reflexivity.
    + cbn [UsersEffects.loader_effect]. rewrite decide_False.
      2:{ unfold UsersDebounce.deps. cbn. intros E. apply Hne.
          split; congruence. }
      match goal with
      | |- context [UsersEffects.loader_effect ?f ?w ?ran ?s ?t] =>
          destruct (loader_effect_extends f w ran s t) as [rest ->]
      end.
      rewrite reloads_app. run_steps.
      destruct (w (outcome UsersResponse) 11%nat _) as [again|e]; run_steps;
        eexists; reflexivity.
  - cbn [UsersEffects.loader_effect]. rewrite decide_True by reflexivity.
    split; reflexivity.
Qed.

Lemma create_success_reloads_current_page_witness :
  let p := UsersEffects.on_page 1 Samples.online
             (λ s, handleCreateUser s Samples.alice) Samples.on_page_3 in
  showCreateModal Samples.on_page_3 = true
  ∧ showCreateModal (UsersEffects.shown p) = false
  ∧ reloads (UsersEffects.issued p) = [(3%Z, 25%Z, "")]
  ∧ UsersEffects.at_rest p = true.
Proof.
  split; [reflexivity|].
  pose proof (create_success_reloads_current_page Samples.online
                Samples.on_page_3 Samples.on_page_3 Samples.alice
                (mkResponse true 0) (mkJson None) 0 eq_refl eq_refl eq_refl) as H.
  cbv zeta in H. destruct H as (_ & _ & _ & _ & Hm & Hp).
  split; [exact Hm|]. exact Hp.
Defined.

(** C8. When the confirmation dialog is answered with a cancel,
    [handleDeleteUser] does nothing but ask: the delete endpoint and the
    list endpoint are not called and the state is as before.  In every
    run the dialog comes first, and the delete endpoint is called, once
    and with the given id, exactly when the dialog was confirmed. *)
Theorem cancelled_delete_calls_nothing
    (w : world Cmd) (self st : State) (userId : string) :
  let ask := confirm "Are you sure you want to delete this user?" in
  let r := run_handler w (handleDeleteUser self userId) st in
  (w _ 0%nat ask = false →
   log r = [Ev ask] ∧ deletes (log r) = [] ∧ reloads (log r) = []
   ∧ final r = st ∧ result r = Returned tt)
  ∧ (∃ rest, log r = Ev ask :: rest)
  ∧ deletes (log r) = (if w _ 0%nat ask then [userId] else []).
Proof.
  intros ask r. subst r ask.
  split; [|split].
  - intros Hno. run_steps. rewrite Hno. run_steps. repeat split; reflexivity.
  - run_steps. destruct (w _ 0%nat _); run_steps.
    + destruct (w _ 1%nat _) as [[]|e]; run_steps.
      * destruct (w _ 3%nat _) as [resp|e]; run_steps; eexists; reflexivity.
      * eexists; reflexivity.
    + eexists; reflexivity.
  - run_steps. destruct (w _ 0%nat _); run_steps.
    + destruct (w _ 1%nat _) as [[]|e]; run_steps.
      * destruct (w _ 3%nat _) as [resp|e]; run_steps; reflexivity.
      * reflexivity.
    + reflexivity.
Qed.

Lemma cancelled_delete_calls_nothing_witness :
  log (run_handler Samples.online (handleDeleteUser initial "u1") initial)
  = [Ev (confirm "Are you sure you want to delete this user?")].
Proof.
  refine (proj1 (proj1 (cancelled_delete_calls_nothing Samples.online initial
                          initial "u1") _)).
  reflexivity.
Defined.

End UsersFacts.

(** ** The usage bar *)

Module UsageFacts.
Import UsersPage Usage.
Local Open Scope float_scope.

Lemma SFcompare_antisym a b :
  SFcompare b a = match SFcompare a b with
                  | Some c => Some (CompOpp c)
                  | None => None
                  end.
Proof.
  destruct a as [s1|s1| |s1 m1 e1], b as [s2|s2| |s2 m2 e2]; simpl;
    try destruct s1; try destruct s2; try reflexivity.
  - rewrite (Z.compare_antisym e1 e2).
    destruct (e1 ?= e2)%Z; simpl; try reflexivity.
    pose proof (Pos.compare_cont_antisym m1 m2 Eq) as E. simpl in E.
    rewrite <- E. reflexivity.
  - rewrite (Z.compare_antisym e1 e2).
    destruct (e1 ?= e2)%Z; simpl; try reflexivity.
    pose proof (Pos.compare_cont_antisym m1 m2 Eq) as E. simpl in E.
    rewrite <- E. reflexivity.
Qed.

Lemma ltb_asym x y : (x <? y) = true → (y <? x) = false.
Proof.
  rewrite !FloatAxioms.ltb_spec. unfold SFltb.
  rewrite (SFcompare_antisym (Prim2SF x) (Prim2SF y)).
  destruct (SFcompare (Prim2SF x) (Prim2SF y)) as [[]|]; simpl; congruence.
Qed.

Lemma ltb_leb x y : (x <? y) = true → (x <=? y) = true.
Proof.
  rewrite FloatAxioms.ltb_spec, FloatAxioms.leb_spec. unfold SFltb, SFleb.
  destruct (SFcompare (Prim2SF x) (Prim2SF y)) as [[]|]; simpl; congruence.
Qed.

Lemma SFcompare_refl a : a ≠ S754_nan → SFcompare a a = Some Eq.
Proof.
  destruct a as [s|s| |s m e]; simpl; intros H; try congruence.
  - destruct s; reflexivity.
  - rewrite Z.compare_refl.
    assert (E : Pos.compare_cont Eq m m = Eq) by apply Pos.compare_cont_refl.
    destruct s; simpl; now rewrite ?E.
Qed.

Lemma is_nan_false x : is_nan x = false → Prim2SF x ≠ S754_nan.
Proof.
  unfold is_nan. rewrite FloatAxioms.eqb_spec. unfold SFeqb. intros H E.
  rewrite E in H. simpl in H. discriminate.
Qed.

Lemma neither_ltb_leb x y :
  is_nan x = false → is_nan y = false →
  (x <? y) = false → (y <? x) = false → (x <=? y) = true.
Proof.
  intros Hx Hy. apply is_nan_false in Hx. apply is_nan_false in Hy.
  rewrite !FloatAxioms.ltb_spec, FloatAxioms.leb_spec. unfold SFltb, SFleb.
  rewrite (SFcompare_antisym (Prim2SF x) (Prim2SF y)).
  destruct (Prim2SF x) as [s1|s1| |s1 m1 e1], (Prim2SF y) as [s2|s2| |s2 m2 e2];
    try congruence; simpl; try destruct s1; try destruct s2; simpl;
    try congruence.
  all: destruct (e1 ?= e2)%Z; simpl; try congruence;
       destruct (Pos.compare_cont Eq m1 m2); simpl; congruence.
Qed.

(** [Math.min(x, 100)] is never above 100, and is at most 100 unless
    [x] is NaN. *)
Lemma Math_min_cap x :
  (100 <? Math_min x 100) = false
  ∧ (is_nan x = false → (Math_min x 100 <=? 100) = true).
Proof.
  unfold Math_min.
  destruct (is_nan x) eqn:Hnan; simpl.
  - split; [reflexivity|discriminate].
  - change (is_nan 100) with false. simpl.
    destruct (x <? 100) eqn:Hlt.
    + split; [now apply ltb_asym|intros _; now apply ltb_leb].
    + destruct (100 <? x) eqn:Hgt.
      * split; [reflexivity|intros _; reflexivity].
      * destruct (get_sign x).
        -- split; [exact Hgt|intros _; now apply neither_ltb_leb].
        -- split; [reflexivity|intros _; reflexivity].
Qed.


(** [Math.round] on a few numbers: ties go up, also below zero. *)
Example Math_round_examples :
  Math_round 2.5 = 3 ∧ Math_round (-2.5) = -2 ∧ Math_round 0.25 = 0
  ∧ Math_round 149.5 = 150 ∧ Math_round 33.25 = 33
  ∧ Math_round (-0.25) = neg_zero ∧ Math_round infinity = infinity
  ∧ Math_round 0x1p+1000 = 0x1p+1000.
Proof. vm_compute. repeat split; reflexivity. Qed.

End UsageFacts.

(** ** The usage bar and the percentage printed next to it *)

Module UsageTextFacts.

Import UsersPage Usage.

Lemma digits2_pos_bounds (m : positive) :
  (2 ^ (Z.pos (digits2_pos m) - 1) ≤ Z.pos m < 2 ^ Z.pos (digits2_pos m))%Z.
Proof.
  induction m as [m IH|m IH|]; cbn [digits2_pos].
  - rewrite Pos2Z.inj_succ.
    replace (Z.succ (Z.pos (digits2_pos m)) - 1)%Z
      with (Z.succ (Z.pos (digits2_pos m) - 1)) by lia.
    rewrite !Z.pow_succ_r by lia. lia.
  - rewrite Pos2Z.inj_succ.
    replace (Z.succ (Z.pos (digits2_pos m)) - 1)%Z
      with (Z.succ (Z.pos (digits2_pos m) - 1)) by lia.
    rewrite !Z.pow_succ_r by lia. lia.
  - cbn. lia.
Qed.

Lemma digits2_pos_shift (m k : positive) :
  digits2_pos (Pos.iter xO m k) = (digits2_pos m + k)%positive.
Proof.
  induction k as [|k IH] using Pos.peano_ind.
  - cbn. lia.
  - rewrite Pos.iter_succ. cbn [digits2_pos]. rewrite IH. lia.
Qed.

Lemma iter_xO_value (m k : positive) :
  Z.pos (Pos.iter xO m k) = (Z.pos m * 2 ^ Z.pos k)%Z.
Proof.
  induction k as [|k IH] using Pos.peano_ind.
  - cbn. lia.
  - rewrite Pos.iter_succ, Pos2Z.inj_xO, IH, Pos2Z.inj_succ, Z.pow_succ_r by lia. lia.
Qed.

Lemma binary_round_aux_exact (s : bool) (m : positive) (e : Z) :
  digits2_pos m = 53%positive → (-1074 ≤ e ≤ 971)%Z →
  binary_round_aux prec emax s (Z.pos m) e loc_Exact = S754_finite s m e.
Proof.
  intros Hd He. unfold binary_round_aux, shr_fexp.
  cbn [Zdigits2 shr_record_of_loc]. rewrite Hd.
  assert (E : (fexp prec emax (53 + e) - e = 0)%Z).
  { unfold fexp, SpecFloat.emin, prec, emax.
    change IntDef.Z.max with Z.max. lia. }
  rewrite E. cbn [shr shr_m loc_of_shr_record round_nearest_even shr_r shr_s Zdigits2].
  rewrite Hd, E. cbn [shr shr_m].
  replace (e <=? emax - prec)%Z with true; [reflexivity|].
  symmetry. apply Z.leb_le. unfold emax, prec. lia.
Qed.

Lemma binary_round_small (s : bool) (p : positive) :
  (Z.pos p < 2 ^ 53)%Z →
  ∃ m e, binary_round prec emax s p 0 = S754_finite s m e
         ∧ (-52 ≤ e ≤ 0)%Z ∧ (Z.pos m = Z.pos p * 2 ^ (- e))%Z.
Proof.
  intros Hp. unfold binary_round.
  pose proof (digits2_pos_bounds p) as [Hlo Hhi].
  assert (Hd : (Z.pos (digits2_pos p) ≤ 53)%Z).
  { destruct (Z_le_gt_dec (Z.pos (digits2_pos p)) 53) as [H|H]; [exact H|].
    exfalso. assert (2 ^ 53 ≤ 2 ^ (Z.pos (digits2_pos p) - 1))%Z
      by (apply Z.pow_le_mono_r; lia). lia. }
  assert (Ef : fexp prec emax (Z.pos (digits2_pos p) + 0)
               = (Z.pos (digits2_pos p) - 53)%Z).
  { unfold fexp, SpecFloat.emin, prec, emax. change IntDef.Z.max with Z.max. lia. }
  rewrite Ef. unfold shl_align.
  destruct (Z.pos (digits2_pos p) - 53 - 0)%Z as [|k|k] eqn:Ek.
  - exists p, 0%Z. rewrite binary_round_aux_exact by lia.
    repeat split; try lia.
  - lia.
  - exists (Pos.iter xO p k), (Z.pos (digits2_pos p) - 53)%Z.
    rewrite binary_round_aux_exact.
    + repeat split; try lia. rewrite iter_xO_value. f_equal. f_equal. lia.
    + rewrite digits2_pos_shift. lia.
    + lia.
Qed.

Lemma of_integer_exact (z : Z) :
  z ≠ 0%Z → (Z.abs z < 2 ^ 53)%Z →
  ∃ m e, Prim2SF (of_integer z) = S754_finite (z <? 0)%Z m e
         ∧ (-52 ≤ e ≤ 0)%Z ∧ (Z.pos m = Z.abs z * 2 ^ (- e))%Z.
Proof.
  intros Hz Hb. unfold of_integer.
  assert (Hn : ∀ p, (Z.pos p < 2 ^ 53)%Z →
            Prim2SF (of_uint63 (Uint63.of_Z (Z.pos p)))
            = binary_round prec emax false p 0).
  { intros p Hp. rewrite FloatAxioms.of_uint63_spec.
    change (Uint63Axioms.to_Z (Uint63.of_Z (Z.pos p)))
      with (Uint63.to_Z (Uint63.of_Z (Z.pos p))).
    rewrite Uint63.of_Z_spec, Z.mod_small; [reflexivity|].
    split; [lia|]. eapply Z.lt_trans; [exact Hp|]. reflexivity. }
  destruct z as [|p|p]; [congruence| |]; cbn [Z.abs] in *;
    destruct (binary_round_small false p Hb) as (m & e & Hr & He & Hm);
    exists m, e.
  - change (Z.pos p <? 0)%Z with false. cbv iota.
    rewrite Hn, Hr by exact Hb. auto.
  - change (Z.neg p <? 0)%Z with true. cbv iota.
    change (- Z.neg p)%Z with (Z.pos p).
    rewrite FloatAxioms.opp_spec, Hn, Hr by exact Hb. cbn. auto.
Qed.

(** The mantissa of a number has at most 53 bits, and exactly 53 above
    the smallest exponent. *)
Lemma mantissa_bounds (x : float) s m e :
  Prim2SF x = S754_finite s m e →
  (Z.pos m < 2 ^ 53)%Z ∧ ((-1074 < e)%Z → (2 ^ 52 ≤ Z.pos m)%Z).
Proof.
  intros E. pose proof (Prim2SF_valid x) as V. rewrite E in V.
  unfold SpecFloat.valid_binary, bounded, canonical_mantissa in V.
  apply andb_prop in V as [V _]. apply Z.eqb_eq in V.
  unfold fexp, SpecFloat.emin, prec, emax in V.
  change IntDef.Z.max with Z.max in V.
  pose proof (digits2_pos_bounds m) as [Hlo Hhi].
  split.
  - assert (Z.pos (digits2_pos m) ≤ 53)%Z by lia.
    eapply Z.lt_le_trans; [exact Hhi|]. apply Z.pow_le_mono_r; lia.
  - intros He. assert (D : Z.pos (digits2_pos m) = 53%Z) by lia.
    rewrite D in Hlo. exact Hlo.
Qed.

(** [of_integer] is exact on the integers a rounding can give. *)
Lemma of_integer_value (r : Z) :
  r ≠ 0%Z → (Z.abs r < 2 ^ 53)%Z →
  ∃ t, value (of_integer r) = Some t ∧ (t == inject_Z r)%Q.
Proof.
  intros Hr Hb. destruct (of_integer_exact r Hr Hb) as (m & e & E & He & Hm).
  unfold value. rewrite E. cbn zeta.
  assert (Hn : (if (r <? 0)%Z then Z.neg m else Z.pos m) = (r * 2 ^ (- e))%Z).
  { destruct (Z.ltb_spec r 0).
    - rewrite <- Pos2Z.opp_pos, Hm. lia.
    - rewrite Hm. lia. }
  rewrite Hn. eexists. split; [reflexivity|].
  assert (Hp : (0 < 2 ^ (- e))%Z) by (apply Z.pow_pos_nonneg; lia).
  destruct (Z.leb_spec 0 e).
  - assert (e = 0%Z) by lia. subst e.
    change (2 ^ (- 0))%Z with 1%Z. change (2 ^ 0)%Z with 1%Z.
    rewrite !Z.mul_1_r. reflexivity.
  - unfold Qeq. cbn [Qnum Qden inject_Z]. rewrite Z2Pos.id by exact Hp. lia.
Qed.

Lemma round_bounds (n P : Z) :
  (2 ≤ P)%Z → (Z.abs n < 2 ^ 53)%Z →
  let r := ((2 * n + P) / (2 * P))%Z in
  (2 * P * r ≤ 2 * n + P < 2 * P * r + 2 * P)%Z ∧ (Z.abs r < 2 ^ 53)%Z.
Proof.
  intros HP Hn r.
  pose proof (Z.div_mod (2 * n + P) (2 * P) ltac:(lia)) as D.
  pose proof (Z.mod_pos_bound (2 * n + P) (2 * P) ltac:(lia)) as M.
  fold r in D. split; [lia|].
  assert (B : (2 ^ 53 = 9007199254740992)%Z) by reflexivity.
  rewrite B in *.
  assert (H1 : (r < 9007199254740992)%Z).
  { destruct (Z_lt_le_dec r 9007199254740992) as [H|H]; [exact H|].
    exfalso. assert (2 * P * 9007199254740992 ≤ 2 * P * r)%Z by nia. nia. }
  assert (H2 : (-9007199254740992 < r)%Z).
  { destruct (Z_lt_le_dec (-9007199254740992) r) as [H|H]; [exact H|].
    exfalso. assert (2 * P * r ≤ 2 * P * -9007199254740992)%Z by nia. nia. }
  lia.
Qed.

(** [Math.round] gives the integer nearest to its argument, the upper
    one of two that are as near. *)
Lemma Math_round_nearest (x : float) (q : Q) :
  value x = Some q →
  ∃ (r : Z) (t : Q),
    value (Math_round x) = Some t ∧ (t == inject_Z r)%Q
    ∧ (inject_Z r - (1 # 2) <= q)%Q ∧ (q < inject_Z r + (1 # 2))%Q.
Proof.
  unfold value at 1, Math_round.
  destruct (Prim2SF x) as [s|s| |s m e] eqn:E; try discriminate.
  - intros [= <-]. exists 0%Z, 0%Q. unfold value. rewrite E.
    repeat split; try reflexivity; discriminate.
  - cbn zeta. pose proof (mantissa_bounds x s m e E) as [Hm _].
    set (n := if s then Z.neg m else Z.pos m).
    assert (Hn : (Z.abs n < 2 ^ 53)%Z) by (subst n; destruct s; exact Hm).
    destruct (Z.leb_spec 0 e) as [He|He].
    + intros [= <-]. exists (n * 2 ^ e)%Z, (inject_Z (n * 2 ^ e)).
      unfold value. rewrite E. cbn zeta. fold n.
      rewrite (proj2 (Z.leb_le 0 e) He).
      split; [reflexivity|]. split; [reflexivity|].
      unfold Qle, Qlt. cbn. lia.
    + intros [= <-].
      assert (HP : (2 ≤ 2 ^ (- e))%Z).
      { change 2%Z with (2 ^ 1)%Z at 1. apply Z.pow_le_mono_r; lia. }
      replace (2 ^ (- e + 1))%Z with (2 * 2 ^ (- e))%Z
        by (rewrite Z.pow_add_r by lia; lia).
      destruct (round_bounds n (2 ^ (- e)) HP Hn) as [[B1 B2] B3].
      set (P := (2 ^ (- e))%Z) in *.
      set (r := ((2 * n + P) / (2 * P))%Z) in *.
      exists r.
      assert (Hq : (inject_Z r - (1 # 2) <= n # Z.to_pos P)%Q
                   ∧ (n # Z.to_pos P < inject_Z r + (1 # 2))%Q).
      { unfold Qle, Qlt. cbn. rewrite Z2Pos.id by lia. lia. }
      destruct (Z.eqb_spec r 0) as [Hr|Hr].
      * exists 0%Q. rewrite Hr in *. split; [|split; [reflexivity|exact Hq]].
        destruct s; reflexivity.
      * destruct (of_integer_value r Hr B3) as (t & Ht & Et).
        exists t. auto.
Qed.

(** Comparison with a number between 64 and 128, in exact terms. *)
Lemma leb_const_value (c : float) (mc : positive) (x : float) (q : Q) :
  Prim2SF c = S754_finite false mc (-46) →
  (2 ^ 52 ≤ Z.pos mc < 2 ^ 53)%Z →
  value x = Some q →
  (c <=? x)%float = true ↔ (Z.pos mc # 70368744177664 <= q)%Q.
Proof.
  intros Ec Hc. unfold value. rewrite FloatAxioms.leb_spec, Ec.
  assert (B52 : (2 ^ 52 = 4503599627370496)%Z) by reflexivity.
  assert (B53 : (2 ^ 53 = 9007199254740992)%Z) by reflexivity.
  rewrite B52, B53 in Hc.
  destruct (Prim2SF x) as [s|s| |s m e] eqn:E; try discriminate.
  - intros [= <-]. cbn. unfold Qle. cbn. split; [discriminate|lia].
  - cbn zeta. pose proof (mantissa_bounds x s m e E) as [Hm Hnorm].
    rewrite B52 in Hnorm. rewrite B53 in Hm.
    intros [= <-]. unfold SFleb, SFcompare. destruct s.
    + split; [discriminate|]. intros H. exfalso. revert H.
      destruct (Z.leb_spec 0 e) as [He|He]; unfold Qle; cbn [Qnum Qden inject_Z].
      * assert (0 < 2 ^ e)%Z by (apply Z.pow_pos_nonneg; lia). nia.
      * lia.
    + destruct (Z.compare_spec (-46) e) as [He|He|He].
      * subst e. cbn [Z.leb Z.compare]. unfold Qle. cbn [Qnum Qden].
        change (PosDef.Pos.compare_cont Eq mc m) with (mc ?= m)%positive.
        destruct (Pos.compare_spec mc m) as [H|H|H]; split; try reflexivity;
          try discriminate; lia.
      * split; [intros _|reflexivity].
        specialize (Hnorm ltac:(lia)).
        destruct (Z.leb_spec 0 e) as [He'|He']; unfold Qle; cbn [Qnum Qden inject_Z].
        -- assert (1 ≤ 2 ^ e)%Z by (apply (Z.pow_le_mono_r 2 0 e); lia). nia.
        -- assert (0 < 2 ^ (- e))%Z by (apply Z.pow_pos_nonneg; lia).
           assert (2 ^ (- e) ≤ 2 ^ 45)%Z by (apply Z.pow_le_mono_r; lia).
           assert (B45 : (2 ^ 45 = 35184372088832)%Z) by reflexivity.
           rewrite Z2Pos.id by lia. nia.
      * split; [discriminate|]. intros H. exfalso. revert H.
        rewrite (proj2 (Z.leb_gt 0 e)) by lia.
        unfold Qle. cbn [Qnum Qden].
        assert (2 ^ 47 ≤ 2 ^ (- e))%Z by (apply Z.pow_le_mono_r; lia).
        assert (B47 : (2 ^ 47 = 140737488355328)%Z) by reflexivity.
        rewrite Z2Pos.id by lia. nia.
Qed.

Lemma leb_100_value (x : float) (q : Q) :
  value x = Some q → (100 <=? x)%float = true ↔ (100 <= q)%Q.
Proof.
  intros Hq.
  rewrite (leb_const_value 100 7036874417766400 x q eq_refl ltac:(lia) Hq).
  assert (E : (Z.pos 7036874417766400 # 70368744177664 == 100)%Q) by reflexivity.
  now rewrite E.
Qed.

(** A number is below 100 exactly when 100 is not at most it. *)
Lemma ltb_100_value (x : float) (q : Q) :
  value x = Some q → (x <? 100)%float = true ↔ (q < 100)%Q.
Proof.
  intros Hq.
  assert (N : (q < 100)%Q ↔ ¬ (100 <= q)%Q)
    by (split; [apply Qlt_not_le|apply Qnot_le_lt]).
  rewrite N, <- (leb_100_value x q Hq).
  rewrite FloatAxioms.ltb_spec, FloatAxioms.leb_spec. unfold SFltb, SFleb.
  rewrite (UsageFacts.SFcompare_antisym (Prim2SF x) (Prim2SF 100)).
  unfold value in Hq.
  destruct (SFcompare (Prim2SF x) (Prim2SF 100)) as [[]|] eqn:C; cbn;
    try (split; congruence).
  destruct (Prim2SF x); try discriminate; cbn in C; discriminate.
Qed.

Lemma shr_1_nonneg (mrs : shr_record) :
  (0 ≤ shr_m mrs)%Z → (0 ≤ shr_m (shr_1 mrs))%Z.
Proof. destruct mrs as [[|[p|p|]|p] r s]; cbn; lia. Qed.

Lemma iter_shr_1_nonneg (p : positive) (mrs : shr_record) :
  (0 ≤ shr_m mrs)%Z → (0 ≤ shr_m (SpecFloat.iter_pos shr_1 p mrs))%Z.
Proof.
  revert mrs. induction p as [p IH|p IH|]; intros mrs H; cbn [SpecFloat.iter_pos].
  - apply IH, IH. now apply shr_1_nonneg.
  - apply IH, IH. exact H.
  - now apply shr_1_nonneg.
Qed.

Lemma shr_fexp_nonneg (m e : Z) (l : location) :
  (0 ≤ m)%Z → (0 ≤ shr_m (fst (shr_fexp prec emax m e l)))%Z.
Proof.
  intros H. unfold shr_fexp, shr.
  assert (H0 : (0 ≤ shr_m (shr_record_of_loc m l))%Z)
    by (destruct l as [|[]]; exact H).
  destruct (_ - e)%Z; cbn [fst]; try exact H0.
  now apply iter_shr_1_nonneg.
Qed.

Lemma binary_round_aux_not_nan (s : bool) (m e : Z) (l : location) :
  (0 ≤ m)%Z → binary_round_aux prec emax s m e l ≠ S754_nan.
Proof.
  intros H. unfold binary_round_aux.
  pose proof (shr_fexp_nonneg m e l H) as H1.
  destruct (shr_fexp prec emax m e l) as [mrs e']. cbn [fst] in H1.
  assert (H2 : (0 ≤ round_nearest_even (shr_m mrs) (loc_of_shr_record mrs))%Z).
  { unfold round_nearest_even.
    destruct (loc_of_shr_record mrs) as [|[]]; try destruct (IntDef.Z.even _); lia. }
  pose proof (shr_fexp_nonneg _ e' loc_Exact H2) as H3.
  destruct (shr_fexp prec emax _ e' loc_Exact) as [mrs' e'']. cbn [fst] in H3.
  destruct (shr_m mrs'); [discriminate| |lia].
  destruct (Z.leb _ _); discriminate.
Qed.

Lemma not_nan_is_nan (x : float) : Prim2SF x ≠ S754_nan → is_nan x = false.
Proof.
  intros H. unfold is_nan. rewrite FloatAxioms.eqb_spec. unfold SFeqb.
  now rewrite UsageFacts.SFcompare_refl.
Qed.

Local Open Scope float_scope.

Lemma compared_not_nan (x y : float) :
  SFcompare (Prim2SF x) (Prim2SF y) ≠ None → is_nan x = false.
Proof.
  intros H. unfold is_nan. rewrite FloatAxioms.eqb_spec. unfold SFeqb.
  rewrite UsageFacts.SFcompare_refl; [reflexivity|].
  intros E. rewrite E in H. now apply H.
Qed.

Lemma Math_min_below (x : float) : (x <? 100) = true → Math_min x 100 = x.
Proof.
  intros H. unfold Math_min. rewrite H.
  rewrite (compared_not_nan x 100); [reflexivity|].
  rewrite FloatAxioms.ltb_spec in H. unfold SFltb in H.
  destruct (SFcompare _ _); [discriminate|discriminate H].
Qed.

Lemma Math_min_above (x : float) : (100 <=? x) = true → Math_min x 100 = 100.
Proof.
  intros H. unfold Math_min.
  rewrite FloatAxioms.leb_spec in H. unfold SFleb in H.
  assert (Hnan : is_nan x = false).
  { apply (compared_not_nan x 100).
    rewrite (UsageFacts.SFcompare_antisym (Prim2SF 100) (Prim2SF x)).
    destruct (SFcompare (Prim2SF 100) (Prim2SF x)); [discriminate|discriminate H]. }
  rewrite Hnan. change (is_nan 100) with false. cbn [orb].
  rewrite !FloatAxioms.ltb_spec. unfold SFltb.
  rewrite (UsageFacts.SFcompare_antisym (Prim2SF 100) (Prim2SF x)).
  destruct (SFcompare (Prim2SF 100) (Prim2SF x)) as [[]|] eqn:C;
    try discriminate H; cbn; [|reflexivity].
  assert (E : x = 100); [|rewrite E; reflexivity].
  rewrite <- (SF2Prim_Prim2SF x), <- (SF2Prim_Prim2SF 100). f_equal.
  change (Prim2SF 100) with (S754_finite false 7036874417766400 (-46)) in *.
  destruct (Prim2SF x) as [s|s| |s m e]; unfold SFcompare in C; try destruct s;
    try discriminate C.
  destruct (Z.compare_spec (-46) e) as [He|He|He]; try discriminate C.
  injection C as C. apply Pos.compare_eq in C. now subst.
Qed.

Lemma binary_round_aux_not_negative (m e : Z) (l : location) :
  SFltb (binary_round_aux prec emax false m e l) (S754_zero false) = false.
Proof.
  unfold binary_round_aux.
  destruct (shr_fexp prec emax m e l) as [mrs e'].
  destruct (shr_fexp prec emax _ e' loc_Exact) as [mrs' e''].
  destruct (shr_m mrs'); [reflexivity| |reflexivity].
  destruct (Z.leb _ _); reflexivity.
Qed.

(** With a positive quota, a usage that is not below zero gives a
    percentage that is not below zero. *)
Lemma percentage_not_negative (wu tw : float) :
  (wu <? 0) = false → (0 <? tw) = true → (wu / tw * 100 <? 0) = false.
Proof.
  rewrite !FloatAxioms.ltb_spec, FloatAxioms.mul_spec, FloatAxioms.div_spec.
  unfold SF64mul, SF64div.
  change (Prim2SF 0) with (S754_zero false).
  change (Prim2SF 100) with (S754_finite false 7036874417766400 (-46)).
  intros Hwu Htw.
  assert (D : SFltb (SFdiv prec emax (Prim2SF wu) (Prim2SF tw)) (S754_zero false)
              = false).
  { destruct (Prim2SF wu) as [s|s| |s m e], (Prim2SF tw) as [s'|s'| |s' m' e'];
      try destruct s; try destruct s'; try discriminate; try reflexivity.
    cbn [SFdiv xorb].
    destruct (SFdiv_core_binary prec emax (Z.pos m) e (Z.pos m') e') as [[mz ez] lz].
    apply binary_round_aux_not_negative. }
  destruct (SFdiv prec emax (Prim2SF wu) (Prim2SF tw)) as [s|s| |s m e];
    try destruct s; try discriminate; try reflexivity.
  cbn [SFmul xorb]. apply binary_round_aux_not_negative.
Qed.

Lemma Math_min_not_negative (x : float) :
  (x <? 0) = false → (Math_min x 100 <? 0) = false.
Proof.
  intros H. unfold Math_min.
  destruct (is_nan x || is_nan 100); [reflexivity|].
  destruct (x <? 100); [exact H|].
  destruct (100 <? x); [reflexivity|].
  destruct (get_sign x); [exact H|reflexivity].
Qed.

(** With a positive quota, a usage that is a number and not below zero
    gives a percentage that is a number or [+Infinity]. *)
Lemma percentage_is_number (wu tw : float) :
  (0 <=? wu) = true → (wu <? infinity) = true → (0 <? tw) = true →
  is_nan (wu / tw * 100) = false.
Proof.
  intros Hwu Hfin Htw. apply not_nan_is_nan.
  rewrite FloatAxioms.leb_spec in Hwu. rewrite FloatAxioms.ltb_spec in Hfin, Htw.
  rewrite FloatAxioms.mul_spec, FloatAxioms.div_spec. unfold SF64mul, SF64div.
  change (Prim2SF 0) with (S754_zero false) in *.
  change (Prim2SF infinity) with (S754_infinity false) in *.
  change (Prim2SF 100) with (S754_finite false 7036874417766400 (-46)).
  assert (D : SFdiv prec emax (Prim2SF wu) (Prim2SF tw) ≠ S754_nan
              ∧ SFdiv prec emax (Prim2SF wu) (Prim2SF tw) ≠ S754_infinity true).
  { destruct (Prim2SF wu) as [s|s| |s m e], (Prim2SF tw) as [s'|s'| |s' m' e'];
      try destruct s; try destruct s'; try discriminate; cbn [SFdiv xorb];
      try (split; discriminate).
    unfold SFdiv_core_binary.
    set (m1 := match _ with 0%Z => Z.pos m | Z.pos _ => _ | Z.neg _ => 0%Z end).
    assert (H1 : (0 ≤ m1)%Z).
    { subst m1. destruct (_ - _ - _)%Z; try lia.
      change IntDef.Z.shiftl with Z.shiftl. apply Z.shiftl_nonneg. lia. }
    change IntDef.Z.div_eucl with Z.div_eucl.
    pose proof (Z.div_pos m1 (Z.pos m') H1 ltac:(lia)) as Hq.
    unfold Z.div in Hq. destruct (Z.div_eucl m1 (Z.pos m')) as [q r].
    split; [now apply binary_round_aux_not_nan|].
    pose proof (binary_round_aux_not_negative q
                  (IntDef.Z.min
                     (fexp prec emax
                        (Zdigits2 (Z.pos m) + e - (Zdigits2 (Z.pos m') + e')))
                     (e - e'))
                  (new_location (Z.pos m') r)) as Hs.
    intros E. rewrite E in Hs. discriminate Hs. }
  destruct D as [D1 D2].
  destruct (SFdiv prec emax (Prim2SF wu) (Prim2SF tw)) as [s|s| |s m e];
    try congruence; cbn [SFmul]; try discriminate.
  apply binary_round_aux_not_nan. lia.
Qed.
Lemma leb_not_ltb (x y : float) : (x <=? y) = true → (y <? x) = false.
Proof.
  rewrite FloatAxioms.leb_spec, FloatAxioms.ltb_spec. unfold SFleb, SFltb.
  rewrite (UsageFacts.SFcompare_antisym (Prim2SF x) (Prim2SF y)).
  destruct (SFcompare (Prim2SF x) (Prim2SF y)) as [[]|]; cbn; congruence.
Qed.

Lemma not_ltb_leb (x y : float) :
  is_nan x = false → is_nan y = false → (x <? y) = false → (y <=? x) = true.
Proof.
  intros Hx Hy. apply UsageFacts.is_nan_false in Hx, Hy.
  rewrite FloatAxioms.leb_spec, FloatAxioms.ltb_spec. unfold SFleb, SFltb.
  rewrite (UsageFacts.SFcompare_antisym (Prim2SF x) (Prim2SF y)).
  destruct (SFcompare (Prim2SF x) (Prim2SF y)) as [[]|] eqn:C; cbn; try congruence.
  destruct (Prim2SF x), (Prim2SF y); cbn in C; congruence.
Qed.

Lemma Math_min_is_number (x : float) :
  is_nan x = false → is_nan (Math_min x 100) = false.
Proof.
  intros H. unfold Math_min. rewrite H. change (is_nan 100) with false. cbn [orb].
  destruct (x <? 100); [exact H|].
  destruct (100 <? x); [reflexivity|].
  destruct (get_sign x); [exact H|reflexivity].
Qed.

(** C10. For a user with [totalWords > 0] the width of the usage bar is
    [Math.min((wordsUsed / totalWords) * 100, 100)]: the percentage
    itself while that is below 100, and 100 from there on, so never
    above 100, also when [wordsUsed] exceeds [totalWords]; with
    [wordsUsed] not below zero the width is not below zero either, and
    with [wordsUsed] a number from zero on it is a number between 0 and
    100.  The
    number printed next to it is the integer nearest to the percentage,
    the upper one of two that are as near, and it is not capped: for a
    percentage of 100 or more, where the bar stays at 100, it reads 100
    or more, and more than 100 from 100.5 on.  An infinite or undefined
    percentage is printed as it is.  For 300 words used out of 100 the
    bar is at 100 and the text reads 300. *)
Theorem usage_bar_capped (u : AdminUser) :
  (0 <? totalWords u) = true →
  let pct := wordsUsed u / totalWords u * 100 in
  usage_width u = Math_min pct 100
  ∧ (100 <? usage_width u) = false
  ∧ (is_nan pct = false → (usage_width u <=? 100) = true)
  ∧ ((pct <? 100) = true → usage_width u = pct)
  ∧ ((100 <=? pct) = true → usage_width u = 100)
  ∧ ((wordsUsed u <? 0) = false → (usage_width u <? 0) = false)
  ∧ ((0 <=? wordsUsed u) = true → (wordsUsed u <? infinity) = true →
     is_nan (usage_width u) = false
     ∧ (0 <=? usage_width u) = true ∧ (usage_width u <=? 100) = true)
  ∧ (∀ q : Q, value pct = Some q →
       ((pct <? 100) = true ↔ (q < 100)%Q)
       ∧ ((100 <=? pct) = true ↔ (100 <= q)%Q)
       ∧ ∃ (r : Z) (t : Q),
           value (usage_text u) = Some t ∧ (t == inject_Z r)%Q
           ∧ (inject_Z r - (1 # 2) <= q)%Q ∧ (q < inject_Z r + (1 # 2))%Q
           ∧ ((100 <= q)%Q → usage_width u = 100 ∧ (100 ≤ r)%Z)
           ∧ ((100 + (1 # 2) <= q)%Q → (100 < r)%Z))
  ∧ (value pct = None → usage_text u = pct)
  ∧ ∃ v, (0 <? totalWords v) = true
         ∧ (totalWords v <? wordsUsed v) = true
         ∧ usage_width v = 100
         ∧ usage_text v = 300
         ∧ (100 <? usage_text v) = true.
Proof.
  intros Htw pct. unfold usage_width, usage_text. fold pct.
  destruct (UsageFacts.Math_min_cap pct) as [H1 H2].
  split; [reflexivity|]. split; [exact H1|]. split; [exact H2|].
  split; [apply Math_min_below|]. split; [apply Math_min_above|].
  split.
  { intros Hwu. apply Math_min_not_negative.
    now apply percentage_not_negative. }
  split.
  { intros Hwu Hfin.
    pose proof (percentage_is_number _ _ Hwu Hfin Htw) as Hnum. fold pct in Hnum.
    pose proof (Math_min_is_number pct Hnum) as Hmin.
    split; [exact Hmin|]. split; [|exact (H2 Hnum)].
    apply not_ltb_leb; [exact Hmin|reflexivity|].
    apply Math_min_not_negative. apply percentage_not_negative; [|exact Htw].
    now apply leb_not_ltb. }
  split.
  { intros q Hq. split; [now apply ltb_100_value|].
    split; [now apply leb_100_value|].
    destruct (Math_round_nearest pct q Hq) as (r & t & Ht & Et & Lo & Hi).
    exists r, t. split; [exact Ht|]. split; [exact Et|].
    split; [exact Lo|]. split; [exact Hi|]. split.
    - intros Hge. split.
      + apply Math_min_above. now apply (leb_100_value pct q Hq).
      + pose proof (Qle_lt_trans _ _ _ Hge Hi) as L. revert L.
        unfold Qlt. cbn. lia.
    - intros Hge. pose proof (Qle_lt_trans _ _ _ Hge Hi) as L. revert L.
      unfold Qlt. cbn. lia. }
  split.
  { unfold value, Math_round.
    destruct (Prim2SF pct) as [s|s| |s m e]; try discriminate; reflexivity. }
  exists Samples.over_quota. vm_compute. repeat split; reflexivity.
Qed.

Lemma usage_bar_capped_witness :
  (0 <? totalWords Samples.over_quota) = true
  ∧ (wordsUsed Samples.over_quota <? 0) = false
  ∧ usage_width Samples.over_quota = 100
  ∧ (usage_width Samples.over_quota <? 0) = false.
Proof.
  pose proof (usage_bar_capped Samples.over_quota eq_refl) as H.
  cbv zeta in H. destruct H as (_ & _ & _ & _ & Hcap & Hpos & _ & _).
  split; [reflexivity|]. split; [reflexivity|].
  split; [apply Hcap; reflexivity|apply Hpos; reflexivity].
Defined.
End UsageTextFacts.

(** ** What the category tree shows *)

Module TreeViewFacts.

Import CategoryTree TreeView CategoryTreeFacts.

Lemma all_rows_cat_unfold lvl c :
  all_rows_cat lvl c = (_id c, lvl) :: all_rows (lvl + 1) (child_list c).
Proof.
  destruct c as [i t a d ty lv p f s ca ua [cs|]]; [|reflexivity].
  unfold child_list. simpl. f_equal.
  induction cs as [|x l IH]; [reflexivity|].
  cbn [all_rows]. now rewrite <- IH.
Qed.

Lemma elements_unfold e :
  elements e = e :: match el_children e with
                    | Some es => all_elements es
                    | None => []
                    end.
Proof.
  destruct e as [k ind b t a ty lv cnt [es|]]; reflexivity.
Qed.

Lemma leaf_child_rows lvl c : has_children c = false → all_rows lvl (child_list c) = [].
Proof.
  intros Hc. destruct (has_children_child_list c Hc) as [E|E].
  - now rewrite E.
  - unfold child_list. now rewrite E.
Qed.

Lemma renderCategory_unfold S lvl i c :
  renderCategory S lvl i c =
  mkElement (_id c, lvl, i) (bool_decide (lvl > 0)%Z)
    (if has_children c
     then Some (_id c, if bool_decide (_id c ∈ S) then ChevronDown else ChevronRight)
     else None)
    (title c) (alias c) (type c) (level c)
    (if has_children c then Some (length (child_list c)) else None)
    (if has_children c && bool_decide (_id c ∈ S)
     then Some (renderList S (lvl + 1) (child_list c) 0)
     else None).
Proof.
  pose proof (renderCategory_children S lvl i c) as Hch.
  destruct c as [id t a d ty lv p f s ca ua ch].
  destruct (renderCategory S lvl i (mkCategory id t a d ty lv p f s ca ua ch))
    as [k ind b t' a' ty' lv' cnt ch'] eqn:E.
  simpl in Hch. subst ch'.
  simpl in E. injection E as <- <- <- <- <- <- <- <- _. reflexivity.
Qed.

Lemma visible_renderCategory S lvl i c :
  visible (renderCategory S lvl i c) =
  (_id c, lvl) ::
  if has_children c && bool_decide (_id c ∈ S)
  then visible_rows (renderList S (lvl + 1) (child_list c) 0)
  else [].
Proof.
  rewrite visible_unfold, renderCategory_children, renderCategory_key.
  destruct (has_children c && bool_decide (_id c ∈ S)); reflexivity.
Qed.

Lemma visible_rows_cons e es : visible_rows (e :: es) = visible e ++ visible_rows es.
Proof. reflexivity. Qed.

Lemma elem_of_preorder_children c d :
  d ∈ preorder (child_list c) → d ∈ preorder_cat c.
Proof. rewrite preorder_cat_unfold, elem_of_cons. auto. Qed.

(** When the set holds the id of every node with children, the whole
    forest is on screen. *)
Lemma all_expanded_shows_all (E : ExpansionSet) cats :
  ∀ lvl i,
  (∀ d, d ∈ preorder cats → has_children d = true → _id d ∈ E) →
  visible_rows (renderList E lvl cats i) = all_rows lvl cats.
Proof.
  assert (Hcat : ∀ c lvl i,
    (∀ d, d ∈ preorder_cat c → has_children d = true → _id d ∈ E) →
    visible (renderCategory E lvl i c) = all_rows_cat lvl c).
  { induction c as [c IH] using Category_children_ind. intros lvl i Hin.
    rewrite visible_renderCategory, all_rows_cat_unfold. f_equal.
    destruct (has_children c) eqn:Hc; simpl.
    - rewrite bool_decide_eq_true_2
        by (apply Hin; [rewrite preorder_cat_unfold, elem_of_cons; auto|exact Hc]).
      assert (Hsub : ∀ d, d ∈ preorder (child_list c) →
                          has_children d = true → _id d ∈ E).
      { intros d Hd. apply Hin. now apply elem_of_preorder_children. }
      clear Hin Hc. generalize 0%nat.
      induction IH as [|x l Hx _ IHl]; intros n; [reflexivity|].
      cbn [renderList all_rows]. rewrite visible_rows_cons.
      rewrite Hx, IHl; [reflexivity| |].
      + intros d Hd. apply Hsub. cbn [preorder]. apply elem_of_app. now right.
      + intros d Hd. apply Hsub. cbn [preorder]. apply elem_of_app. now left.
    - now rewrite leaf_child_rows. }
  induction cats as [|c l IH]; intros lvl i Hin; [reflexivity|].
  cbn [renderList all_rows]. rewrite visible_rows_cons.
  rewrite Hcat, IH; [reflexivity| |].
  - intros d Hd. apply Hin. cbn [preorder]. apply elem_of_app. now right.
  - intros d Hd. apply Hin. cbn [preorder]. apply elem_of_app. now left.
Qed.

(** X1. After "Expand All" every node of the loaded forest is on
    screen: the rows are all the nodes in pre-order, each at its
    depth. *)
Theorem expandAll_shows_every_node (cats : list Category) (prior : ExpansionSet) (lvl : Z) :
  visible_rows (renderCategoryTree (expandAllCategories cats prior) cats lvl)
  = all_rows lvl cats.
Proof.
  unfold renderCategoryTree. apply all_expanded_shows_all.
  intros d Hd Hc. unfold expandAllCategories.
  rewrite collectIds_addOrder, addOrder_preorder.
  apply elem_of_union_l, elem_of_list_to_set, elem_of_parent_ids. eauto.
Qed.

(** X2. After "Collapse All" exactly the roots are on screen, in their
    order, and nothing below them. *)
Theorem collapseAll_shows_roots (cats : list Category) (prior : ExpansionSet) (lvl : Z) :
  visible_rows (renderCategoryTree (collapseAllCategories prior) cats lvl)
  = map (λ c, (_id c, lvl)) cats.
Proof.
  unfold renderCategoryTree, collapseAllCategories. generalize 0%nat.
  induction cats as [|c l IH]; intros n; [reflexivity|].
  cbn [renderList map]. rewrite visible_rows_cons, IH, visible_renderCategory.
  rewrite (bool_decide_eq_false_2 (_id c ∈ (∅ : ExpansionSet))) by apply not_elem_of_empty.
  now rewrite andb_false_r.
Qed.


(** Two sets that agree on the ids of the nodes with children render
    the same tree. *)
Lemma render_agree (S S' : ExpansionSet) cats :
  ∀ lvl i,
  (∀ d, d ∈ preorder cats → has_children d = true → (_id d ∈ S ↔ _id d ∈ S')) →
  renderList S lvl cats i = renderList S' lvl cats i.
Proof.
  assert (Hcat : ∀ c lvl i,
    (∀ d, d ∈ preorder_cat c → has_children d = true → (_id d ∈ S ↔ _id d ∈ S')) →
    renderCategory S lvl i c = renderCategory S' lvl i c).
  { induction c as [c IH] using Category_children_ind. intros lvl i Hin.
    rewrite !renderCategory_unfold.
    destruct (has_children c) eqn:Hc; [|reflexivity].
    assert (Hb : bool_decide (_id c ∈ S) = bool_decide (_id c ∈ S')).
    { apply bool_decide_ext, Hin; [|exact Hc].
      rewrite preorder_cat_unfold, elem_of_cons. auto. }
    rewrite Hb. destruct (bool_decide (_id c ∈ S')); [|reflexivity].
    simpl. do 2 f_equal.
    assert (Hsub : ∀ d, d ∈ preorder (child_list c) →
                        has_children d = true → (_id d ∈ S ↔ _id d ∈ S')).
    { intros d Hd. apply Hin. now apply elem_of_preorder_children. }
    clear Hin Hc Hb. generalize 0%nat.
    induction IH as [|x l Hx _ IHl]; intros n; [reflexivity|].
    cbn [renderList]. rewrite Hx, IHl; [reflexivity| |].
    + intros d Hd. apply Hsub. cbn [preorder]. apply elem_of_app. now right.
    + intros d Hd. apply Hsub. cbn [preorder]. apply elem_of_app. now left. }
  induction cats as [|c l IH]; intros lvl i Hin; [reflexivity|].
  cbn [renderList]. rewrite Hcat, IH; [reflexivity| |].
  - intros d Hd. apply Hin. cbn [preorder]. apply elem_of_app. now right.
  - intros d Hd. apply Hin. cbn [preorder]. apply elem_of_app. now left.
Qed.

(** X3. What is rendered depends on the expansion set only through the
    ids of the nodes that have children: two sets that agree on those
    ids give the same tree, and toggling an id that no node with
    children carries (a leaf's id, or an id left over from an earlier
    list) changes nothing on screen. *)
Theorem render_ignores_other_ids (S S' : ExpansionSet) (cats : list Category) (lvl : Z) :
  (∀ id, id ∈ parent_ids cats → (id ∈ S ↔ id ∈ S')) →
  renderCategoryTree S cats lvl = renderCategoryTree S' cats lvl
  ∧ (∀ id, id ∉ parent_ids cats →
       renderCategoryTree (toggleExpanded id S) cats lvl = renderCategoryTree S cats lvl).
Proof.
  intros Hagree. split.
  - apply render_agree. intros d Hd Hc. apply Hagree, elem_of_parent_ids. eauto.
  - intros id Hid. apply render_agree. intros d Hd Hc.
    rewrite elem_of_toggleExpanded.
    assert (Hne : _id d ≠ id).
    { intros E. apply Hid, elem_of_parent_ids. eauto. }
    tauto.
Qed.

Lemma render_ignores_other_ids_witness :
  renderCategoryTree (∅ : ExpansionSet) [Samples.A] 0
  = renderCategoryTree ({[ "B" ]} : ExpansionSet) [Samples.A] 0.
Proof.
  refine (proj1 (render_ignores_other_ids ∅ {[ "B" ]} [Samples.A] 0 _)).
  intros id Hid. change (id ∈ ["A"]) in Hid.
  apply list_elem_of_singleton in Hid as ->.
  rewrite elem_of_singleton. split.
  - intros H. now apply not_elem_of_empty in H.
  - discriminate.
Defined.

(** X4. [toggleExpanded id] is the symmetric difference with the
    singleton of [id], and toggles of two ids commute. *)
Theorem toggle_symmetric_difference (a b : string) (S : ExpansionSet) :
  toggleExpanded a S = (S ∖ {[ a ]}) ∪ ({[ a ]} ∖ S)
  ∧ toggleExpanded a (toggleExpanded b S) = toggleExpanded b (toggleExpanded a S).
Proof.
  split.
  - apply set_eq. intros x.
    rewrite elem_of_toggleExpanded, elem_of_union, !elem_of_difference,
      !elem_of_singleton.
    destruct (decide (x = a)) as [->|Hne]; tauto.
  - apply set_eq. intros x. rewrite !elem_of_toggleExpanded.
    destruct (decide (x = a)), (decide (x = b)), (decide (a ∈ S)),
      (decide (b ∈ S)), (decide (x ∈ S)); subst; tauto.
Qed.

Lemma parent_ids_leaves cats :
  Forall (λ c, has_children c = false) cats → parent_ids cats = [].
Proof.
  induction 1 as [|c l Hc _ IH]; [reflexivity|].
  now rewrite parent_ids_cons, Hc, IH.
Qed.

(** X5. "Expand All" leaves the expansion set empty exactly when no
    root of the loaded list has children. *)
Theorem expandAll_empty_iff (cats : list Category) (prior : ExpansionSet) :
  expandAllCategories cats prior = ∅ ↔ Forall (λ c, has_children c = false) cats.
Proof.
  assert (E : expandAllCategories cats prior = list_to_set (parent_ids cats)).
  { unfold expandAllCategories.
    rewrite collectIds_addOrder, addOrder_preorder. set_solver. }
  rewrite E. split.
  - intros Hempty. apply Forall_forall. intros c Hc.
    destruct (has_children c) eqn:Hch; [|reflexivity]. exfalso.
    assert (Hin : _id c ∈ (list_to_set (parent_ids cats) : ExpansionSet)).
    { apply elem_of_list_to_set, elem_of_parent_ids. exists c.
      split; [|auto]. clear -Hc.
      induction cats as [|x l IH]; [now apply elem_of_nil in Hc|].
      cbn [preorder]. apply elem_of_app. apply elem_of_cons in Hc as [->|Hc].
      - left. rewrite preorder_cat_unfold, elem_of_cons. auto.
      - right. auto. }
    rewrite Hempty in Hin. exact (not_elem_of_empty _ Hin).
  - intros Hleaves. now rewrite parent_ids_leaves.
Qed.

Lemma roots_sublist_all_rows lvl cats :
  map (λ c, (_id c, lvl)) cats `sublist_of` all_rows lvl cats.
Proof.
  induction cats as [|c l IH]; [constructor|].
  cbn [map all_rows]. rewrite all_rows_cat_unfold. cbn [app].
  apply sublist_skip. now apply sublist_inserts_l.
Qed.

(** X6. Whatever the expansion set, the rows on screen are a
    subsequence of the nodes of the forest in pre-order, each at its
    depth, and the roots are always among them. *)
Theorem visible_between_roots_and_all (S : ExpansionSet) (cats : list Category) (lvl : Z) :
  map (λ c, (_id c, lvl)) cats
    `sublist_of` visible_rows (renderCategoryTree S cats lvl)
  ∧ visible_rows (renderCategoryTree S cats lvl) `sublist_of` all_rows lvl cats.
Proof.
  unfold renderCategoryTree. generalize 0%nat as i.
  assert (Hcat : ∀ c lvl i,
    visible (renderCategory S lvl i c) `sublist_of` all_rows_cat lvl c).
  { induction c as [c IH] using Category_children_ind. intros lvl0 i.
    rewrite visible_renderCategory, all_rows_cat_unfold. apply sublist_skip.
    destruct (has_children c && bool_decide (_id c ∈ S)); [|apply sublist_nil_l].
    generalize 0%nat.
    induction IH as [|x l Hx _ IHl]; intros n; [constructor|].
    cbn [renderList all_rows]. rewrite visible_rows_cons.
    apply sublist_app; auto. }
  split.
  - revert i. induction cats as [|c l IH]; intros i; [constructor|].
    cbn [map renderList]. rewrite visible_rows_cons, visible_renderCategory.
    cbn [app]. apply sublist_skip. now apply sublist_inserts_l.
  - revert i. induction cats as [|c l IH]; intros i; [constructor|].
    cbn [renderList all_rows]. rewrite visible_rows_cons.
    apply sublist_app; auto.
Qed.

Lemma well_rendered_weaken lvl e : well_rendered (lvl + 1) e → well_rendered lvl e.
Proof.
  unfold well_rendered. intros (H1 & H2 & H3 & H4).
  split; [exact H1|]. split; [lia|]. split; [exact H3|exact H4].
Qed.

(** X7. Every element of a rendered tree, at any depth, is well
    formed: indented exactly when its level is above 0 (so all rows
    below the top level get the same indentation class), never above
    the level the rendering started from, with a down chevron exactly
    when its children block is shown, and with a button, if any, that
    toggles the row's own id. *)
Theorem rendered_tree_well_formed (S : ExpansionSet) (cats : list Category) (lvl : Z) :
  Forall (well_rendered lvl) (all_elements (renderCategoryTree S cats lvl)).
Proof.
  unfold renderCategoryTree. generalize 0%nat as i.
  assert (Hcat : ∀ c lvl i,
    Forall (well_rendered lvl) (elements (renderCategory S lvl i c))).
  { induction c as [c IH] using Category_children_ind. intros lvl0 i.
    rewrite elements_unfold. constructor.
    - rewrite renderCategory_unfold. unfold well_rendered. cbn.
      split; [reflexivity|]. split; [lia|]. split.
      + destruct (has_children c); cbn.
        * destruct (bool_decide (_id c ∈ S)); split.
          -- intros _. eexists; reflexivity.
          -- intros _. eexists; reflexivity.
          -- intros [? H0]. discriminate H0.
          -- intros [? H0]. discriminate H0.
        * split; [intros [? H0]; discriminate H0|intros [? H0]; discriminate H0].
      + intros id ch. destruct (has_children c); [|discriminate].
        intros E. injection E as <- _. split; [reflexivity|eexists; reflexivity].
    - rewrite renderCategory_children.
      destruct (has_children c && bool_decide (_id c ∈ S)); [|constructor].
      generalize 0%nat.
      induction IH as [|x l Hx _ IHl]; intros n; [constructor|].
      cbn [renderList all_elements flat_map]. apply Forall_app. split.
      + eapply Forall_impl; [apply Hx|]. apply well_rendered_weaken.
      + apply IHl. }
  induction cats as [|c l IH]; intros i; [constructor|].
  cbn [renderList all_elements flat_map]. apply Forall_app. split; [apply Hcat|apply IH].
Qed.


Lemma renderList_indices S lvl cats i :
  map (λ e, snd (el_key e)) (renderList S lvl cats i) = seq i (length cats).
Proof.
  revert i. induction cats as [|c l IH]; intros i; [reflexivity|].
  cbn [renderList map length seq]. now rewrite IH, renderCategory_key.
Qed.

Lemma renderList_keys_distinct S lvl cats i :
  NoDup (map el_key (renderList S lvl cats i)).
Proof.
  apply (NoDup_fmap_1 snd). rewrite <- list_fmap_compose.
  change (NoDup (map (λ e, snd (el_key e)) (renderList S lvl cats i))).
  rewrite renderList_indices. apply NoDup_seq.
Qed.

(** X24. The React keys never collide among siblings: the keys of the
    root rows are pairwise distinct, and so are the keys within every
    children block at any depth, even when several categories carry the
    same id. *)
Theorem sibling_keys_distinct (S : ExpansionSet) (cats : list Category) (lvl : Z) :
  NoDup (map el_key (renderCategoryTree S cats lvl))
  ∧ Forall distinct_child_keys (all_elements (renderCategoryTree S cats lvl)).
Proof.
  split; [apply renderList_keys_distinct|].
  unfold renderCategoryTree. generalize 0%nat as i.
  assert (Hcat : ∀ c lvl i,
    Forall distinct_child_keys (elements (renderCategory S lvl i c))).
  { induction c as [c IH] using Category_children_ind. intros lvl0 i.
    rewrite elements_unfold. constructor.
    - unfold distinct_child_keys. rewrite renderCategory_children.
      destruct (has_children c && bool_decide (_id c ∈ S)); [|exact I].
      apply renderList_keys_distinct.
    - rewrite renderCategory_children.
      destruct (has_children c && bool_decide (_id c ∈ S)); [|constructor].
      generalize 0%nat.
      induction IH as [|x l Hx _ IHl]; intros n; [constructor|].
      cbn [renderList all_elements flat_map]. apply Forall_app. split.
      + apply Hx.
      + apply IHl. }
  induction cats as [|c l IH]; intros i; [constructor|].
  cbn [renderList all_elements flat_map]. apply Forall_app. split; [apply Hcat|apply IH].
Qed.

End TreeViewFacts.

(** ** Mutations, loads and intents of the users page *)

Module UsersHandlerFacts.

Import Async UsersPage.

Ltac unfold_handlers :=
  unfold run_handler, EditUser.run_handler, EditUser.onSave, EditUser.onClose,
         handleCreateUser, handleDeleteUser, handleEditUser, loadUsers,
         handlePageChange, handleItemsPerPageChange, handleSearch,
         Intents.dispatch, call, await, mbind, mret, prog_bind, prog_ret.

Ltac steps :=
  unfold_handlers;
  cbn [exec bind try_catch try_finally EditUser.lift length app final log result
       effect EditUser.effect negb
       reloads deletes omap reload_of delete_of
       UsersLog.alerts UsersLog.alert_of UsersLog.errors UsersLog.error_of
       EditUser.reloads EditUser.reload_of EditUser.alerts EditUser.alert_of
       EditUser.edit_modal
       users loading searchTerm debounced selectedUser showCreateModal
       showEditModal pagination currentPage totalPages totalItems itemsPerPage];
  repeat match goal with
         | |- context [?w unit ?n ?c] => is_var w; destruct (w unit n c)
         end.

(** Case analysis on the next answer of the world. *)
Ltac answer :=
  match goal with
  | |- context [?w (outcome ?T) ?n ?c] =>
      is_var w; let o := fresh "o" in
      destruct (w (outcome T) n c) as [o|o]
  | |- context [?w bool ?n ?c] => is_var w; destruct (w bool n c)
  | |- context [?w (option string) ?n ?c] => is_var w; destruct (w (option string) n c)
  | |- context [ok ?r] => destruct (ok r)
  | |- context [match ?o with JsonNull => _ | mkJson _ => _ end] =>
      is_var o; destruct o
  end.

(** Follow a run through every answer the world can give. *)
Ltac all_runs := repeat (steps; try answer).

(** X8. No rejection escapes a mutation handler: in every world the
    runs of [handleDeleteUser], [handleCreateUser] and the edit modal's
    [onSave] return normally, each failure being caught inside. *)
Theorem mutation_handlers_never_throw
    (w : world Cmd) (w' : world EditUser.Cmd) (self st : State)
    (userId : string) (newUser : CreateUserInput)
    (selected : AdminUser) (patch : gmap string string) :
  result (run_handler w (handleDeleteUser self userId) st) = Returned tt
  ∧ result (run_handler w (handleCreateUser self newUser) st) = Returned tt
  ∧ result (EditUser.run_handler w' (EditUser.onSave self selected patch) st)
    = Returned tt.
Proof.
  split; [|split]; all_runs; reflexivity.
Qed.


(** X9. Once the dialog is confirmed, [handleDeleteUser] calls the
    delete endpoint with the given id.  When that call resolves it then
    reloads the list once, with the page, page size and query of its
    render, and shows no alert; when it is rejected nothing is reloaded,
    the error is only logged and the state is as before. *)
Theorem confirmed_delete_then_reload
    (w : world Cmd) (self st : State) (userId : string) :
  let ask := confirm "Are you sure you want to delete this user?" in
  w _ 0%nat ask = true →
  let r := run_handler w (handleDeleteUser self userId) st in
  match w _ 1%nat (deleteUser userId) with
  | Resolved _ =>
      (∃ rest, log r = Ev ask :: Ev (deleteUser userId) :: Ev (setLoading true)
                       :: Ev (getUsers (currentPage (pagination self))
                                (itemsPerPage (pagination self)) (debounced self))
                       :: rest)
      ∧ deletes (log r) = [userId]
      ∧ reloads (log r) = [(currentPage (pagination self),
                            itemsPerPage (pagination self), debounced self)]
      ∧ UsersLog.alerts (log r) = []
      ∧ loading (final r) = false
  | Rejected e =>
      log r = [Ev ask; Ev (deleteUser userId);
               Ev (console_error "Error deleting user:" e)]
      ∧ final r = st
  end.
Proof.
  intros ask Hyes r. subst r ask. steps. rewrite Hyes. steps.
  destruct (w _ 1%nat _) as [u|e]; steps.
  - answer; steps; (split; [eexists; reflexivity|]); repeat split; reflexivity.
  - destruct st as [? ? ? ? ? ? ? []]. split; reflexivity.
Qed.

Lemma confirmed_delete_then_reload_witness :
  deletes (log (run_handler MoreSamples.confirming
                  (handleDeleteUser initial "u1") initial)) = ["u1"].
Proof.
  pose proof (confirmed_delete_then_reload MoreSamples.confirming initial initial
                "u1" eq_refl) as H.
  exact (proj1 (proj2 H)).
Defined.



(** X11. The edit modal opens on the user whose Edit button was
    clicked and closes on [onClose].  Its [onSave] first calls the
    update endpoint with the selected user's id and the submitted
    draft; when that resolves the list is reloaded once and the modal
    closes, and when it is rejected the state is as before, so the
    modal stays open on the same user, nothing is reloaded, and the
    error is logged without any alert. *)
Theorem edit_modal_save
    (w : world Cmd) (w' : world EditUser.Cmd) (self st : State)
    (u selected : AdminUser) (patch : gmap string string) :
  let r := EditUser.run_handler w' (EditUser.onSave self selected patch) st in
  EditUser.edit_modal (final (run_handler w (handleEditUser u) st)) = Some u
  ∧ EditUser.edit_modal (final (run_handler w EditUser.onClose st)) = None
  ∧ (∃ rest, log r = Ev (EditUser.updateUser (_id selected) patch) :: rest)
  ∧ match w' _ 0%nat (EditUser.updateUser (_id selected) patch) with
    | Resolved _ =>
        EditUser.edit_modal (final r) = None
        ∧ selectedUser (final r) = None
        ∧ EditUser.reloads (log r)
          = [(currentPage (pagination self), itemsPerPage (pagination self),
              debounced self)]
    | Rejected e =>
        final r = st
        ∧ log r = [Ev (EditUser.updateUser (_id selected) patch);
                   Ev (EditUser.page (console_error "Error updating user:" e))]
        ∧ EditUser.reloads (log r) = []
        ∧ EditUser.alerts (log r) = []
    end.
Proof.
  intros r. subst r. split; [|split; [|split]].
  - steps. reflexivity.
  - steps. reflexivity.
  - steps. destruct (w' _ 0%nat _) as [x|e]; steps.
    + answer; steps; eexists; reflexivity.
    + eexists; reflexivity.
  - steps. destruct (w' _ 0%nat _) as [x|e]; steps.
    + answer; steps; repeat split; reflexivity.
    + destruct st as [? ? ? ? ? ? ? []]. repeat split; reflexivity.
Qed.

(** The state a load ends in, by the answer to its request. *)
Lemma loadUsers_final (w : world Cmd) (self st : State) :
  final (run_handler w (loadUsers self) st) =
  match w _ 1%nat (getUsers (currentPage (pagination self))
                      (itemsPerPage (pagination self)) (debounced self)) with
  | Resolved response =>
      mkState (data response) false (searchTerm st) (debounced st)
        (selectedUser st) (showCreateModal st) (showEditModal st)
        (response_pagination response)
  | Rejected _ =>
      mkState (users st) false (searchTerm st) (debounced st)
        (selectedUser st) (showCreateModal st) (showEditModal st) (pagination st)
  end.
Proof. steps. destruct (w _ 1%nat _); steps; reflexivity. Qed.

(** X12. A load that resolves replaces the list and the pagination
    snapshot by those of the response, nothing of the old ones being
    kept.  Of two loads run one after the other the later one decides:
    if it resolves, the state holds its response alone; if it is
    rejected, the list and pagination of the earlier response stay. *)
Theorem load_success_replaces
    (w1 w2 : world Cmd) (self1 self2 st : State) (response : UsersResponse) :
  w1 _ 1%nat (getUsers (currentPage (pagination self1))
                (itemsPerPage (pagination self1)) (debounced self1))
    = Resolved response →
  let s1 := final (run_handler w1 (loadUsers self1) st) in
  let s2 := final (run_handler w2 (loadUsers self2) s1) in
  users s1 = data response
  ∧ pagination s1 = response_pagination response
  ∧ loading s1 = false
  ∧ match w2 _ 1%nat (getUsers (currentPage (pagination self2))
                        (itemsPerPage (pagination self2)) (debounced self2)) with
    | Resolved later =>
        users s2 = data later ∧ pagination s2 = response_pagination later
    | Rejected _ =>
        users s2 = data response ∧ pagination s2 = response_pagination response
    end.
Proof.
  intros H1 s1 s2. subst s2 s1. rewrite !loadUsers_final, H1.
  destruct (w2 _ 1%nat _); repeat split; reflexivity.
Qed.

Lemma load_success_replaces_witness :
  users (final (run_handler Samples.online (loadUsers initial) Samples.on_page_3))
  = data Samples.page_3_of_5.
Proof.
  exact (proj1 (load_success_replaces Samples.online Samples.online initial initial
                  Samples.on_page_3 Samples.page_3_of_5 eq_refl)).
Defined.

(** X13. A load touches nothing but the list, the pagination (users
    page) and the loading flag: in every world the raw input, the
    debounced query, the selection and the modal flags of the users
    page are as before, and so are, on the categories page, the raw
    input, the debounced query, the selection, the modal flags and the
    expansion set. *)
Theorem load_leaves_rest_of_state
    (wu : world Cmd) (self st : State)
    (wc : world CategoriesPage.Cmd) (search : string) (sc : CategoriesPage.State) :
  let s := final (run_handler wu (loadUsers self) st) in
  let c := final (CategoriesPage.run_handler wc
                    (CategoriesPage.loadCategories search) sc) in
  (searchTerm s = searchTerm st ∧ debounced s = debounced st
   ∧ selectedUser s = selectedUser st
   ∧ showCreateModal s = showCreateModal st
   ∧ showEditModal s = showEditModal st)
  ∧ (CategoriesPage.searchTerm c = CategoriesPage.searchTerm sc
     ∧ CategoriesPage.debouncedSearch c = CategoriesPage.debouncedSearch sc
     ∧ CategoriesPage.selectedCategory c = CategoriesPage.selectedCategory sc
     ∧ CategoriesPage.showEditModal c = CategoriesPage.showEditModal sc
     ∧ CategoriesPage.showCreateModal c = CategoriesPage.showCreateModal sc
     ∧ CategoriesPage.expandedCategories c = CategoriesPage.expandedCategories sc).
Proof.
  intros s c. subst s c. split.
  - rewrite loadUsers_final. destruct (wu _ 1%nat _); repeat split; reflexivity.
  - unfold CategoriesPage.run_handler, CategoriesPage.loadCategories,
      call, await, mbind, mret, prog_bind, prog_ret.
    cbn [exec bind try_catch try_finally length app final CategoriesPage.effect].
    destruct (wc _ 1%nat _);
      cbn [exec bind try_catch try_finally length app final CategoriesPage.effect];
      repeat split; reflexivity.
Qed.


End UsersHandlerFacts.

(** ** What the users table shows *)

Module UsersViewFacts.

Import Async UsersPage UsersView.

Section Render.

Variable toUpperCase : string → string.
Variable formatDate : string → string.

Lemma render_row_None i u :
  render_row toUpperCase formatDate i u = None ↔ nameless u.
Proof.
  unfold render_row, nameless, first_char.
  destruct (firstName u) as [|a s], (email u) as [|b t]; simpl;
    split; try discriminate; try tauto; intros [H1 H2]; discriminate.
Qed.

Lemma render_rows_None i us :
  render_rows toUpperCase formatDate i us = None ↔ Exists nameless us.
Proof.
  revert i. induction us as [|u rest IH]; intros i; cbn [render_rows].
  - split; [discriminate|]. intros H. inversion H.
  - destruct (render_row toUpperCase formatDate i u) as [r|] eqn:Er.
    + assert (Hu : ¬ nameless u).
      { intros Hn. apply (proj2 (render_row_None i u)) in Hn. congruence. }
      destruct (render_rows toUpperCase formatDate (S i) rest) as [rs|] eqn:Ers.
      * split; [discriminate|]. intros H. apply Exists_cons in H as [H|H].
        -- contradiction.
        -- apply (proj2 (IH (S i))) in H. congruence.
      * split; [|reflexivity]. intros _. apply Exists_cons_tl.
        apply (proj1 (IH (S i))). exact Ers.
    + split; [|reflexivity]. intros _. apply Exists_cons_hd.
      apply (proj1 (render_row_None i u)). exact Er.
Qed.

Lemma render_rows_lookup us :
  ∀ i rows,
  render_rows toUpperCase formatDate i us = Some rows →
  length rows = length us
  ∧ ∀ k u, us !! k = Some u →
      ∃ r, rows !! k = Some r
           ∧ render_row toUpperCase formatDate (i + k) u = Some r.
Proof.
  induction us as [|u rest IH]; intros i rows; cbn [render_rows].
  - intros E. injection E as <-. split; [reflexivity|]. intros k v Hk. discriminate Hk.
  - destruct (render_row toUpperCase formatDate i u) as [r|] eqn:Er; [|discriminate].
    destruct (render_rows toUpperCase formatDate (S i) rest) as [rs|] eqn:Ers;
      [|discriminate].
    intros E. injection E as <-.
    destruct (IH (S i) rs Ers) as [Hlen Hrows].
    split; [cbn; now rewrite Hlen|].
    intros [|k] v Hk.
    + injection Hk as <-. exists r. rewrite Nat.add_0_r. auto.
    + destruct (Hrows k v Hk) as (r' & H1 & H2). exists r'.
      split; [exact H1|]. rewrite <- H2. f_equal. lia.
Qed.

(** X16. [UserResults] throws exactly when the list is shown (not
    loading) and some user has neither a first name nor an email to
    take the avatar letter from; while loading it shows the loading
    notice whatever the list holds, and an empty list gives the empty
    notice. *)
Theorem UserResults_throws_iff (us : list AdminUser) (loading : bool) :
  (UserResults toUpperCase formatDate us loading = None
   ↔ loading = false ∧ Exists nameless us)
  ∧ UserResults toUpperCase formatDate us true = Some LoadingUsers
  ∧ UserResults toUpperCase formatDate [] false = Some NoUsersFound.
Proof.
  split; [|split; reflexivity].
  unfold UserResults. destruct loading.
  - split; [discriminate|]. intros [H _]. discriminate H.
  - destruct us as [|u rest].
    + split; [discriminate|]. intros [_ H]. inversion H.
    + cbn [length Nat.eqb].
      destruct (render_rows toUpperCase formatDate 0 (u :: rest)) as [rows|] eqn:E.
      * split; [discriminate|]. intros [_ H].
        apply (proj2 (render_rows_None 0 (u :: rest))) in H. congruence.
      * split; [|reflexivity]. intros _. split; [reflexivity|].
        apply (proj1 (render_rows_None 0 (u :: rest))). exact E.
Qed.

(** X17. When the list is shown and every user has a first name or an
    email, the table has one row per user, in the order of the list:
    row [k] is keyed by the id of user [k], striped by the parity of
    [k], shows that user's usage bar, and its Edit and Delete buttons
    pass that user and that user's id. *)
Theorem table_row_per_user (us : list AdminUser) :
  us ≠ [] →
  Forall (λ u, ¬ nameless u) us →
  ∃ rows,
    UserResults toUpperCase formatDate us false = Some (Table rows)
    ∧ length rows = length us
    ∧ ∀ k u, us !! k = Some u →
        ∃ r, rows !! k = Some r
             ∧ row_key r = _id u ∧ row_even r = Nat.even k
             ∧ row_width r = Usage.usage_width u
             ∧ row_edit r = u ∧ row_delete r = _id u.
Proof.
  intros Hne Hall. unfold UserResults.
  destruct us as [|u0 rest]; [congruence|]. cbn [length Nat.eqb].
  destruct (render_rows toUpperCase formatDate 0 (u0 :: rest)) as [rows|] eqn:E.
  - exists rows. split; [reflexivity|].
    destruct (render_rows_lookup _ _ _ E) as [Hlen Hrows]. split; [exact Hlen|].
    intros k u Hk. destruct (Hrows k u Hk) as (r & H1 & H2). exists r.
    split; [exact H1|]. cbn [Nat.add] in H2. unfold render_row in H2.
    destruct (match first_char (firstName u) with
              | Some c => Some c
              | None => first_char (email u)
              end); [|discriminate].
    injection H2 as <-. repeat split; reflexivity.
  - exfalso. apply (proj1 (render_rows_None 0 (u0 :: rest))) in E.
    apply Exists_exists in E as (u & Hin & Hn).
    rewrite Forall_forall in Hall. exact (Hall u Hin Hn).
Qed.

(** X26. What the users page shows once a load has settled.  After a
    load that resolves it is what the list of the response gives, and
    the pagination bar is there exactly when the response counts more
    than one page.  After a load that is rejected it is what the old
    list gives, with the old pagination; when the old list was empty,
    as on the first load, the page reads "No users found.", just as for
    an empty result. *)
Theorem users_shown_after_load (w : world Cmd) (self st : State) :
  let s := final (run_handler w (loadUsers self) st) in
  let shown := UserResults toUpperCase formatDate (users s) (loading s) in
  match w _ 1%nat (getUsers (currentPage (pagination self))
                     (itemsPerPage (pagination self)) (debounced self)) with
  | Resolved response =>
      shown = UserResults toUpperCase formatDate (data response) false
      ∧ shows_pagination s
        = bool_decide (totalPages (response_pagination response) > 1)%Z
  | Rejected _ =>
      shown = UserResults toUpperCase formatDate (users st) false
      ∧ (users st = [] → shown = Some NoUsersFound)
      ∧ shows_pagination s = bool_decide (totalPages (pagination st) > 1)%Z
  end.
Proof.
  cbn zeta. rewrite UsersHandlerFacts.loadUsers_final.
  destruct (w _ 1%nat _) as [response|e]; cbn [users loading].
  - split; reflexivity.
  - split; [reflexivity|]. split; [|reflexivity]. intros ->. reflexivity.
Qed.

End Render.

Lemma table_row_per_user_witness :
  ∃ rows,
    UserResults id id [Samples.over_quota] false = Some (Table rows)
    ∧ length rows = 1%nat.
Proof.
  destruct (table_row_per_user id id [Samples.over_quota]) as (rows & H1 & H2 & _).
  - discriminate.
  - repeat constructor. intros [H _]. discriminate H.
  - exists rows. auto.
Defined.

End UsersViewFacts.

(** ** The drafts of the modals *)

Module FormFacts.

Import UsersPage Forms.

Lemma changes_cons n v evs (form : Form) :
  changes ((n, v) :: evs) form = changes evs (handleChange n v form).
Proof. reflexivity. Qed.

(** X15. After any run of change events a draft holds, for every field
    name, the last value typed into the input of that name, and the
    value it started with when nothing was typed there: changes to
    other fields never disturb a field, and a later change to a field
    overrides the earlier ones. *)
Theorem draft_holds_last_typed (evs : list (string * string)) (form : Form)
    (name : string) :
  changes evs form !! name
  = match last_typed name evs with
    | Some v => Some v
    | None => form !! name
    end.
Proof.
  revert form. induction evs as [|[n v] rest IH]; intros form; [reflexivity|].
  rewrite changes_cons, IH. cbn [last_typed].
  destruct (last_typed name rest); [reflexivity|].
  unfold handleChange. rewrite lookup_insert.
  destruct (decide (n = name)); reflexivity.
Qed.

Lemma changes_dom evs (form : Form) :
  Forall (λ e, fst e ∈ dom form) evs → dom (changes evs form) = dom form.
Proof.
  revert form. induction evs as [|[n v] rest IH]; intros form Hall; [reflexivity|].
  inversion Hall as [|? ? Hn Hrest]; subst. cbn [fst] in Hn.
  rewrite changes_cons.
  assert (Hd : dom (handleChange n v form) = dom form).
  { unfold handleChange. rewrite dom_insert_L. set_solver. }
  rewrite IH; [exact Hd|]. now rewrite Hd.
Qed.

Lemma edit_form_dom u :
  dom (edit_form u) = list_to_set ["firstName"; "lastName"; "email"; "role"].
Proof. unfold edit_form. rewrite !dom_insert_L, dom_empty_L. set_solver. Qed.

(** X18. As long as the change events come from the four inputs of
    [EditUserModal], the draft it submits has exactly the keys
    [firstName], [lastName], [email] and [role]; submitted untouched it
    carries the user's own four values. *)
Theorem edit_draft_keys (u : AdminUser) (evs : list (string * string)) :
  Forall (λ e, fst e ∈ ["firstName"; "lastName"; "email"; "role"]) evs →
  let draft := changes evs (edit_form u) in
  dom draft = list_to_set ["firstName"; "lastName"; "email"; "role"]
  ∧ (evs = [] →
     draft !! "firstName" = Some (firstName u)
     ∧ draft !! "lastName" = Some (lastName u)
     ∧ draft !! "email" = Some (email u)
     ∧ draft !! "role" = Some (EditUser.role_name (role u))).
Proof.
  intros Hall draft. subst draft. split.
  - rewrite changes_dom; [apply edit_form_dom|].
    eapply Forall_impl; [exact Hall|]. intros e He. cbn beta in *.
    rewrite edit_form_dom. apply elem_of_list_to_set. exact He.
  - intros ->. cbn [changes fold_left]. unfold edit_form.
    repeat split; simplify_map_eq; reflexivity.
Qed.

Lemma edit_draft_keys_witness :
  dom (changes [("email", "bob@example.com"); ("role", "admin")]
         (edit_form Samples.over_quota))
  = list_to_set ["firstName"; "lastName"; "email"; "role"].
Proof.
  refine (proj1 (edit_draft_keys Samples.over_quota
                   [("email", "bob@example.com"); ("role", "admin")] _)).
  repeat constructor.
Defined.

End FormFacts.

(** ** Loads and clicks, as seen on the page *)

Module PageFacts.

Import Async.

Lemma loadCategories_final (w : world CategoriesPage.Cmd) (search : string)
    (st : CategoriesPage.State) :
  final (CategoriesPage.run_handler w (CategoriesPage.loadCategories search) st) =
  match w _ 1%nat (CategoriesPage.getCategories 1 25 search) with
  | Resolved response =>
      CategoriesPage.mkState (CategoriesPage.data response) false
        (CategoriesPage.searchTerm st) (CategoriesPage.debouncedSearch st)
        (CategoriesPage.selectedCategory st) (CategoriesPage.showEditModal st)
        (CategoriesPage.showCreateModal st) (CategoriesPage.expandedCategories st)
  | Rejected _ =>
      CategoriesPage.mkState (CategoriesPage.categories st) false
        (CategoriesPage.searchTerm st) (CategoriesPage.debouncedSearch st)
        (CategoriesPage.selectedCategory st) (CategoriesPage.showEditModal st)
        (CategoriesPage.showCreateModal st) (CategoriesPage.expandedCategories st)
  end.
Proof.
  unfold CategoriesPage.run_handler, CategoriesPage.loadCategories,
    call, await, mbind, mret, prog_bind, prog_ret.
  cbn [exec bind try_catch try_finally length app final CategoriesPage.effect].
  destruct (w _ 1%nat _);
    cbn [exec bind try_catch try_finally length app final CategoriesPage.effect];
    reflexivity.
Qed.

(** X19. What the categories page shows once a load has settled.  After
    a load that resolves it is the tree of the new list rendered under
    the expansion set as it was before the load (the set is not reset
    by a reload), or the empty notice when the new list is empty.
    After a load that is rejected it is what the old list and the old
    expansion set give; the loading notice is gone in both cases. *)
Theorem categories_shown_after_load (w : world CategoriesPage.Cmd) (search : string)
    (st : CategoriesPage.State) :
  let s := final (CategoriesPage.run_handler w
                    (CategoriesPage.loadCategories search) st) in
  TreeView.results s ≠ TreeView.LoadingCategories
  ∧ match w _ 1%nat (CategoriesPage.getCategories 1 25 search) with
    | Resolved response =>
        TreeView.results s =
        match CategoriesPage.data response with
        | [] => TreeView.NoCategoriesFound
        | _ :: _ =>
            TreeView.Tree
              (CategoryTree.renderCategoryTree (CategoriesPage.expandedCategories st)
                 (CategoriesPage.data response) 0)
        end
    | Rejected _ =>
        TreeView.results s =
        match CategoriesPage.categories st with
        | [] => TreeView.NoCategoriesFound
        | _ :: _ =>
            TreeView.Tree
              (CategoryTree.renderCategoryTree (CategoriesPage.expandedCategories st)
                 (CategoriesPage.categories st) 0)
        end
    end.
Proof.
  cbn zeta. rewrite loadCategories_final.
  destruct (w _ 1%nat _) as [response|e]; unfold TreeView.results; cbn.
  - destruct (CategoriesPage.data response); cbn; split; congruence.
  - destruct (CategoriesPage.categories st); cbn; split; congruence.
Qed.

End PageFacts.

(** ** Invariants of the debouncer *)

Module DebounceRunFacts.

Import Debounce DebounceRuns.

Section Component.

Context {St Dep : Type} `{EqDecision Dep}.
Variable raw : St → string.
Variable debounced : St → string.
Variable onInput : string → St → St.
Variable publish : string → St → St.
Variable deps : St → Dep.
Variable delay : N.

Hypothesis raw_onInput : ∀ v st, raw (onInput v st) = v.
Hypothesis raw_publish : ∀ v st, raw (publish v st) = raw st.
Hypothesis debounced_onInput : ∀ v st, debounced (onInput v st) = debounced st.
Hypothesis debounced_publish : ∀ v st, debounced (publish v st) = v.

Abbreviation Machine := (@Machine St Dep).
Abbreviation input := (input raw onInput publish deps delay).
Abbreviation advance := (advance raw publish deps delay).
Abbreviation step := (step raw onInput publish deps delay).
Abbreviation run := (run raw onInput publish deps delay).
Abbreviation in_step := (in_step raw debounced delay).
Abbreviation caught_up := (caught_up raw debounced).
Abbreviation one_pending := (one_pending raw delay).
Abbreviation loads_current := (loads_current deps).
Abbreviation commit := (commit raw deps delay).
Abbreviation fire := (fire raw publish deps delay).

Lemma reload_effect_timers old (m : Machine) :
  timers (reload_effect deps old m) = timers m
  ∧ page (reload_effect deps old m) = page m
  ∧ now (reload_effect deps old m) = now m
  ∧ handler (reload_effect deps old m) = handler m.
Proof. unfold reload_effect. destruct (decide _); repeat split; reflexivity. Qed.

(** Time passing over a single pending timer. *)
Lemma advance_single dt h d v (m : Machine) :
  timers m = [mkTimer h d v] → raw (page m) = v →
  let m' := advance dt m in
  now m' = (now m + dt)%N ∧ handler m' = handler m
  ∧ if decide (d ≤ now m + dt)%N
    then timers m' = [] ∧ page m' = publish v (page m)
    else timers m' = timers m ∧ page m' = page m.
Proof.
  intros Ht Hraw. cbn zeta. unfold Debounce.advance. rewrite Ht.
  rewrite filter_cons. cbn [deadline].
  destruct (decide (d ≤ now m + dt)%N) as [Hdue|Hnot].
  - rewrite filter_nil. cbn [fold_left].
    unfold Debounce.fire, pending. cbn [timers tid page].
    rewrite bool_decide_eq_true_2 by (constructor; reflexivity).
    cbn [captured]. rewrite filter_cons, decide_False by (cbn; tauto).
    rewrite filter_nil. unfold Debounce.commit, debounce_effect. cbn [page].
    rewrite decide_True by (symmetry; apply raw_publish).
    cbn [page now timers nextTimer handler fired reloads deadline captured tid].
    destruct (reload_effect_timers (page m)
                (mkMachine (publish v (page m)) (now m + dt) [] (nextTimer m)
                   (handler m) (fired m ++ [(d, v)]) (reloads m)))
      as (R1 & R2 & R3 & R4).
    rewrite R1, R2, R3, R4. repeat split; reflexivity.
  - rewrite filter_nil. cbn [fold_left now handler timers page]. repeat split; reflexivity.
Qed.

Lemma advance_in_step dt (m : Machine) : in_step m → in_step (advance dt m).
Proof.
  intros [[Hidle Hd]|(d & Ht & Hle)].
  - left. unfold Debounce.advance. rewrite Hidle. cbn. split; [reflexivity|exact Hd].
  - destruct (advance_single dt _ _ _ m Ht eq_refl) as (Hn & Hh & Hcase).
    destruct (decide (d ≤ now m + dt)%N).
    + destruct Hcase as [H1 H2]. left. split; [exact H1|].
      now rewrite H2, debounced_publish, raw_publish.
    + destruct Hcase as [H1 H2]. right. exists d.
      rewrite H1, H2, Hh, Hn, Ht. split; [reflexivity|lia].
Qed.

Lemma input_in_step dt v (m : Machine) : in_step m → in_step (input dt v m).
Proof.
  intros Hm. apply (advance_in_step dt) in Hm.
  unfold Debounce.input. set (m1 := advance dt m) in *.
  unfold Debounce.commit.
  destruct (reload_effect_timers (page m1)
              (debounce_effect raw delay (page m1) (with_page (onInput v (page m1)) m1)))
    as (R1 & R2 & R3 & R4).
  unfold DebounceRuns.in_step, DebounceRuns.caught_up,
    DebounceRuns.one_pending.
  rewrite R1, R2, R3, R4. clear R1 R2 R3 R4.
  unfold debounce_effect, with_page. cbn [page]. rewrite raw_onInput.
  destruct (decide (raw (page m1) = v)) as [Heq|Hne].
  - cbn [timers page now handler]. rewrite raw_onInput, debounced_onInput.
    destruct Hm as [[Hidle Hd]|(d & Ht & Hle)].
    + left. split; [exact Hidle|]. now rewrite Hd.
    + right. exists d. rewrite Ht, Heq. auto.
  - right. exists (now m1 + delay)%N.
    unfold setTimeout, clearTimeout. cbn [timers page now handler nextTimer].
    rewrite raw_onInput.
    assert (Hclear : filter (λ t, tid t ≠ handler m1) (timers m1) = []).
    { destruct Hm as [[Hidle _]|(d & Ht & _)].
      - now rewrite Hidle.
      - rewrite Ht, filter_cons, decide_False by (cbn; tauto). reflexivity. }
    rewrite Hclear. split; [reflexivity|lia].
Qed.

Lemma run_in_step evs (m : Machine) : in_step m → in_step (run evs m).
Proof.
  revert m. induction evs as [|[dt v|dt] rest IH]; intros m Hm; [exact Hm| |];
    cbn [DebounceRuns.run DebounceRuns.step]; apply IH.
  - now apply input_in_step.
  - now apply advance_in_step.
Qed.

Lemma mount_in_step st : in_step (mount raw deps delay st).
Proof. right. exists delay. cbn. split; [reflexivity|lia]. Qed.

Lemma quiet_catches_up d (m : Machine) :
  in_step m → (delay ≤ d)%N → caught_up (advance d m).
Proof.
  intros [[Hidle Hd]|(t & Ht & Hle)] Hquiet.
  - unfold Debounce.advance. rewrite Hidle. cbn. split; [reflexivity|exact Hd].
  - destruct (advance_single d _ _ _ m Ht eq_refl) as (Hn & Hh & Hcase).
    rewrite decide_True in Hcase by lia. destruct Hcase as [H1 H2].
    split; [exact H1|]. now rewrite H2, debounced_publish, raw_publish.
Qed.

Lemma no_repeats_snoc (l : list Dep) y x :
  last l = Some y → y ≠ x → no_repeats l → no_repeats (l ++ [x]).
Proof.
  induction l as [|a [|b l] IH]; intros Hl Hne Hn.
  - discriminate Hl.
  - injection Hl as ->. cbn. auto.
  - change (last (a :: b :: l)) with (last (b :: l)) in Hl.
    destruct Hn as [Hab Hn]. specialize (IH Hl Hne Hn).
    change ((a :: b :: l) ++ [x]) with (a :: (b :: l) ++ [x]).
    change (a ≠ b ∧ no_repeats ((b :: l) ++ [x])). auto.
Qed.

Lemma commit_loads_current old (m : Machine) :
  last (reloads m) = Some (deps old) → no_repeats (reloads m) →
  loads_current (commit old m).
Proof.
  intros Hl Hn. unfold Debounce.commit.
  assert (Hd : reloads (debounce_effect raw delay old m) = reloads m
               ∧ page (debounce_effect raw delay old m) = page m).
  { unfold debounce_effect. destruct (decide _); split; reflexivity. }
  destruct Hd as [D1 D2]. unfold DebounceRuns.loads_current, reload_effect.
  rewrite D2. destruct (decide (deps old = deps (page m))) as [E|E].
  - rewrite D1, D2, <- E. auto.
  - cbn [reloads page]. rewrite D1. split.
    + apply last_snoc.
    + eapply no_repeats_snoc; eauto.
Qed.

Lemma fire_loads_current t (m : Machine) : loads_current m → loads_current (fire t m).
Proof.
  intros [Hl Hn]. unfold Debounce.fire. destruct (pending (tid t) m); [|split; assumption].
  apply commit_loads_current; assumption.
Qed.

Lemma advance_loads_current dt (m : Machine) : loads_current m → loads_current (advance dt m).
Proof.
  intros Hm. unfold Debounce.advance.
  set (m0 := mkMachine (page m) (now m + dt) (timers m) (nextTimer m) (handler m)
               (fired m) (reloads m)).
  assert (H0 : loads_current m0) by exact Hm.
  clearbody m0. generalize (filter (λ x, (deadline x ≤ now m + dt)%N) (timers m)).
  intros due. revert m0 H0. induction due as [|t due IH]; intros m0 H0; [exact H0|].
  cbn [fold_left]. apply IH. now apply fire_loads_current.
Qed.

Lemma input_loads_current dt v (m : Machine) : loads_current m → loads_current (input dt v m).
Proof.
  intros Hm. apply (advance_loads_current dt) in Hm. destruct Hm as [Hl Hn].
  unfold Debounce.input. apply commit_loads_current; assumption.
Qed.

Lemma run_loads_current evs (m : Machine) : loads_current m → loads_current (run evs m).
Proof.
  revert m. induction evs as [|[dt v|dt] rest IH]; intros m Hm; [exact Hm| |];
    cbn [DebounceRuns.run DebounceRuns.step]; apply IH.
  - now apply input_loads_current.
  - now apply advance_loads_current.
Qed.

Lemma mount_loads_current st : loads_current (mount raw deps delay st).
Proof. split; [reflexivity|exact I]. Qed.

End Component.

(** X20. At every moment after the mount, whatever was typed and
    whenever, each page has at most one debounce timer pending; a
    pending timer is the one the effect's cleanup holds, it captured
    the current raw input and is due within the delay; and when none is
    pending the debounced query is the raw input. *)
Theorem at_most_one_timer (evs : list Event)
    (sc : CategoriesPage.State) (su : UsersPage.State) :
  let mc := categories_after evs sc in
  let mu := users_after evs su in
  ((length (timers mc) ≤ 1)%nat
   ∧ (∀ t, t ∈ timers mc →
        tid t = handler mc ∧ captured t = CategoriesPage.searchTerm (page mc)
        ∧ (deadline t ≤ now mc + 500)%N)
   ∧ (timers mc = [] →
      CategoriesPage.debouncedSearch (page mc) = CategoriesPage.searchTerm (page mc)))
  ∧ ((length (timers mu) ≤ 1)%nat
     ∧ (∀ t, t ∈ timers mu →
          tid t = handler mu ∧ captured t = UsersPage.searchTerm (page mu)
          ∧ (deadline t ≤ now mu + 400)%N)
     ∧ (timers mu = [] →
        UsersPage.debounced (page mu) = UsersPage.searchTerm (page mu))).
Proof.
  intros mc mu.
  assert (Hc : DebounceRuns.in_step CategoriesPage.searchTerm
                 CategoriesPage.debouncedSearch 500 mc).
  { apply (run_in_step CategoriesPage.searchTerm CategoriesPage.debouncedSearch
             CategoriesDebounce.onInput CategoriesDebounce.publish
             CategoriesDebounce.deps 500
             (λ _ _, eq_refl) (λ _ _, eq_refl) (λ _ _, eq_refl) (λ _ _, eq_refl)).
    apply mount_in_step. }
  assert (Hu : DebounceRuns.in_step UsersPage.searchTerm UsersPage.debounced 400 mu).
  { apply (run_in_step UsersPage.searchTerm UsersPage.debounced
             UsersDebounce.onInput UsersDebounce.publish UsersDebounce.deps 400
             (λ _ _, eq_refl) (λ _ _, eq_refl) (λ _ _, eq_refl) (λ _ _, eq_refl)).
    apply mount_in_step. }
  clearbody mc mu. split.
  - destruct Hc as [[Hidle Hd]|(d & Ht & Hle)].
    + rewrite Hidle. split; [cbn; lia|]. split; [|auto].
      intros t Hin. now apply elem_of_nil in Hin.
    + rewrite Ht. split; [cbn; lia|]. split; [|discriminate].
      intros t Hin. apply list_elem_of_singleton in Hin as ->. cbn. auto.
  - destruct Hu as [[Hidle Hd]|(d & Ht & Hle)].
    + rewrite Hidle. split; [cbn; lia|]. split; [|auto].
      intros t Hin. now apply elem_of_nil in Hin.
    + rewrite Ht. split; [cbn; lia|]. split; [|discriminate].
      intros t Hin. apply list_elem_of_singleton in Hin as ->. cbn. auto.
Qed.

(** X21. The debounced query always catches up: whatever happened since
    the mount, once the delay (500 ms on the categories page, 400 ms on
    the users page) has passed without an input, no timer is pending
    and the debounced query is the raw input. *)
Theorem quiet_period_catches_up (evs : list Event) (dc du : N)
    (sc : CategoriesPage.State) (su : UsersPage.State) :
  (500 ≤ dc)%N → (400 ≤ du)%N →
  let mc := CategoriesDebounce.advance dc (categories_after evs sc) in
  let mu := UsersDebounce.advance du (users_after evs su) in
  (timers mc = []
   ∧ CategoriesPage.debouncedSearch (page mc) = CategoriesPage.searchTerm (page mc))
  ∧ (timers mu = []
     ∧ UsersPage.debounced (page mu) = UsersPage.searchTerm (page mu)).
Proof.
  intros Hdc Hdu mc mu. split.
  - apply (quiet_catches_up CategoriesPage.searchTerm CategoriesPage.debouncedSearch
             CategoriesDebounce.publish CategoriesDebounce.deps 500
             (λ _ _, eq_refl) (λ _ _, eq_refl)); [|exact Hdc].
    apply (run_in_step CategoriesPage.searchTerm CategoriesPage.debouncedSearch
             CategoriesDebounce.onInput CategoriesDebounce.publish
             CategoriesDebounce.deps 500
             (λ _ _, eq_refl) (λ _ _, eq_refl) (λ _ _, eq_refl) (λ _ _, eq_refl)).
    apply mount_in_step.
  - apply (quiet_catches_up UsersPage.searchTerm UsersPage.debounced
             UsersDebounce.publish UsersDebounce.deps 400
             (λ _ _, eq_refl) (λ _ _, eq_refl)); [|exact Hdu].
    apply (run_in_step UsersPage.searchTerm UsersPage.debounced
             UsersDebounce.onInput UsersDebounce.publish UsersDebounce.deps 400
             (λ _ _, eq_refl) (λ _ _, eq_refl) (λ _ _, eq_refl) (λ _ _, eq_refl)).
    apply mount_in_step.
Qed.

Lemma quiet_period_catches_up_witness :
  let mc := CategoriesDebounce.advance 500
              (categories_after [Input 10 "a"; Wait 200; Input 30 "ab"]
                 CategoriesPage.initial) in
  CategoriesPage.debouncedSearch (page mc) = CategoriesPage.searchTerm (page mc).
Proof.
  refine (proj2 (proj1 (quiet_period_catches_up
            [Input 10 "a"; Wait 200; Input 30 "ab"] 500 400
            CategoriesPage.initial UsersPage.initial _ _))); reflexivity || lia.
Defined.

(** X25. At the unmount the cleanup clears the pending timer, if any:
    whatever happened since the mount, after the unmount no timer is
    pending, and however long one waits no timer callback runs, the
    debounced query is not published again and the loader effect makes
    no further call. *)
Theorem unmount_cancels_timer (evs : list Event) (d : N)
    (sc : CategoriesPage.State) (su : UsersPage.State) :
  let mc := unmount (categories_after evs sc) in
  let mu := unmount (users_after evs su) in
  (timers mc = []
   ∧ fired (CategoriesDebounce.advance d mc) = fired (categories_after evs sc)
   ∧ reloads (CategoriesDebounce.advance d mc) = reloads (categories_after evs sc)
   ∧ page (CategoriesDebounce.advance d mc) = page (categories_after evs sc))
  ∧ (timers mu = []
     ∧ fired (UsersDebounce.advance d mu) = fired (users_after evs su)
     ∧ reloads (UsersDebounce.advance d mu) = reloads (users_after evs su)
     ∧ page (UsersDebounce.advance d mu) = page (users_after evs su)).
Proof.
  intros mc mu.
  assert (Hc : DebounceRuns.in_step CategoriesPage.searchTerm
                 CategoriesPage.debouncedSearch 500 (categories_after evs sc)).
  { apply (run_in_step CategoriesPage.searchTerm CategoriesPage.debouncedSearch
             CategoriesDebounce.onInput CategoriesDebounce.publish
             CategoriesDebounce.deps 500
             (λ _ _, eq_refl) (λ _ _, eq_refl) (λ _ _, eq_refl) (λ _ _, eq_refl)).
    apply mount_in_step. }
  assert (Hu : DebounceRuns.in_step UsersPage.searchTerm UsersPage.debounced 400
                 (users_after evs su)).
  { apply (run_in_step UsersPage.searchTerm UsersPage.debounced
             UsersDebounce.onInput UsersDebounce.publish UsersDebounce.deps 400
             (λ _ _, eq_refl) (λ _ _, eq_refl) (λ _ _, eq_refl) (λ _ _, eq_refl)).
    apply mount_in_step. }
  subst mc mu. generalize dependent (categories_after evs sc).
  generalize dependent (users_after evs su). intros mu Hu mc Hc.
  assert (Ec : timers (unmount mc) = []).
  { unfold unmount, clearTimeout. cbn [timers].
    destruct Hc as [[Hidle _]|(t & Ht & _)].
    - now rewrite Hidle.
    - rewrite Ht, filter_cons, decide_False by (cbn; tauto). reflexivity. }
  assert (Eu : timers (unmount mu) = []).
  { unfold unmount, clearTimeout. cbn [timers].
    destruct Hu as [[Hidle _]|(t & Ht & _)].
    - now rewrite Hidle.
    - rewrite Ht, filter_cons, decide_False by (cbn; tauto). reflexivity. }
  split.
  - split; [exact Ec|]. unfold CategoriesDebounce.advance, Debounce.advance.
    rewrite Ec. cbn. auto.
  - split; [exact Eu|]. unfold UsersDebounce.advance, Debounce.advance.
    rewrite Eu. cbn. auto.
Qed.

(** X22. The loader effect never calls the loader twice in a row with
    the same arguments, and the last call it made is always the one for
    the dependencies in force: the debounced query on the categories
    page, and the current page, the page size and the debounced query
    on the users page. *)
Theorem reloads_follow_dependencies (evs : list Event)
    (sc : CategoriesPage.State) (su : UsersPage.State) :
  let mc := categories_after evs sc in
  let mu := users_after evs su in
  (last (reloads mc) = Some (CategoriesPage.debouncedSearch (page mc))
   ∧ no_repeats (reloads mc))
  ∧ (last (reloads mu)
     = Some (UsersPage.currentPage (UsersPage.pagination (page mu)),
             UsersPage.itemsPerPage (UsersPage.pagination (page mu)),
             UsersPage.debounced (page mu))
     ∧ no_repeats (reloads mu)).
Proof.
  intros mc mu. split.
  - apply (run_loads_current CategoriesPage.searchTerm CategoriesDebounce.onInput
             CategoriesDebounce.publish CategoriesDebounce.deps 500).
    apply mount_loads_current.
  - apply (run_loads_current UsersPage.searchTerm UsersDebounce.onInput
             UsersDebounce.publish UsersDebounce.deps 400).
    apply mount_loads_current.
Qed.

End DebounceRunFacts.

(** ** The usage bar without quota *)

Module ZeroQuotaFacts.

Import UsersPage Usage.
Local Open Scope float_scope.

Lemma positive_over_zero wu : (0 <? wu) = true → wu / 0 = infinity.
Proof.
  intros H. rewrite <- (SF2Prim_Prim2SF (wu / 0)), FloatAxioms.div_spec.
  rewrite FloatAxioms.ltb_spec in H.
  change (Prim2SF 0) with (S754_zero false) in *.
  destruct (Prim2SF wu) as [s|s| |s m e]; cbn in H; try discriminate;
    destruct s; try discriminate; reflexivity.
Qed.

(** X23. The division by [totalWords] is not guarded.  For a user with
    [totalWords] 0 and some words used the bar is full (width 100) and
    the printed percentage is Infinity; with no words used either, both
    the width and the printed percentage are NaN. *)
Theorem zero_quota_usage (u : AdminUser) :
  totalWords u = 0 →
  ((0 <? wordsUsed u) = true →
   usage_width u = 100 ∧ usage_text u = infinity)
  ∧ (wordsUsed u = 0 →
     is_nan (usage_width u) = true ∧ is_nan (usage_text u) = true).
Proof.
  intros Htw. unfold usage_width, usage_text. rewrite Htw. split.
  - intros Hwu. rewrite (positive_over_zero _ Hwu). split; reflexivity.
  - intros ->. split; reflexivity.
Qed.

Lemma zero_quota_usage_witness :
  usage_width MoreSamples.no_quota = 100 ∧ usage_text MoreSamples.no_quota = infinity.
Proof.
  exact (proj1 (zero_quota_usage MoreSamples.no_quota eq_refl) eq_refl).
Defined.

End ZeroQuotaFacts.

(** ** Bursts on the two pages *)

Module PageRunFacts.

Import Debounce PageRuns.

Lemma last_shift (l : list string) (v v' : string) :
  List.last (v' :: l) v = List.last l v'.
Proof.
  revert v v'. induction l as [|x l IH]; intros v v'; [reflexivity|].
  change (List.last (v' :: x :: l) v) with (List.last (x :: l) v).
  now rewrite (IH v x), (IH v' x).
Qed.

Section Component.

Context {St Dep Resp Action : Type} `{EqDecision Dep}.
Variable raw : St → string.
Variable onInput : string → St → St.
Variable publish : string → St → St.
Variable deps : St → Dep.
Variable delay : N.
Variable issue : St → St.
Variable receive : Resp → St → St.
Variable act : Action → St → St.

Hypothesis raw_onInput : ∀ v st, raw (onInput v st) = v.
Hypothesis raw_publish : ∀ v st, raw (publish v st) = raw st.
Hypothesis raw_issue : ∀ st, raw (issue st) = raw st.
Hypothesis raw_receive : ∀ r st, raw (receive r st) = raw st.
Hypothesis raw_act : ∀ a st, raw (act a st) = raw st.

Abbreviation Machine := (@Machine St Dep).
Abbreviation step := (step raw onInput publish deps delay issue receive act).
Abbreviation run := (run raw onInput publish deps delay issue receive act).
Abbreviation advance := (Debounce.advance raw publish deps delay).
Abbreviation input := (Debounce.input raw onInput publish deps delay).
Abbreviation update := (update raw deps delay).
Abbreviation started := (started issue).
Abbreviation tidy := (tidy raw).

(** The loader call, if any, that a render makes. *)
Abbreviation reload_for old new :=
  (if decide (deps old = deps new) then [] else [deps new]).

Lemma started_fields (b a : Machine) :
  timers (started b a) = timers a ∧ now (started b a) = now a
  ∧ handler (started b a) = handler a ∧ nextTimer (started b a) = nextTimer a
  ∧ fired (started b a) = fired a ∧ reloads (started b a) = reloads a
  ∧ raw (page (started b a)) = raw (page a).
Proof.
  unfold PageRuns.started. destruct (decide _); cbn; rewrite ?raw_issue;
    repeat split; reflexivity.
Qed.

Lemma started_page (P : St → Prop) (b a : Machine) :
  (∀ st, P st → P (issue st)) → P (page a) → P (page (started b a)).
Proof.
  intros HP Ha. unfold PageRuns.started. destruct (decide _); cbn; auto.
Qed.

Lemma update_fields (f : St → St) (m : Machine) :
  raw (f (page m)) = raw (page m) →
  let m' := update f m in
  timers m' = timers m ∧ now m' = now m ∧ handler m' = handler m
  ∧ nextTimer m' = nextTimer m ∧ fired m' = fired m ∧ page m' = f (page m)
  ∧ reloads m' = reloads m ++ reload_for (page m) (f (page m)).
Proof.
  intros Hraw. cbn zeta. unfold PageRuns.update, commit, debounce_effect, with_page.
  cbn [page]. rewrite decide_True by (symmetry; exact Hraw).
  unfold reload_effect. cbn [page].
  destruct (decide _); cbn; rewrite ?app_nil_r; repeat split; reflexivity.
Qed.

Lemma commit_input v (m1 : Machine) :
  tidy m1 → v ≠ raw (page m1) →
  let m' := commit raw deps delay (page m1) (with_page (onInput v (page m1)) m1) in
  timers m' = [mkTimer (handler m') (now m1 + delay) v]
  ∧ now m' = now m1 ∧ fired m' = fired m1 ∧ page m' = onInput v (page m1)
  ∧ reloads m' = reloads m1 ++ reload_for (page m1) (onInput v (page m1)).
Proof.
  intros Ht Hne. cbn zeta. unfold commit, debounce_effect, with_page.
  cbn [page]. rewrite raw_onInput. rewrite decide_False by congruence.
  assert (Hclear : filter (λ t, tid t ≠ handler m1) (timers m1) = []).
  { destruct Ht as [->|[d ->]]; [reflexivity|].
    rewrite filter_cons, decide_False by (cbn; tauto). reflexivity. }
  unfold setTimeout, clearTimeout.
  cbn [timers page now handler nextTimer fired reloads]. rewrite Hclear.
  unfold reload_effect. cbn [page].
  destruct (decide _); cbn; rewrite ?app_nil_r; repeat split; reflexivity.
Qed.

Lemma input_same v (m1 : Machine) :
  tidy m1 → v = raw (page m1) →
  tidy (commit raw deps delay (page m1) (with_page (onInput v (page m1)) m1)).
Proof.
  intros Ht ->. unfold commit, debounce_effect, with_page. cbn [page].
  rewrite raw_onInput. rewrite decide_True by reflexivity.
  unfold reload_effect, PageRuns.tidy. cbn [page].
  destruct (decide _); cbn; rewrite raw_onInput; exact Ht.
Qed.

Lemma advance_none dt (m : Machine) :
  timers m = [] →
  advance dt m = mkMachine (page m) (now m + dt) [] (nextTimer m) (handler m)
                   (fired m) (reloads m).
Proof. intros Ht. unfold Debounce.advance. rewrite Ht. reflexivity. Qed.

Lemma advance_one dt h d v (m : Machine) :
  timers m = [mkTimer h d v] → raw (page m) = v →
  let m' := advance dt m in
  now m' = (now m + dt)%N ∧ handler m' = handler m ∧ nextTimer m' = nextTimer m
  ∧ if decide (d ≤ now m + dt)%N
    then timers m' = [] ∧ page m' = publish v (page m)
         ∧ fired m' = fired m ++ [(d, v)]
         ∧ reloads m' = reloads m ++ reload_for (page m) (publish v (page m))
    else timers m' = timers m ∧ page m' = page m
         ∧ fired m' = fired m ∧ reloads m' = reloads m.
Proof.
  intros Ht Hraw. cbn zeta. unfold Debounce.advance. rewrite Ht.
  rewrite filter_cons. cbn [deadline].
  destruct (decide (d ≤ now m + dt)%N) as [Hdue|Hnot].
  - rewrite filter_nil. cbn [fold_left].
    unfold Debounce.fire, pending. cbn [timers tid page].
    rewrite bool_decide_eq_true_2 by (constructor; reflexivity).
    cbn [captured]. rewrite filter_cons, decide_False by (cbn; tauto).
    rewrite filter_nil. unfold Debounce.commit, debounce_effect. cbn [page].
    rewrite decide_True by (symmetry; apply raw_publish).
    cbn [page now timers nextTimer handler fired reloads deadline captured tid].
    unfold reload_effect. cbn [page].
    destruct (decide _); cbn; rewrite ?app_nil_r; repeat split; reflexivity.
  - rewrite filter_nil. cbn [fold_left now handler timers page fired reloads nextTimer].
    repeat split; reflexivity.
Qed.

Lemma advance_tidy dt (m : Machine) :
  tidy m → tidy (advance dt m) ∧ raw (page (advance dt m)) = raw (page m).
Proof.
  intros [Ht|[d Ht]].
  - rewrite advance_none by exact Ht. split; [left|]; reflexivity.
  - destruct (advance_one dt _ _ _ m Ht eq_refl) as (Hn & Hh & _ & Hcase).
    destruct (decide _).
    + destruct Hcase as (H1 & H2 & _). split; [left; exact H1|].
      now rewrite H2, raw_publish.
    + destruct Hcase as (H1 & H2 & _). split; [|now rewrite H2].
      right. exists d. now rewrite H1, H2, Hh.
Qed.

Lemma step_tidy e (m : Machine) : tidy m → tidy (step e m).
Proof.
  intros Hm. unfold PageRuns.step.
  match goal with |- tidy (started m ?a) => assert (Ha : tidy a) end.
  { destruct e as [dt v|dt|r|a].
    - destruct (advance_tidy dt m Hm) as [H1 H2].
      unfold Debounce.input.
      destruct (decide (v = raw (page (advance dt m)))) as [E|E].
      + now apply input_same.
      + destruct (commit_input v _ H1 E) as (T & _ & _ & P & _).
        right. eexists. rewrite T at 1. rewrite P, raw_onInput. reflexivity.
    - apply (advance_tidy dt m Hm).
    - destruct (update_fields (receive r) m (raw_receive _ _))
        as (T & _ & Hh & _ & _ & P & _).
      unfold PageRuns.tidy. rewrite T, Hh, P, raw_receive. exact Hm.
    - destruct (update_fields (act a) m (raw_act _ _))
        as (T & _ & Hh & _ & _ & P & _).
      unfold PageRuns.tidy. rewrite T, Hh, P, raw_act. exact Hm. }
  match goal with |- tidy (started m ?a) =>
    destruct (started_fields m a) as (T & _ & Hh & _ & _ & _ & R) end.
  unfold PageRuns.tidy. rewrite T, Hh, R. exact Ha.
Qed.

Lemma run_tidy evs (m : Machine) : tidy m → tidy (run evs m).
Proof.
  revert m. induction evs as [|e rest IH]; intros m Hm; [exact Hm|].
  cbn [PageRuns.run]. apply IH. now apply step_tidy.
Qed.

Lemma mount_tidy st : tidy (mount raw deps delay issue st).
Proof. right. exists delay. cbn. now rewrite raw_issue. Qed.

(** *** A burst, from its first input on

    [key d st]: the loader's dependencies in [st] are [mk d], the ones
    for the debounced query [d]; the answers [allowed] keep it so. *)

Variable key : string → St → Prop.
Variable mk : string → Dep.
Variable allowed : Resp → Prop.
Variable allowed_act : Action → Prop.

Hypothesis key_deps : ∀ d st, key d st → deps st = mk d.
Hypothesis key_onInput : ∀ d v st, key d st → key d (onInput v st).
Hypothesis key_issue : ∀ d st, key d st → key d (issue st).
Hypothesis key_publish : ∀ d v st, key d st → key v (publish v st).
Hypothesis key_receive : ∀ d r st, allowed r → key d st → key d (receive r st).
Hypothesis key_act : ∀ d a st, allowed_act a → key d st → key d (act a st).

Abbreviation waiting := (waiting raw delay key).
Abbreviation settled := (settled raw key).

Lemma reload_for_key d d' st st' :
  key d st → key d' st' →
  reload_for st st' = if decide (mk d = mk d') then [] else [mk d'].
Proof.
  intros K K'. rewrite (key_deps _ _ K), (key_deps _ _ K'). reflexivity.
Qed.

Lemma reload_for_same d st st' : key d st → key d st' → reload_for st st' = [].
Proof.
  intros K K'. rewrite (reload_for_key _ _ _ _ K K').
  now rewrite decide_True by reflexivity.
Qed.

Ltac started_facts :=
  match goal with
  | |- context [started ?b ?a] =>
      let T := fresh "T" in let N := fresh "N" in let Hh := fresh "Hh" in
      let F := fresh "F" in let R := fresh "R" in let P := fresh "P" in
      destruct (started_fields b a) as (T & N & Hh & _ & F & R & P);
      rewrite ?T, ?N, ?Hh, ?F, ?R, ?P
  end.

Lemma wait_early dt (m : Machine) v d0 t :
  waiting m v d0 t → (now m + dt < t + delay)%N →
  let m1 := step (Wait dt) m in
  waiting m1 v d0 t ∧ now m1 = (now m + dt)%N
  ∧ fired m1 = fired m ∧ reloads m1 = reloads m.
Proof.
  intros (Ht & Hr & Hk & H1 & H2) Hearly. cbn zeta.
  unfold PageRuns.step, PageRuns.waiting.
  destruct (advance_one dt _ _ _ m Ht Hr) as (Hn & Hh & _ & Hcase).
  rewrite decide_False in Hcase by lia. destruct Hcase as (C1 & C2 & C3 & C4).
  assert (K : key d0 (page (started m (advance dt m)))).
  { apply started_page; [apply key_issue|]. now rewrite C2. }
  started_facts.
  rewrite ?C1, ?Hh, ?C2, ?Hn, ?C3, ?C4, ?Ht.
  repeat split; try assumption; try reflexivity; lia.
Qed.

Lemma wait_late dt (m : Machine) v d0 t :
  waiting m v d0 t → (t + delay ≤ now m + dt)%N →
  let m1 := step (Wait dt) m in
  settled m1 v ∧ now m1 = (now m + dt)%N
  ∧ fired m1 = fired m ++ [((t + delay)%N, v)]
  ∧ reloads m1 = reloads m ++ (if decide (mk d0 = mk v) then [] else [mk v]).
Proof.
  intros (Ht & Hr & Hk & H1 & H2) Hlate. cbn zeta.
  unfold PageRuns.step, PageRuns.settled.
  destruct (advance_one dt _ _ _ m Ht Hr) as (Hn & Hh & _ & Hcase).
  rewrite decide_True in Hcase by lia. destruct Hcase as (C1 & C2 & C3 & C4).
  assert (K : key v (page (started m (advance dt m)))).
  { apply started_page; [apply key_issue|]. rewrite C2. now apply (key_publish d0). }
  started_facts.
  rewrite C1, C2, Hn, C3, C4, raw_publish.
  rewrite (reload_for_key d0 v) by (try assumption; now apply (key_publish d0)).
  repeat split; try assumption; reflexivity.
Qed.

Lemma answer_waiting r (m : Machine) v d0 t :
  waiting m v d0 t → allowed r →
  let m1 := step (Answer r) m in
  waiting m1 v d0 t ∧ now m1 = now m
  ∧ fired m1 = fired m ∧ reloads m1 = reloads m.
Proof.
  intros (Ht & Hr & Hk & H1 & H2) Hok. cbn zeta.
  unfold PageRuns.step, PageRuns.waiting.
  destruct (update_fields (receive r) m (raw_receive _ _))
    as (C1 & Hn & Hh & _ & C3 & C2 & C4).
  rewrite (reload_for_same d0) in C4 by (try assumption; now apply key_receive).
  rewrite app_nil_r in C4.
  assert (K : key d0 (page (started m (update (receive r) m)))).
  { apply started_page; [apply key_issue|]. rewrite C2. now apply key_receive. }
  started_facts.
  rewrite ?C1, ?Hh, ?C2, ?Hn, ?C3, ?C4, ?Ht, ?raw_receive.
  repeat split; try assumption; reflexivity.
Qed.

Lemma input_waiting dt v' (m : Machine) v d0 t :
  waiting m v d0 t → (now m + dt < t + delay)%N → v' ≠ v →
  let m1 := step (Input dt v') m in
  waiting m1 v' d0 (now m + dt)%N ∧ now m1 = (now m + dt)%N
  ∧ fired m1 = fired m ∧ reloads m1 = reloads m.
Proof.
  intros (Ht & Hr & Hk & H1 & H2) Hearly Hne. cbn zeta.
  unfold PageRuns.step, PageRuns.waiting.
  destruct (advance_one dt _ _ _ m Ht Hr) as (Hn & Hh & _ & Hcase).
  rewrite decide_False in Hcase by lia. destruct Hcase as (C1 & C2 & C3 & C4).
  assert (Htidy : tidy (advance dt m)).
  { right. exists (t + delay)%N. now rewrite C1, Hh, C2, Hr. }
  unfold Debounce.input.
  destruct (commit_input v' (advance dt m) Htidy) as (D1 & D2 & D3 & D4 & D5).
  { rewrite C2. congruence. }
  rewrite (reload_for_same d0) in D5
    by (rewrite C2; try assumption; now apply key_onInput).
  rewrite app_nil_r in D5.
  match goal with |- context [started m ?a] =>
    assert (K : key d0 (page (started m a))) end.
  { apply started_page; [apply key_issue|]. rewrite D4, C2. now apply key_onInput. }
  started_facts.
  rewrite D1, D2, D3, D4, D5, Hn, C3, C4, raw_onInput.
  repeat split; try assumption; try reflexivity; lia.
Qed.

Lemma wait_settled dt (m : Machine) v :
  settled m v →
  let m1 := step (Wait dt) m in
  settled m1 v ∧ now m1 = (now m + dt)%N
  ∧ fired m1 = fired m ∧ reloads m1 = reloads m.
Proof.
  intros (Ht & Hr & Hk). cbn zeta. unfold PageRuns.step, PageRuns.settled.
  rewrite (advance_none dt m Ht).
  match goal with |- context [started m ?a] =>
    assert (K : key v (page (started m a))) end.
  { apply started_page; [apply key_issue|]. exact Hk. }
  started_facts. cbn. repeat split; try assumption; reflexivity.
Qed.

Lemma answer_settled r (m : Machine) v :
  settled m v → allowed r →
  let m1 := step (Answer r) m in
  settled m1 v ∧ now m1 = now m
  ∧ fired m1 = fired m ∧ reloads m1 = reloads m.
Proof.
  intros (Ht & Hr & Hk) Hok. cbn zeta. unfold PageRuns.step, PageRuns.settled.
  destruct (update_fields (receive r) m (raw_receive _ _))
    as (C1 & Hn & Hh & _ & C3 & C2 & C4).
  rewrite (reload_for_same v) in C4 by (try assumption; now apply key_receive).
  rewrite app_nil_r in C4.
  assert (K : key v (page (started m (update (receive r) m)))).
  { apply started_page; [apply key_issue|]. rewrite C2. now apply key_receive. }
  started_facts.
  rewrite C1, C2, Hn, C3, C4, raw_receive.
  repeat split; try assumption; reflexivity.
Qed.

Lemma act_waiting a (m : Machine) v d0 t :
  waiting m v d0 t → allowed_act a →
  let m1 := step (Act a) m in
  waiting m1 v d0 t ∧ now m1 = now m
  ∧ fired m1 = fired m ∧ reloads m1 = reloads m.
Proof.
  intros (Ht & Hr & Hk & H1 & H2) Hok. cbn zeta.
  unfold PageRuns.step, PageRuns.waiting.
  destruct (update_fields (act a) m (raw_act _ _))
    as (C1 & Hn & Hh & _ & C3 & C2 & C4).
  rewrite (reload_for_same d0) in C4 by (try assumption; now apply key_act).
  rewrite app_nil_r in C4.
  assert (K : key d0 (page (started m (update (act a) m)))).
  { apply started_page; [apply key_issue|]. rewrite C2. now apply key_act. }
  started_facts.
  rewrite ?C1, ?Hh, ?C2, ?Hn, ?C3, ?C4, ?Ht, ?raw_act.
  repeat split; try assumption; reflexivity.
Qed.

Lemma act_settled a (m : Machine) v :
  settled m v → allowed_act a →
  let m1 := step (Act a) m in
  settled m1 v ∧ now m1 = now m
  ∧ fired m1 = fired m ∧ reloads m1 = reloads m.
Proof.
  intros (Ht & Hr & Hk) Hok. cbn zeta. unfold PageRuns.step, PageRuns.settled.
  destruct (update_fields (act a) m (raw_act _ _))
    as (C1 & Hn & Hh & _ & C3 & C2 & C4).
  rewrite (reload_for_same v) in C4 by (try assumption; now apply key_act).
  rewrite app_nil_r in C4.
  assert (K : key v (page (started m (update (act a) m)))).
  { apply started_page; [apply key_issue|]. rewrite C2. now apply key_act. }
  started_facts.
  rewrite C1, C2, Hn, C3, C4, raw_act.
  repeat split; try assumption; reflexivity.
Qed.

Hypothesis delay_pos : (0 < delay)%N.

Lemma first_input dt v (m : Machine) d0 :
  tidy m → v ≠ raw (page m) →
  key d0 (onInput v (page (advance dt m))) →
  let m0 := advance dt m in
  let m1 := step (Input dt v) m in
  waiting m1 v d0 (now m1) ∧ now m1 = (now m + dt)%N
  ∧ fired m1 = fired m0
  ∧ reloads m1 = reloads m0 ++ reload_for (page m0) (onInput v (page m0)).
Proof.
  intros Hm Hne Hk. cbn zeta. unfold PageRuns.step, PageRuns.waiting.
  destruct (advance_tidy dt m Hm) as [Htidy Hraw].
  assert (Hnow : now (advance dt m) = (now m + dt)%N).
  { destruct Hm as [Ht|[d Ht]].
    - now rewrite advance_none by exact Ht.
    - now destruct (advance_one dt _ _ _ m Ht eq_refl) as (Hn & _). }
  unfold Debounce.input.
  destruct (commit_input v (advance dt m) Htidy) as (D1 & D2 & D3 & D4 & D5).
  { congruence. }
  match goal with |- context [started m ?a] =>
    assert (K : key d0 (page (started m a))) end.
  { apply started_page; [apply key_issue|]. now rewrite D4. }
  started_facts.
  rewrite D1, D2, D3, D4, D5, Hnow, raw_onInput.
  repeat split; try assumption; try reflexivity; lia.
Qed.

Lemma rapid_late_no_inputs (evs : list (Event Resp Action)) s :
  rapid_events delay s evs → (delay ≤ s)%N → typed_values evs = [].
Proof.
  revert s. induction evs as [|[dt v|dt|r|a] rest IH]; intros s Hr Hs;
    cbn [rapid_events typed_values] in *.
  - reflexivity.
  - lia.
  - apply (IH (s + dt)%N); [exact Hr|lia].
  - now apply (IH s).
  - now apply (IH s).
Qed.

Lemma rapid_before_input (p q : list (Event Resp Action)) dt v s :
  rapid_events delay s (p ++ Input dt v :: q) → (s < delay)%N.
Proof.
  revert s. induction p as [|[dt' v'|dt'|r|a] p IH]; intros s Hr;
    cbn [app rapid_events] in Hr.
  - lia.
  - lia.
  - apply IH in Hr. lia.
  - now apply IH.
  - now apply IH.
Qed.

Lemma settled_run (evs : list (Event Resp Action)) :
  ∀ (m : Machine) v s,
  settled m v → typed_values evs = [] →
  Forall allowed (answers evs) → Forall allowed_act (acts evs) →
  let m' := run evs m in
  settled m' v ∧ fired m' = fired m ∧ reloads m' = reloads m
  ∧ (idle_time s evs + now m = s + now m')%N.
Proof.
  induction evs as [|[dt v'|dt|r|a] rest IH]; intros m v s Hm Hty Hal Hna;
    cbn [typed_values answers acts idle_time PageRuns.run] in *.
  - repeat split; try apply Hm; reflexivity.
  - discriminate Hty.
  - destruct (wait_settled dt m v Hm) as (S1 & N1 & F1 & R1).
    destruct (IH _ v (s + dt)%N S1 Hty Hal Hna) as (S2 & F2 & R2 & I2).
    cbn zeta in *. rewrite F2, R2, F1, R1. repeat split; try apply S2. lia.
  - apply Forall_cons in Hal as [Hr Hal].
    destruct (answer_settled r m v Hm Hr) as (S1 & N1 & F1 & R1).
    destruct (IH _ v s S1 Hty Hal Hna) as (S2 & F2 & R2 & I2).
    cbn zeta in *. rewrite F2, R2, F1, R1. repeat split; try apply S2. lia.
  - apply Forall_cons in Hna as [Ha Hna].
    destruct (act_settled a m v Hm Ha) as (S1 & N1 & F1 & R1).
    destruct (IH _ v s S1 Hty Hal Hna) as (S2 & F2 & R2 & I2).
    cbn zeta in *. rewrite F2, R2, F1, R1. repeat split; try apply S2. lia.
Qed.

(** From a pending timer on: the rest of the burst and the quiet
    period after it. *)
Lemma burst_settles (rest : list (Event Resp Action)) :
  ∀ (m : Machine) v d0 t,
  waiting m v d0 t →
  rapid_events delay (now m - t) rest →
  Forall allowed (answers rest) → Forall allowed_act (acts rest) →
  changing v (typed_values rest) →
  (delay ≤ idle_time (now m - t) rest)%N →
  let m' := run rest m in
  let vlast := List.last (typed_values rest) v in
  settled m' vlast
  ∧ (∃ T, fired m' = fired m ++ [(T, vlast)]
          ∧ (T + idle_time (now m - t) rest = now m' + delay)%N)
  ∧ reloads m' = reloads m ++ (if decide (mk d0 = mk vlast) then [] else [mk vlast]).
Proof.
  induction rest as [|[dt v'|dt|r|a] rest IH]; intros m v d0 t Hm Hr Hal Hna Hch Hq;
    cbn [rapid_events typed_values answers acts idle_time PageRuns.run
         changing] in *.
  - destruct Hm as (_ & _ & _ & H1 & H2). lia.
  - destruct Hr as [Hdt Hr]. destruct Hch as [Hne Hch].
    pose proof Hm as (_ & _ & _ & H1 & H2).
    destruct (input_waiting dt v' m v d0 t Hm) as (W1 & N1 & F1 & R1);
      [lia|exact Hne|].
    cbn zeta in *.
    assert (E : (now (step (Input dt v') m) - (now m + dt) = 0)%N) by lia.
    destruct (IH _ v' d0 (now m + dt)%N W1) as (S2 & (T & F2 & I2) & R2);
      rewrite ?E; try assumption.
    rewrite E in I2. rewrite F1 in F2. rewrite R1 in R2.
    rewrite last_shift. split; [exact S2|]. split; [|exact R2].
    exists T. split; [exact F2|exact I2].
  - pose proof Hm as (_ & _ & _ & H1 & H2).
    destruct (decide (now m + dt < t + delay)%N) as [Hearly|Hlate].
    + destruct (wait_early dt m v d0 t Hm Hearly) as (W1 & N1 & F1 & R1).
      cbn zeta in *.
      assert (E : (now (step (Wait dt) m) - t = now m - t + dt)%N) by lia.
      destruct (IH _ v d0 t W1) as (S2 & (T & F2 & I2) & R2);
        rewrite ?E; try assumption.
      rewrite E in I2. rewrite F1 in F2. rewrite R1 in R2.
      split; [exact S2|]. split; [|exact R2].
      exists T. split; [exact F2|exact I2].
    + destruct (wait_late dt m v d0 t Hm) as (S1 & N1 & F1 & R1); [lia|].
      cbn zeta in *.
      assert (Hty : typed_values rest = []).
      { apply (rapid_late_no_inputs rest (now m - t + dt)%N); [exact Hr|lia]. }
      destruct (settled_run rest _ v (now m - t + dt)%N S1 Hty Hal Hna)
        as (S2 & F2 & R2 & I2).
      cbn zeta in *. rewrite Hty. cbn [List.last].
      split; [exact S2|]. split; [|now rewrite R2, R1].
      exists (t + delay)%N. split; [now rewrite F2, F1|]. lia.
  - apply Forall_cons in Hal as [Hok Hal].
    destruct (answer_waiting r m v d0 t Hm Hok) as (W1 & N1 & F1 & R1).
    cbn zeta in *.
    destruct (IH _ v d0 t W1) as (S2 & (T & F2 & I2) & R2);
      rewrite ?N1; try assumption.
    rewrite N1 in I2. rewrite F1 in F2. rewrite R1 in R2.
    split; [exact S2|]. split; [|exact R2].
    exists T. split; [exact F2|exact I2].
  - apply Forall_cons in Hna as [Ha Hna].
    destruct (act_waiting a m v d0 t Hm Ha) as (W1 & N1 & F1 & R1).
    cbn zeta in *.
    destruct (IH _ v d0 t W1) as (S2 & (T & F2 & I2) & R2);
      rewrite ?N1; try assumption.
    rewrite N1 in I2. rewrite F1 in F2. rewrite R1 in R2.
    split; [exact S2|]. split; [|exact R2].
    exists T. split; [exact F2|exact I2].
Qed.

(** During the burst: after each input its timer alone is pending,
    and nothing has fired or been loaded since the first input. *)
Lemma burst_prefix_waiting (p : list (Event Resp Action)) :
  ∀ (m : Machine) v d0 t dt v' q,
  waiting m v d0 t →
  rapid_events delay (now m - t) (p ++ Input dt v' :: q) →
  Forall allowed (answers (p ++ Input dt v' :: q)) →
  Forall allowed_act (acts (p ++ Input dt v' :: q)) →
  changing v (typed_values (p ++ Input dt v' :: q)) →
  let m' := run (p ++ [Input dt v']) m in
  waiting m' v' d0 (now m') ∧ fired m' = fired m ∧ reloads m' = reloads m.
Proof.
  induction p as [|[dt1 v1|dt1|r|a] p IH]; intros m v d0 t dt v' q Hm Hr Hal Hna Hch;
    cbn [app rapid_events typed_values answers acts PageRuns.run changing] in *.
  - destruct Hr as [Hdt _]. destruct Hch as [Hne _].
    pose proof Hm as (_ & _ & _ & H1 & H2).
    destruct (input_waiting dt v' m v d0 t Hm) as (W1 & N1 & F1 & R1);
      [lia|exact Hne|].
    cbn zeta in *. rewrite N1. auto.
  - destruct Hr as [Hdt Hr]. destruct Hch as [Hne Hch].
    pose proof Hm as (_ & _ & _ & H1 & H2).
    destruct (input_waiting dt1 v1 m v d0 t Hm) as (W1 & N1 & F1 & R1);
      [lia|exact Hne|].
    cbn zeta in *.
    assert (E : (now (step (Input dt1 v1) m) - (now m + dt1) = 0)%N) by lia.
    destruct (IH _ v1 d0 (now m + dt1)%N dt v' q W1) as (W2 & F2 & R2);
      rewrite ?E; try assumption.
    rewrite F2, R2, F1, R1. auto.
  - pose proof Hm as (_ & _ & _ & H1 & H2).
    pose proof (rapid_before_input _ _ _ _ _ Hr) as Hs.
    destruct (wait_early dt1 m v d0 t Hm) as (W1 & N1 & F1 & R1); [lia|].
    cbn zeta in *.
    assert (E : (now (step (Wait dt1) m) - t = now m - t + dt1)%N) by lia.
    destruct (IH _ v d0 t dt v' q W1) as (W2 & F2 & R2);
      rewrite ?E; try assumption.
    rewrite F2, R2, F1, R1. auto.
  - apply Forall_cons in Hal as [Hok Hal].
    destruct (answer_waiting r m v d0 t Hm Hok) as (W1 & N1 & F1 & R1).
    cbn zeta in *.
    destruct (IH _ v d0 t dt v' q W1) as (W2 & F2 & R2);
      rewrite ?N1; try assumption.
    rewrite F2, R2, F1, R1. auto.
  - apply Forall_cons in Hna as [Ha Hna].
    destruct (act_waiting a m v d0 t Hm Ha) as (W1 & N1 & F1 & R1).
    cbn zeta in *.
    destruct (IH _ v d0 t dt v' q W1) as (W2 & F2 & R2);
      rewrite ?N1; try assumption.
    rewrite F2, R2, F1, R1. auto.
Qed.

(** A whole burst, typed on a page with at most its own timer
    pending, and the quiet period after it. *)
Lemma burst_on_page (m : Machine) dt v (rest : list (Event Resp Action)) d0 :
  tidy m →
  key d0 (onInput v (page (advance dt m))) →
  Forall allowed_act (acts rest) → rapid_events delay 0 rest →
  changing (raw (page m)) (v :: typed_values rest) →
  (delay ≤ idle_time 0 rest)%N →
  Forall allowed (answers rest) →
  let m0 := advance dt m in
  let burst := Input dt v :: rest in
  let first := reload_for (page m0) (onInput v (page m0)) in
  let vlast := List.last (typed_values burst) (raw (page m)) in
  let m' := run burst m in
  (∀ p dt' v' q, burst = p ++ Input dt' v' :: q →
     let mp := run (p ++ [Input dt' v']) m in
     timers mp = [mkTimer (handler mp) (now mp + delay) v']
     ∧ fired mp = fired m0 ∧ reloads mp = reloads m0 ++ first)
  ∧ settled m' vlast
  ∧ (∃ T, fired m' = fired m0 ++ [(T, vlast)]
          ∧ (T + idle_time 0 rest = now m' + delay)%N)
  ∧ reloads m' = reloads m0 ++ first
                 ++ (if decide (mk d0 = mk vlast) then [] else [mk vlast]).
Proof.
  intros Hm Hk Hna Hr [Hne Hch] Hq Hal. cbn zeta.
  destruct (first_input dt v m d0 Hm Hne Hk) as (W1 & N1 & F1 & R1).
  cbn zeta in *.
  assert (E : (now (step (Input dt v) m) - now (step (Input dt v) m) = 0)%N) by lia.
  split; [|cbn [typed_values PageRuns.run]; rewrite last_shift].
  - intros [|e p] dt' v' q Hsplit; cbn [app] in Hsplit.
    + injection Hsplit as -> -> _. cbn [app PageRuns.run].
      destruct W1 as (T1 & _). auto.
    + injection Hsplit as <- ->. cbn [app PageRuns.run].
      destruct (burst_prefix_waiting p _ v d0 _ dt' v' q W1) as (W2 & F2 & R2);
        rewrite ?E; try assumption.
      cbn zeta in *. destruct W2 as (T2 & _). rewrite F2, R2, F1, R1. auto.
  - destruct (burst_settles rest _ v d0 _ W1) as (S2 & (T & F2 & I2) & R2);
      rewrite ?E; try assumption.
    cbn zeta in *. rewrite E in I2. rewrite F1 in F2. rewrite R1, <- app_assoc in R2.
    split; [exact S2|]. split; [|exact R2]. exists T. auto.
Qed.

End Component.

End PageRunFacts.

Module BurstFacts.

Import Debounce PageRuns PageRunFacts.

Lemma users_receive_raw (o : Async.outcome UsersPage.UsersResponse)
    (st : UsersPage.State) :
  UsersPage.searchTerm (UsersRuns.receive o st) = UsersPage.searchTerm st.
Proof. destruct o; reflexivity. Qed.

Lemma users_act_raw (a : UsersRuns.Action) (st : UsersPage.State) :
  UsersPage.searchTerm (UsersRuns.act a st) = UsersPage.searchTerm st.
Proof. destruct a; reflexivity. Qed.

Lemma users_tidy (before : list UsersRuns.Event) (su : UsersPage.State) :
  tidy UsersPage.searchTerm (UsersRuns.run before (UsersRuns.mount su)).
Proof.
  apply (run_tidy UsersPage.searchTerm UsersDebounce.onInput UsersDebounce.publish
           UsersDebounce.deps UsersDebounce.delay UsersRuns.issue UsersRuns.receive
           UsersRuns.act (λ _ _, eq_refl) (λ _ _, eq_refl) (λ _, eq_refl)
           users_receive_raw users_act_raw).
  apply (mount_tidy UsersPage.searchTerm UsersDebounce.deps UsersDebounce.delay
           UsersRuns.issue (λ _, eq_refl)).
Qed.

Lemma users_advance_pagination dt (m : UsersDebounce.Machine) :
  tidy UsersPage.searchTerm m →
  UsersPage.pagination (page (UsersDebounce.advance dt m))
  = UsersPage.pagination (page m).
Proof.
  intros [Ht|[d Ht]]; unfold UsersDebounce.advance.
  - now rewrite advance_none by exact Ht.
  - destruct (advance_one UsersPage.searchTerm UsersDebounce.publish
                UsersDebounce.deps UsersDebounce.delay (λ _ _, eq_refl)
                dt _ _ _ m Ht eq_refl) as (_ & _ & _ & Hcase).
    destruct (decide _); destruct Hcase as (_ & -> & _); reflexivity.
Qed.

Lemma categories_receive_raw (o : Async.outcome CategoriesPage.CategoriesResponse)
    (st : CategoriesPage.State) :
  CategoriesPage.searchTerm (CategoriesRuns.receive o st)
  = CategoriesPage.searchTerm st.
Proof. destruct o; reflexivity. Qed.

Lemma categories_receive_deps (o : Async.outcome CategoriesPage.CategoriesResponse)
    (st : CategoriesPage.State) :
  CategoriesPage.debouncedSearch (CategoriesRuns.receive o st)
  = CategoriesPage.debouncedSearch st.
Proof. destruct o; reflexivity. Qed.

Lemma categories_act_raw (a : CategoriesRuns.Action) (st : CategoriesPage.State) :
  CategoriesPage.searchTerm (CategoriesRuns.act a st) = CategoriesPage.searchTerm st.
Proof. destruct a; reflexivity. Qed.

Lemma categories_tidy (before : list CategoriesRuns.Event)
    (sc : CategoriesPage.State) :
  tidy CategoriesPage.searchTerm
    (CategoriesRuns.run before (CategoriesRuns.mount sc)).
Proof.
  apply (run_tidy CategoriesPage.searchTerm CategoriesDebounce.onInput
           CategoriesDebounce.publish CategoriesDebounce.deps
           CategoriesDebounce.delay CategoriesRuns.issue CategoriesRuns.receive
           CategoriesRuns.act (λ _ _, eq_refl) (λ _ _, eq_refl) (λ _, eq_refl)
           categories_receive_raw categories_act_raw).
  apply (mount_tidy CategoriesPage.searchTerm CategoriesDebounce.deps
           CategoriesDebounce.delay CategoriesRuns.issue (λ _, eq_refl)).
Qed.

(** The dependencies of the users loader for the query [d], on page 1
    with [n] users a page. *)
Lemma users_burst (n : Z) (m : UsersDebounce.Machine) dt v
    (rest : list UsersRuns.Event) :
  tidy UsersPage.searchTerm m →
  UsersPage.itemsPerPage (UsersPage.pagination (page m)) = n →
  rapid_events 400 0 rest →
  changing (UsersPage.searchTerm (page m)) (v :: typed_values rest) →
  (400 ≤ idle_time 0 rest)%N →
  Forall (UsersRuns.keeps_page 1 n) (answers rest) →
  Forall (UsersRuns.keeps_page_click 1 n) (acts rest) →
  let m0 := UsersDebounce.advance dt m in
  let burst := Input dt v :: rest in
  let first :=
    if decide (UsersPage.currentPage (UsersPage.pagination (page m0)) = 1%Z)
    then [] else [(1%Z, n, UsersPage.debounced (page m0))] in
  let vlast := List.last (typed_values burst) (UsersPage.searchTerm (page m)) in
  let m' := UsersRuns.run burst m in
  (∀ p dt' v' q, burst = p ++ Input dt' v' :: q →
     let mp := UsersRuns.run (p ++ [Input dt' v']) m in
     timers mp = [mkTimer (handler mp) (now mp + 400) v']
     ∧ fired mp = fired m0 ∧ reloads mp = reloads m0 ++ first)
  ∧ timers m' = []
  ∧ (∃ T, fired m' = fired m0 ++ [(T, vlast)]
          ∧ (T + idle_time 0 rest = now m' + 400)%N)
  ∧ UsersPage.debounced (page m') = vlast
  ∧ reloads m' = reloads m0 ++ first
                 ++ (if decide (UsersPage.debounced (page m0) = vlast) then []
                     else [(1%Z, n, vlast)]).
Proof.
  intros Hm Hn Hr Hch Hq Hal Hna. cbn zeta.
  pose (key := λ (d : string) (st : UsersPage.State),
          UsersPage.currentPage (UsersPage.pagination st) = 1%Z
          ∧ UsersPage.itemsPerPage (UsersPage.pagination st) = n
          ∧ UsersPage.debounced st = d).
  pose proof (users_advance_pagination dt m Hm) as Hpag.
  assert (Hk : key (UsersPage.debounced (page (UsersDebounce.advance dt m)))
                 (UsersDebounce.onInput v (page (UsersDebounce.advance dt m)))).
  { unfold key. cbn. rewrite Hpag. auto. }
  pose proof (burst_on_page UsersPage.searchTerm UsersDebounce.onInput
                UsersDebounce.publish UsersDebounce.deps UsersDebounce.delay
                UsersRuns.issue UsersRuns.receive UsersRuns.act
                (λ _ _, eq_refl) (λ _ _, eq_refl) (λ _, eq_refl) users_receive_raw
                users_act_raw key (λ d, (1%Z, n, d)) (UsersRuns.keeps_page 1 n)
                (UsersRuns.keeps_page_click 1 n)) as H.
  specialize (H ltac:(intros d st (K1 & K2 & K3); unfold UsersDebounce.deps;
                      now rewrite K1, K2, K3)).
  specialize (H ltac:(intros d v0 st (K1 & K2 & K3); unfold key; cbn; auto)).
  specialize (H ltac:(intros d st K; exact K)).
  specialize (H ltac:(intros d v0 st (K1 & K2 & K3); unfold key; cbn; auto)).
  specialize (H ltac:(intros d [resp|e] st Hok (K1 & K2 & K3); unfold key; cbn;
                      [destruct Hok; auto|auto])).
  specialize (H ltac:(intros d [p|n'] st Hok (K1 & K2 & K3); unfold key; cbn;
                      [auto|destruct Hok; auto])).
  specialize (H ltac:(reflexivity) m dt v rest _ Hm Hk Hna Hr Hch Hq Hal).
  cbn zeta in H. destruct H as (H1 & (S1 & S2 & S3 & S4 & S5) & H3 & H4).
  assert (Hfirst :
    (if decide (UsersDebounce.deps (page (UsersDebounce.advance dt m))
                = UsersDebounce.deps
                    (UsersDebounce.onInput v (page (UsersDebounce.advance dt m))))
     then [] else [UsersDebounce.deps
                     (UsersDebounce.onInput v (page (UsersDebounce.advance dt m)))])
    = if decide (UsersPage.currentPage
                   (UsersPage.pagination (page (UsersDebounce.advance dt m))) = 1%Z)
      then [] else [(1%Z, n, UsersPage.debounced (page (UsersDebounce.advance dt m)))]).
  { unfold UsersDebounce.deps. cbn. rewrite Hpag, Hn.
    destruct (decide (UsersPage.currentPage (UsersPage.pagination (page m)) = 1%Z))
      as [E|E].
    - rewrite decide_True; [reflexivity|]. now rewrite E.
    - rewrite decide_False; [reflexivity|]. congruence. }
  unfold UsersDebounce.advance, UsersDebounce.delay, UsersRuns.run in *.
  rewrite Hfirst in H1, H4.
  split; [exact H1|]. split; [exact S1|]. split; [exact H3|].
  split; [exact S5|]. etrans; [exact H4|]. f_equal. f_equal.
  apply decide_ext. split; congruence.
Qed.

Lemma categories_burst (m : CategoriesDebounce.Machine) dt v
    (rest : list CategoriesRuns.Event) :
  tidy CategoriesPage.searchTerm m →
  rapid_events 500 0 rest →
  changing (CategoriesPage.searchTerm (page m)) (v :: typed_values rest) →
  (500 ≤ idle_time 0 rest)%N →
  let m0 := CategoriesDebounce.advance dt m in
  let burst := Input dt v :: rest in
  let vlast := List.last (typed_values burst) (CategoriesPage.searchTerm (page m)) in
  let m' := CategoriesRuns.run burst m in
  (∀ p dt' v' q, burst = p ++ Input dt' v' :: q →
     let mp := CategoriesRuns.run (p ++ [Input dt' v']) m in
     timers mp = [mkTimer (handler mp) (now mp + 500) v']
     ∧ fired mp = fired m0 ∧ reloads mp = reloads m0)
  ∧ timers m' = []
  ∧ (∃ T, fired m' = fired m0 ++ [(T, vlast)]
          ∧ (T + idle_time 0 rest = now m' + 500)%N)
  ∧ CategoriesPage.debouncedSearch (page m') = vlast
  ∧ reloads m' = reloads m0
                 ++ (if decide (CategoriesPage.debouncedSearch (page m0) = vlast)
                     then [] else [vlast]).
Proof.
  intros Hm Hr Hch Hq. cbn zeta.
  pose (key := λ (d : string) (st : CategoriesPage.State),
          CategoriesPage.debouncedSearch st = d).
  pose proof (burst_on_page CategoriesPage.searchTerm CategoriesDebounce.onInput
                CategoriesDebounce.publish CategoriesDebounce.deps
                CategoriesDebounce.delay
                CategoriesRuns.issue CategoriesRuns.receive CategoriesRuns.act
                (λ _ _, eq_refl) (λ _ _, eq_refl) (λ _, eq_refl)
                categories_receive_raw categories_act_raw
                key (λ d, d) (λ _, True) (λ _, True)) as H.
  specialize (H ltac:(intros d st K; exact K)).
  specialize (H ltac:(intros d v0 st K; exact K)).
  specialize (H ltac:(intros d st K; exact K)).
  specialize (H ltac:(intros d v0 st K; reflexivity)).
  specialize (H ltac:(intros d r st _ K; unfold key;
                      now rewrite categories_receive_deps)).
  specialize (H ltac:(intros d a st _ K; destruct a; exact K)).
  specialize (H ltac:(reflexivity) m dt v rest
                (CategoriesPage.debouncedSearch
                   (page (CategoriesDebounce.advance dt m)))
                Hm eq_refl).
  specialize (H ltac:(clear; induction (acts rest); constructor; auto) Hr Hch Hq).
  specialize (H ltac:(clear; induction (answers rest); constructor; auto)).
  cbn zeta in H. destruct H as (H1 & (S1 & S2 & S3) & H3 & H4).
  unfold CategoriesDebounce.advance, CategoriesDebounce.delay, CategoriesRuns.run in *.
  rewrite decide_True in H1, H4 by reflexivity.
  cbn [app] in H4.
  split; [|split; [exact S1|split; [exact H3|split; [exact S3|exact H4]]]].
  intros p dt' v' q Hs. specialize (H1 p dt' v' q Hs). cbn zeta in H1.
  now rewrite app_nil_r in H1.
Qed.

(** C1, as stated, fails in both directions.  On the categories page a
    burst that ends on the query already in force ("a", then back to
    the empty string, 100 ms apart) fires its timer once but causes no
    reload.  On the users page a burst typed while page 3 is shown
    causes two reloads: one at once, for the reset to page 1 with the
    old query, and one after the delay with the last value.  Three more
    runs show what else the reload count depends on.  An answer that
    arrives during the burst and carries another page (here that of the
    load for page 3, still under way when the burst began) is stored
    and calls the loader once more; so does a click on another page
    during the burst.  And an input that repeats the raw value does not
    schedule a new timer: the timer of the input before it fires while
    inputs still follow each other within the delay. *)
Lemma burst_reload_counts :
  let c0 := CategoriesRuns.run
              [Wait 500; Answer (Async.Resolved (CategoriesPage.mkCategoriesResponse []))]
              (CategoriesRuns.mount CategoriesPage.initial) in
  let c := CategoriesRuns.run [Input 1000 "a"; Input 100 ""; Wait 500] c0 in
  let u0 := UsersRuns.run
              [Wait 400; Answer (Async.Resolved Samples.page_1_of_5);
               Act (UsersRuns.PageChange 3);
               Answer (Async.Resolved Samples.page_3_of_5)]
              (UsersRuns.mount UsersPage.initial) in
  let u := UsersRuns.run [Input 1000 "a"; Input 100 "ab"; Wait 400] u0 in
  let late0 := UsersRuns.run
                 [Wait 400; Answer (Async.Resolved Samples.page_1_of_5);
                  Act (UsersRuns.PageChange 3)]
                 (UsersRuns.mount UsersPage.initial) in
  let late := UsersRuns.run
                [Input 100 "a"; Answer (Async.Resolved Samples.page_3_of_5);
                 Input 100 "ab"; Wait 400] late0 in
  let click := UsersRuns.run
                 [Input 1000 "a"; Act (UsersRuns.PageChange 2); Input 100 "ab";
                  Wait 400] u0 in
  let same := CategoriesRuns.run [Input 1000 "a"; Input 400 "a"; Wait 100] c0 in
  (reloads c0 = [""]
   ∧ fired c = fired c0 ++ [(2100%N, "")]
   ∧ reloads c = reloads c0)
  ∧ (reloads u0 = [(1%Z, 25%Z, ""); (3%Z, 25%Z, "")]
     ∧ fired u = fired u0 ++ [(1900%N, "ab")]
     ∧ reloads u = reloads u0 ++ [(1%Z, 25%Z, ""); (1%Z, 25%Z, "ab")])
  ∧ (reloads late
     = reloads late0 ++ [(1%Z, 25%Z, ""); (3%Z, 25%Z, ""); (1%Z, 25%Z, "");
                         (1%Z, 25%Z, "ab")])
  ∧ (reloads click
     = reloads u0 ++ [(1%Z, 25%Z, ""); (2%Z, 25%Z, ""); (1%Z, 25%Z, "");
                      (1%Z, 25%Z, "ab")])
  ∧ (now same = 2000%N ∧ fired same = fired c0 ++ [(2000%N, "a")]).
Proof. vm_compute. repeat split; reflexivity. Qed.

(** C1, amended.  Take either page in any state it can be in after its
    mount, whatever was typed, clicked and answered before.  Let a
    burst of raw inputs follow, each changing the raw value and each
    after the first coming less than the delay (500 ms on the
    categories page, 400 ms on the users page) after the one before,
    and then at least the delay without input.  Answers of loads may
    arrive and other controls may be clicked at any time in between, on
    the users page only such as leave page 1 and the page size shown as
    they are.  After every input of the burst exactly one timer is
    pending, the one that input scheduled for its value: the earlier
    one was cleared.  Since the first input no timer has fired then.
    In the end no timer is pending and exactly one has fired,
    publishing the last value of the burst as the debounced query.  The
    loader is called for the debounced query once, with the last value,
    when that value differs from the debounced query in force when the
    burst began, and not at all when it equals it.  On the users page
    the first input moreover calls the loader at once, with page 1 and
    the old query, when the page shown was not page 1. *)
Theorem debounced_burst
    (sc : CategoriesPage.State) (su : UsersPage.State)
    (before_c rest_c : list CategoriesRuns.Event)
    (before_u rest_u : list UsersRuns.Event)
    (dc du : N) (vc vu : string) :
  let mc := CategoriesRuns.run before_c (CategoriesRuns.mount sc) in
  let mu := UsersRuns.run before_u (UsersRuns.mount su) in
  let c0 := CategoriesDebounce.advance dc mc in
  let u0 := UsersDebounce.advance du mu in
  let burst_c := Input dc vc :: rest_c in
  let burst_u := Input du vu :: rest_u in
  let perPage := UsersPage.itemsPerPage (UsersPage.pagination (page mu)) in
  rapid_events 500 0 rest_c → rapid_events 400 0 rest_u →
  changing (CategoriesPage.searchTerm (page mc)) (typed_values burst_c) →
  changing (UsersPage.searchTerm (page mu)) (typed_values burst_u) →
  (500 ≤ idle_time 0 rest_c)%N → (400 ≤ idle_time 0 rest_u)%N →
  Forall (UsersRuns.keeps_page 1 perPage) (answers rest_u) →
  Forall (UsersRuns.keeps_page_click 1 perPage) (acts rest_u) →
  let last_c := List.last (typed_values burst_c) (CategoriesPage.searchTerm (page mc)) in
  let last_u := List.last (typed_values burst_u) (UsersPage.searchTerm (page mu)) in
  let c := CategoriesRuns.run burst_c mc in
  let u := UsersRuns.run burst_u mu in
  let page_reset :=
    if decide (UsersPage.currentPage (UsersPage.pagination (page u0)) = 1%Z)
    then [] else [(1%Z, perPage, UsersPage.debounced (page u0))] in
  ((∀ p dt v q, burst_c = p ++ Input dt v :: q →
      let mp := CategoriesRuns.run (p ++ [Input dt v]) mc in
      timers mp = [mkTimer (handler mp) (now mp + 500) v]
      ∧ fired mp = fired c0 ∧ reloads mp = reloads c0)
   ∧ timers c = []
   ∧ (∃ T, fired c = fired c0 ++ [(T, last_c)]
           ∧ (T + idle_time 0 rest_c = now c + 500)%N)
   ∧ CategoriesPage.debouncedSearch (page c) = last_c
   ∧ reloads c = reloads c0
                 ++ (if decide (CategoriesPage.debouncedSearch (page c0) = last_c)
                     then [] else [last_c]))
  ∧ ((∀ p dt v q, burst_u = p ++ Input dt v :: q →
        let mp := UsersRuns.run (p ++ [Input dt v]) mu in
        timers mp = [mkTimer (handler mp) (now mp + 400) v]
        ∧ fired mp = fired u0 ∧ reloads mp = reloads u0 ++ page_reset)
     ∧ timers u = []
     ∧ (∃ T, fired u = fired u0 ++ [(T, last_u)]
             ∧ (T + idle_time 0 rest_u = now u + 400)%N)
     ∧ UsersPage.debounced (page u) = last_u
     ∧ reloads u = reloads u0 ++ page_reset
                   ++ (if decide (UsersPage.debounced (page u0) = last_u) then []
                       else [(1%Z, perPage, last_u)])).
Proof.
  intros mc mu c0 u0 burst_c burst_u perPage Hrc Hru Hcc Hcu Hqc Hqu Hal Hna.
  split.
  - exact (categories_burst mc dc vc rest_c (categories_tidy before_c sc)
             Hrc Hcc Hqc).
  - exact (users_burst perPage mu du vu rest_u (users_tidy before_u su) eq_refl
             Hru Hcu Hqu Hal Hna).
Qed.

Lemma debounced_burst_witness :
  let ok := Async.Resolved Samples.page_1_of_5 in
  let c := CategoriesRuns.run
             [Input 100 "a"; Act (CategoriesRuns.Toggle "A"); Input 100 "ab"; Wait 500]
             (CategoriesRuns.mount CategoriesPage.initial) in
  let u := UsersRuns.run
             [Input 1000 "a"; Answer ok; Input 100 "ab"; Wait 250;
              Act (UsersRuns.PageChange 1); Answer ok; Wait 250]
             (UsersRuns.run [Wait 400; Answer ok] (UsersRuns.mount UsersPage.initial)) in
  (timers c = [] ∧ CategoriesPage.debouncedSearch (page c) = "ab")
  ∧ (timers u = [] ∧ UsersPage.debounced (page u) = "ab").
Proof.
  pose proof (debounced_burst CategoriesPage.initial UsersPage.initial
                [] [Act (CategoriesRuns.Toggle "A"); Input 100 "ab"; Wait 500]
                [Wait 400; Answer (Async.Resolved Samples.page_1_of_5)]
                [Answer (Async.Resolved Samples.page_1_of_5); Input 100 "ab";
                 Wait 250; Act (UsersRuns.PageChange 1);
                 Answer (Async.Resolved Samples.page_1_of_5); Wait 250]
                100 1000 "a" "a") as H.
  cbn zeta in H.
  specialize (H ltac:(vm_compute; split; [reflexivity|exact I])).
  specialize (H ltac:(vm_compute; split; [reflexivity|exact I])).
  specialize (H ltac:(vm_compute; repeat split; discriminate)).
  specialize (H ltac:(vm_compute; repeat split; discriminate)).
  specialize (H ltac:(vm_compute; discriminate)).
  specialize (H ltac:(vm_compute; discriminate)).
  specialize (H ltac:(repeat constructor)).
  specialize (H ltac:(repeat constructor)).
  destruct H as ((_ & Hc1 & _ & Hc2 & _) & (_ & Hu1 & _ & Hu2 & _)).
  split; split; assumption.
Defined.

End BurstFacts.
